(** * The scan-and-parse engine of ejs.c, embedded in Rocq

    The source is a hand-written recursive-descent recogniser over a
    null-terminated byte string.  The embedding keeps the shape of the C
    code: one Rocq function per C function, the [struct ejs] as a record,
    the cursor as an index into the memory the source pointer designates,
    [longjmp] as an error result threaded through a small monad, and the
    unbounded recursion of the mutually recursive productions bounded by
    a fuel argument (shown sufficient further down).  The linked list
    macros are embedded over a memory of nodes, a macro that dereferences
    an address without a node having no result. *)

From Stdlib Require Import Strings.Byte Strings.String.
From Stdlib Require Import List ZArith Lia Bool Arith.
Import ListNotations.

Local Open Scope string_scope.
Local Open Scope list_scope.
Local Open Scope nat_scope.

(** ** Bytes and machine integers *)

Definition NUL : byte := x00.
Definition TAB : byte := x09.
Definition LF : byte := x0a.
Definition CR : byte := x0d.
Definition SPACE : byte := x20.

(** A C [int] is 32 bits wide; arithmetic on it is modelled with the
    two's complement wrap-around of the usual targets. *)
Definition INT_MAX : Z := 2147483647.
Definition INT_MIN : Z := -2147483648.

Definition int_wrap (z : Z) : Z :=
  ((z + 2147483648) mod 4294967296 - 2147483648)%Z.

Definition int_add (a b : Z) : Z := int_wrap (a + b).
Definition int_mul (a b : Z) : Z := int_wrap (a * b).
Definition int_incr (a : Z) : Z := int_wrap (a + 1).

(** [peek_at mem i] is [mem[i]]: the memory the source pointer designates
    is the list [mem]; it is read as zero past its end, so the text of a
    list is always terminated.  A list that holds a NUL models memory
    with arbitrary contents behind the terminator. *)
Definition peek_at (mem : list byte) (i : nat) : byte := nth i mem NUL.

(** [strlen mem]: the number of bytes before the first NUL. *)
Fixpoint strlen (mem : list byte) : nat :=
  match mem with
  | [] => 0
  | c :: rest => if Byte.eqb c NUL then 0 else S (strlen rest)
  end.

(** ** Data model *)

(** Variable types *)
Inductive var_type := TYPE_OBJ | TYPE_INT | TYPE_DBL | TYPE_STR | TYPE_FUNC.

(** [struct var]: an entry of the symbol table.  The payload union is
    kept as the integer member; no function of the parse path reads it. *)
Record var := mk_var {
  name : list byte;
  type : var_type;
  i : Z
}.

(** [struct ejs].  [source_code] is the memory at the source pointer,
    [cursor] and [tok] are offsets from it.  [symbol_table] is the
    circular list headed by the [struct ll] member, as the list of its
    entries.  [exception_env] has no field: the jump is the [Die] result
    below. *)
Record ejs := mk_ejs {
  source_code : list byte;
  cursor : nat;
  line_no : Z;
  tok : nat;
  tok_len : Z;
  symbol_table : list var;
  error_msg : list byte
}.

Definition set_source (e : ejs) (mem : list byte) : ejs :=
  mk_ejs mem 0 (line_no e) (tok e) (tok_len e) (symbol_table e) (error_msg e).
Definition set_cursor (e : ejs) (c : nat) : ejs :=
  mk_ejs (source_code e) c (line_no e) (tok e) (tok_len e)
         (symbol_table e) (error_msg e).
Definition set_line_no (e : ejs) (l : Z) : ejs :=
  mk_ejs (source_code e) (cursor e) l (tok e) (tok_len e)
         (symbol_table e) (error_msg e).
Definition set_tok (e : ejs) (t : nat) : ejs :=
  mk_ejs (source_code e) (cursor e) (line_no e) t (tok_len e)
         (symbol_table e) (error_msg e).
Definition set_tok_len (e : ejs) (n : Z) : ejs :=
  mk_ejs (source_code e) (cursor e) (line_no e) (tok e) n
         (symbol_table e) (error_msg e).
Definition set_error_msg (e : ejs) (m : list byte) : ejs :=
  mk_ejs (source_code e) (cursor e) (line_no e) (tok e) (tok_len e)
         (symbol_table e) m.

(** [*ejs->cursor] *)
Definition peek (e : ejs) : byte := peek_at (source_code e) (cursor e).

(** [IS(ejs, ch)] *)
Definition IS (e : ejs) (ch : byte) : bool := Byte.eqb (peek e) ch.

(** [ejs_create]: [calloc] zeroes every member, then the list head is
    initialised to the empty list. *)
Definition ERROR_MSG_SIZE : nat := 100.

Definition ejs_create : ejs :=
  mk_ejs [] 0 0%Z 0 0%Z [] (repeat NUL ERROR_MSG_SIZE).

(** ** Results and the parser monad *)

(** A call either returns a value with the updated instance, or leaves
    through [longjmp] with the instance as [die] left it, or the model
    ran out of fuel. *)
Inductive res (A : Type) : Type :=
| Ret (a : A) (e : ejs)
| Die (e : ejs)
| OutOfFuel.
Arguments Ret {A} a e.
Arguments Die {A} e.
Arguments OutOfFuel {A}.

Definition M (A : Type) : Type := ejs -> res A.

Definition ret {A} (a : A) : M A := fun e => Ret a e.

Definition bind {A B} (m : M A) (k : A -> M B) : M B :=
  fun e =>
    match m e with
    | Ret a e' => k a e'
    | Die e' => Die e'
    | OutOfFuel => OutOfFuel
    end.

Notation "x <- m ;; k" := (bind m (fun x => k))
  (at level 61, m at next level, right associativity).
Notation "m ;; k" := (bind m (fun _ => k))
  (at level 61, right associativity).

(** A statement that only updates the instance. *)
Definition modify (f : ejs -> ejs) : M unit := fun e => Ret tt (f e).

(** ** CharacterClassifier *)

(** Character classes for source code tokenization.
    0 means invalid character, 1: delimiters, 2: digits,
    3: hex digits, 4: letters *)
Definition tab : list nat := [
    0; 0; 0; 0; 0; 0; 0; 0; 0; 1; 1; 0; 1; 0; 0; 0;
    0; 0; 0; 0; 0; 0; 0; 0; 0; 0; 0; 0; 0; 0; 0; 0;
    1; 1; 1; 1; 1; 1; 1; 1; 1; 1; 1; 1; 1; 1; 1; 1;
    2; 2; 2; 2; 2; 2; 2; 2; 2; 2; 1; 1; 1; 1; 1; 1;
    1; 3; 3; 3; 3; 3; 3; 4; 4; 4; 4; 4; 4; 4; 4; 4;
    4; 4; 4; 4; 4; 4; 4; 4; 4; 4; 4; 1; 1; 1; 1; 1;
    1; 3; 3; 3; 3; 3; 3; 4; 4; 4; 4; 4; 4; 4; 4; 4;
    4; 4; 4; 4; 4; 4; 4; 4; 4; 4; 4; 1; 1; 1; 1; 0;
    0; 0; 0; 0; 0; 0; 0; 0; 0; 0; 0; 0; 0; 0; 0; 0;
    0; 0; 0; 0; 0; 0; 0; 0; 0; 0; 0; 0; 0; 0; 0; 0;
    0; 0; 0; 0; 0; 0; 0; 0; 0; 0; 0; 0; 0; 0; 0; 0;
    0; 0; 0; 0; 0; 0; 0; 0; 0; 0; 0; 0; 0; 0; 0; 0;
    0; 0; 0; 0; 0; 0; 0; 0; 0; 0; 0; 0; 0; 0; 0; 0;
    0; 0; 0; 0; 0; 0; 0; 0; 0; 0; 0; 0; 0; 0; 0; 0;
    0; 0; 0; 0; 0; 0; 0; 0; 0; 0; 0; 0; 0; 0; 0; 0;
    0; 0; 0; 0; 0; 0; 0; 0; 0; 0; 0; 0; 0; 0; 0; 0
  ].

Definition char_class (s : byte) : nat := nth (Byte.to_nat s) tab 0.

Definition is_alpha (s : byte) : bool := 2 <? char_class s.
Definition is_alnum (s : byte) : bool := 1 <? char_class s.
Definition is_digit (s : byte) : bool := char_class s =? 2.
Definition is_space (s : byte) : bool :=
  Byte.eqb s SPACE || Byte.eqb s TAB || Byte.eqb s CR || Byte.eqb s LF.

(** ** ErrorSignal *)

(** The bytes of a C string: those before the first NUL. *)
Fixpoint c_str (l : list byte) : list byte :=
  match l with
  | [] => []
  | c :: rest => if Byte.eqb c NUL then [] else c :: c_str rest
  end.

(** [buf[n] = x], inside the buffer. *)
Fixpoint store (buf : list byte) (n : nat) (x : byte) : list byte :=
  match buf, n with
  | [], _ => []
  | _ :: rest, 0 => x :: rest
  | c :: rest, S n' => c :: store rest n' x
  end.

(** [vsnprintf(buf, size, ...)] where the format expands to [text]: at
    most [size - 1] bytes of it are written, then a NUL; the rest of the
    buffer keeps its bytes. *)
Definition vsnprintf (buf : list byte) (size : nat) (text : list byte)
  : list byte :=
  match size with
  | 0 => buf
  | S n => let t := firstn n text in t ++ NUL :: skipn (S (length t)) buf
  end.

(** The expansion of ["[%.*s]: %s"] with arguments [10], the cursor and
    the text of the failed condition. *)
Definition expect_fmt (mem : list byte) (cur : nat) (cond : string)
  : list byte :=
  list_byte_of_string "[" ++ firstn 10 (c_str (skipn cur mem))
    ++ list_byte_of_string "]: " ++ list_byte_of_string cond.

Definition die {A} (text : list byte) : M A :=
  fun vm =>
    let buf := vsnprintf (error_msg vm) ERROR_MSG_SIZE text in
    Die (set_error_msg vm (store buf (ERROR_MSG_SIZE - 1) NUL)).

(** [EXPECT(ejs, cond)]: the condition is evaluated first (it may move
    the cursor), and the message is formatted from the cursor it leaves. *)
Definition EXPECT (cond : M bool) (cond_text : string) : M unit :=
  holds <- cond ;;
  if holds : bool then ret tt
  else fun ejs => die (expect_fmt (source_code ejs) (cursor ejs) cond_text) ejs.

(** ** WhitespaceCommentSkipper *)

(** [while ( *s != '\0' && is_space(s)) { if ( *s == '\n') ejs->line_no++; s++; }]
    over the bytes at [s]. *)
Fixpoint skip_space_run (l : list byte) (s : nat) (line : Z) : nat * Z :=
  match l with
  | c :: rest =>
      if negb (Byte.eqb c NUL) && is_space c then
        skip_space_run rest (S s) (if Byte.eqb c LF then int_incr line else line)
      else (s, line)
  | [] => (s, line)
  end.

(** [while ( *s != '\0' && *s != '\n') s++;] over the bytes at [s]. *)
Fixpoint skip_to_eol (l : list byte) (s : nat) : nat :=
  match l with
  | c :: rest =>
      if negb (Byte.eqb c NUL) && negb (Byte.eqb c LF) then
        skip_to_eol rest (S s)
      else s
  | [] => s
  end.

Definition skip_whitespaces_and_comments : M unit :=
  fun ejs =>
    let mem := source_code ejs in
    let s := cursor ejs in
    if is_space (peek_at mem s) then
      let '(s1, line) := skip_space_run (skipn s mem) s (line_no ejs) in
      let s2 :=
        if Byte.eqb (peek_at mem s1) "/" && Byte.eqb (peek_at mem (S s1)) "/"
        then skip_to_eol (skipn (s1 + 2) mem) (s1 + 2)
        else s1 in
      Ret tt (set_cursor (set_line_no ejs line) s2)
    else Ret tt (set_cursor ejs s).

(** ** TerminalMatchers *)

(** [*ejs->cursor++]: the byte at the cursor, the cursor moved on. *)
Definition read_and_advance : M byte :=
  fun ejs => Ret (peek ejs) (set_cursor ejs (S (cursor ejs))).

Definition match_ (ch : byte) : M unit :=
  EXPECT (c <- read_and_advance ;; ret (Byte.eqb c ch))
         "*ejs->cursor++ == ch" ;;
  skip_whitespaces_and_comments.

(** [memcmp(a, b, n) == 0]; a list is read as zero past its end. *)
Fixpoint memcmp_eq (a b : list byte) (n : nat) : bool :=
  match n with
  | 0 => true
  | S n' => Byte.eqb (hd NUL a) (hd NUL b) && memcmp_eq (tl a) (tl b) n'
  end.

Definition test_and_skip (kw : list byte) (kwlen : nat) : M Z :=
  fun ejs =>
    if memcmp_eq (skipn (cursor ejs) (source_code ejs)) kw kwlen then
      (modify (fun ejs => set_cursor ejs (cursor ejs + kwlen)) ;;
       skip_whitespaces_and_comments ;;
       ret 1%Z) ejs
    else Ret 0%Z ejs.

(** ** Terminals of the grammar *)

(** [while (is_digit(ejs->cursor)) { result *= 10; result += *ejs->cursor++ - '0'; }] *)
Fixpoint digits_loop (l : list byte) (s : nat) (result : Z) : nat * Z :=
  match l with
  | c :: rest =>
      if is_digit c then
        digits_loop rest (S s)
          (int_add (int_mul result 10) (Z.of_nat (Byte.to_nat c) - 48))
      else (s, result)
  | [] => (s, result)
  end.

Definition parse_num : M Z :=
  EXPECT (fun ejs => Ret (is_digit (peek ejs)) ejs) "is_digit(ejs->cursor)" ;;
  modify (fun ejs => set_tok ejs (cursor ejs)) ;;
  result <- (fun ejs =>
     let '(s, result) :=
       digits_loop (skipn (cursor ejs) (source_code ejs)) (cursor ejs) 0%Z in
     Ret result (set_cursor ejs s)) ;;
  modify (fun ejs =>
     set_tok_len ejs (int_wrap (Z.of_nat (cursor ejs) - Z.of_nat (tok ejs)))) ;;
  skip_whitespaces_and_comments ;;
  ret result.

(** [while (is_alnum(ejs->cursor) || *ejs->cursor == '_') ejs->cursor++;] *)
Fixpoint ident_loop (l : list byte) (s : nat) : nat :=
  match l with
  | c :: rest =>
      if is_alnum c || Byte.eqb c "_" then ident_loop rest (S s) else s
  | [] => s
  end.

Definition parse_identifier : M unit :=
  EXPECT (fun ejs => Ret (is_alpha (peek ejs) || Byte.eqb (peek ejs) "_") ejs)
         "is_alpha(ejs->cursor) || *ejs->cursor == '_'" ;;
  modify (fun ejs => set_tok ejs (cursor ejs)) ;;
  modify (fun ejs => set_cursor ejs (S (cursor ejs))) ;;
  modify (fun ejs =>
     set_cursor ejs
       (ident_loop (skipn (cursor ejs) (source_code ejs)) (cursor ejs))) ;;
  modify (fun ejs =>
     set_tok_len ejs (int_wrap (Z.of_nat (cursor ejs) - Z.of_nat (tok ejs)))) ;;
  skip_whitespaces_and_comments.

(** ** GrammarParser *)

(** [if (cond) body] and [if (cond) a else b] on the instance. *)
Definition when (cond : ejs -> bool) (body : M unit) : M unit :=
  fun ejs => if cond ejs then body ejs else Ret tt ejs.

Definition ifelse {A} (cond : ejs -> bool) (a b : M A) : M A :=
  fun ejs => if cond ejs then a ejs else b ejs.

Definition out_of_fuel {A} : M A := fun _ => OutOfFuel.

(** The productions that call each other.  Every call and every loop
    iteration takes one unit of fuel; [call_args], [term_loop] and
    [expr_loop] are the [while] loops of [parse_function_call],
    [parse_term] and [parse_expression]. *)
Fixpoint parse_function_call (fuel : nat) : M unit :=
  match fuel with
  | 0 => out_of_fuel
  | S fuel =>
      match_ "(" ;;
      call_args fuel ;;
      match_ ")"
  end
with call_args (fuel : nat) : M unit :=
  match fuel with
  | 0 => out_of_fuel
  | S fuel =>
      when (fun ejs => negb (IS ejs ")"))
        (parse_expression fuel ;;
         when (fun ejs => IS ejs ",") (match_ ",") ;;
         call_args fuel)
  end
with parse_factor (fuel : nat) : M unit :=
  match fuel with
  | 0 => out_of_fuel
  | S fuel =>
      ifelse (fun ejs => IS ejs "(")
        (match_ "(" ;;
         parse_expression fuel ;;
         match_ ")")
        (ifelse (fun ejs => is_alpha (peek ejs))
           (parse_identifier ;;
            when (fun ejs => IS ejs "(") (parse_function_call fuel))
           (parse_num ;; ret tt))
  end
with parse_term (fuel : nat) : M unit :=
  match fuel with
  | 0 => out_of_fuel
  | S fuel =>
      parse_factor fuel ;;
      term_loop fuel
  end
with term_loop (fuel : nat) : M unit :=
  match fuel with
  | 0 => out_of_fuel
  | S fuel =>
      when (fun ejs => IS ejs "*" || IS ejs "/")
        ((fun ejs => match_ (peek ejs) ejs) ;;
         parse_factor fuel ;;
         term_loop fuel)
  end
with parse_expression (fuel : nat) : M unit :=
  match fuel with
  | 0 => out_of_fuel
  | S fuel =>
      parse_term fuel ;;
      expr_loop fuel
  end
with expr_loop (fuel : nat) : M unit :=
  match fuel with
  | 0 => out_of_fuel
  | S fuel =>
      when (fun ejs => IS ejs "-" || IS ejs "+")
        ((fun ejs => match_ (peek ejs) ejs) ;;
         parse_term fuel ;;
         expr_loop fuel)
  end.

(** [do { ... } while (test_and_skip(ejs, ",", 1));] *)
Fixpoint parse_declaration (fuel : nat) : M unit :=
  match fuel with
  | 0 => out_of_fuel
  | S fuel' =>
      parse_identifier ;;
      match_ "=" ;;
      parse_expression fuel' ;;
      again <- test_and_skip (list_byte_of_string ",") 1 ;;
      if negb (Z.eqb again 0) then parse_declaration fuel' else ret tt
  end.

Definition parse_assignment (fuel : nat) : M unit :=
  parse_identifier ;;
  match_ "=" ;;
  parse_expression fuel.

Definition parse_statement (fuel : nat) : M unit :=
  (is_var <- test_and_skip (list_byte_of_string "var") 3 ;;
   if negb (Z.eqb is_var 0) then parse_declaration fuel
   else ifelse (fun ejs => is_alpha (peek ejs))
          (parse_assignment fuel)
          (parse_expression fuel)) ;;
  match_ ";".

(** ** Driver *)

(** [while ( *ejs->cursor != '\0') { parse_statement(ejs); }] *)
Fixpoint statements (fuel : nat) : M unit :=
  match fuel with
  | 0 => out_of_fuel
  | S fuel' =>
      when (fun ejs => negb (IS ejs NUL))
        (parse_statement fuel' ;;
         statements fuel')
  end.

(** [ejs_exec] with the fuel explicit.  The result is the returned [int]
    and the instance after the call: 1 when the loop ends, 0 when [die]
    jumped to the [setjmp]; [None] when the fuel did not suffice. *)
Definition ejs_exec_fuel (fuel : nat) (vm : ejs) (source_code : list byte)
  : option (Z * ejs) :=
  match (skip_whitespaces_and_comments ;; statements fuel)
          (set_source vm source_code) with
  | Ret _ ejs' => Some (1%Z, ejs')
  | Die ejs' => Some (0%Z, ejs')
  | OutOfFuel => None
  end.

(** Fuel that suffices for a source text (see [ejs_exec_fuel_enough]). *)
Definition enough_fuel (source_code : list byte) : nat :=
  3 * strlen source_code + 5.

Definition ejs_exec (vm : ejs) (source_code : list byte) : option (Z * ejs) :=
  ejs_exec_fuel (enough_fuel source_code) vm source_code.

(** Source texts of the examples. *)
Definition text (s : string) : list byte := list_byte_of_string s.

(** What a caller sees of a call: the returned [int], where the cursor
    stopped and, after a failure, the diagnostic string. *)
Definition report (result : option (Z * ejs)) : option (Z * nat * list byte) :=
  match result with
  | Some (r, vm') =>
      Some (r, cursor vm',
            if Z.eqb r 0 then c_str (error_msg vm') else [])
  | None => None
  end.

(** ** Linked list interface *)

(** [struct ll]: the two pointers of a node, as addresses. *)
Record ll := mk_ll { prev : nat; next : nat }.

(** The memory the nodes live in: an address holds a node or nothing.
    A macro that dereferences an address that holds no node has no
    result. *)
Definition heap : Type := nat -> option ll.

Definition upd (h : heap) (p : nat) (n : ll) : heap :=
  fun q => if q =? p then Some n else h q.

(** [(P)->prev] and [(P)->next] *)
Definition get_prev (h : heap) (p : nat) : option nat := option_map prev (h p).
Definition get_next (h : heap) (p : nat) : option nat := option_map next (h p).

(** [(P)->prev = v] and [(P)->next = v] *)
Definition set_prev (h : heap) (p v : nat) : option heap :=
  match h p with
  | Some n => Some (upd h p (mk_ll v (next n)))
  | None => None
  end.

Definition set_next (h : heap) (p v : nat) : option heap :=
  match h p with
  | Some n => Some (upd h p (mk_ll (prev n) v))
  | None => None
  end.

Definition and_then {A B} (o : option A) (k : A -> option B) : option B :=
  match o with
  | Some a => k a
  | None => None
  end.

Local Infix ">>=" := and_then (at level 50, left associativity).

(** [((N)->next = (N)->prev = (N))] *)
Definition LINKED_LIST_INIT (h : heap) (N : nat) : option heap :=
  set_prev h N N >>= fun h =>
  set_next h N N.

(** [((N)->next == (N))] *)
Definition LINKED_LIST_IS_EMPTY (h : heap) (N : nat) : option bool :=
  get_next h N >>= fun a => Some (a =? N).

(** [((H)->next)->prev = (N); (N)->next = ((H)->next); (N)->prev = (H);
    (H)->next = (N);] *)
Definition LINKED_LIST_ADD_TO_FRONT (h : heap) (H N : nat) : option heap :=
  get_next h H >>= fun a => set_prev h a N >>= fun h =>
  get_next h H >>= fun a => set_next h N a >>= fun h =>
  set_prev h N H >>= fun h =>
  set_next h H N.

(** [((H)->prev)->next = (N); (N)->prev = ((H)->prev); (N)->next = (H);
    (H)->prev = (N);] *)
Definition LINKED_LIST_ADD_TO_TAIL (h : heap) (H N : nat) : option heap :=
  get_prev h H >>= fun a => set_next h a N >>= fun h =>
  get_prev h H >>= fun a => set_prev h N a >>= fun h =>
  set_next h N H >>= fun h =>
  set_prev h H N.

(** [((N)->next)->prev = ((N)->prev); ((N)->prev)->next = ((N)->next);
    LINKED_LIST_INIT(N);] *)
Definition LINKED_LIST_REMOVE (h : heap) (N : nat) : option heap :=
  get_next h N >>= fun a => get_prev h N >>= fun b =>
  set_prev h a b >>= fun h =>
  get_prev h N >>= fun a => get_next h N >>= fun b =>
  set_next h a b >>= fun h =>
  LINKED_LIST_INIT h N.

(** What a loop over the list comes to: it ended, it dereferenced an
    address that holds no node, or the fuel of the model ran out. *)
Inductive outcome (A : Type) : Type :=
| Finished (a : A)
| Faulted
| Unfinished.
Arguments Finished {A} a.
Arguments Faulted {A}.
Arguments Unfinished {A}.

(** [for (...; N != (H); N = (T), T = (N)->next) body]: the test, the
    body on the node [N] and the step.  The body works on a state of its
    own and on the memory. *)
Fixpoint foreach_loop {St : Type} (fuel : nat)
    (body : nat -> St * heap -> option (St * heap))
    (H N T : nat) (st : St * heap) : outcome (St * heap) :=
  match fuel with
  | 0 => Unfinished
  | S fuel' =>
      if N =? H then Finished st
      else
        match body N st with
        | None => Faulted
        | Some st' =>
            match get_next (snd st') T with
            | None => Faulted
            | Some T' => foreach_loop fuel' body H T T' st'
            end
        end
  end.

(** [LINKED_LIST_FOREACH(H,N,T) body]: [N = (H)->next, T = (N)->next],
    then the loop. *)
Definition LINKED_LIST_FOREACH {St : Type} (fuel : nat)
    (body : nat -> St * heap -> option (St * heap))
    (H : nat) (st : St * heap) : outcome (St * heap) :=
  match get_next (snd st) H with
  | None => Faulted
  | Some N =>
      match get_next (snd st) N with
      | None => Faulted
      | Some T => foreach_loop fuel body H N T st
      end
  end.

(** [a] points forward to [b] and [b] back to [a]. *)
Definition links (h : heap) (a b : nat) : Prop :=
  get_next h a = Some b /\ get_prev h b = Some a.

(** The nodes [l] are linked in a row between [p] and [q]. *)
Fixpoint seg (h : heap) (p : nat) (l : list nat) (q : nat) : Prop :=
  match l with
  | [] => links h p q
  | x :: l' => links h p x /\ seg h x l' q
  end.

(** The circular list headed by [H] holds the nodes [l], in this order. *)
Definition repr (h : heap) (H : nat) (l : list nat) : Prop :=
  NoDup (H :: l) /\ seg h H l H.

Definition allocated (h : heap) (p : nat) : Prop := h p <> None.

(** The memory that holds the listed nodes and nothing else. *)
Definition heap_of (nodes : list (nat * ll)) : heap :=
  fold_right (fun '(p, n) h => upd h p n) (fun _ => None) nodes.

(** The body that removes the node it is given. *)
Definition remove_body {St : Type} (N : nat) (st : St * heap)
  : option (St * heap) :=
  LINKED_LIST_REMOVE (snd st) N >>= fun h' => Some (fst st, h').

(** ** The grammar of the specification

    The productions below follow the words of the specification (its
    section on the grammar parser), not the code:

      program     = { statement } ;
      statement   = declaration | assignment | expression , ";" ;
      declaration = "var" , assignment , { "," , assignment } , ";" ;
      assignment  = identifier , "=" , expression ;
      expression  = term , { ("+" | "-") , term } ;
      term        = factor , { ("*" | "/") , factor } ;
      factor      = number
                  | identifier , [ "(" , { expression , [","] } , ")" ]
                  | "(" , expression , ")" ;
      identifier  = (letter | "_") , { letter | digit | "_" } ;
      number      = digit , { digit } ;

    A statement is read as a declaration, which brings its own [";"], or
    an assignment or an expression followed by [";"]: the reading under
    which the scenarios the specification lists as valid are derivable.
    Every terminal may be followed by blanks. *)
Module Grammar.

Definition letter (c : byte) : Prop := is_alpha c = true.
Definition digit (c : byte) : Prop := is_digit c = true.
Definition blank (c : byte) : Prop := is_space c = true.

(** The terminal [t] followed by blanks. *)
Definition lexeme (t s : list byte) : Prop :=
  exists w, Forall blank w /\ s = t ++ w.

Inductive identifier_text : list byte -> Prop :=
| identifier_intro c cs :
    letter c \/ c = "_"%byte ->
    Forall (fun c => letter c \/ digit c \/ c = "_"%byte) cs ->
    identifier_text (c :: cs).

Inductive number_text : list byte -> Prop :=
| number_intro c cs : digit c -> Forall digit cs -> number_text (c :: cs).

Definition identifier (s : list byte) : Prop :=
  exists t, identifier_text t /\ lexeme t s.

Definition number (s : list byte) : Prop :=
  exists t, number_text t /\ lexeme t s.

Definition symbol (t : string) (s : list byte) : Prop :=
  lexeme (list_byte_of_string t) s.

Inductive expression : list byte -> Prop :=
| expression_intro t rest :
    term t -> more_terms rest -> expression (t ++ rest)
with more_terms : list byte -> Prop :=
| more_terms_none : more_terms []
| more_terms_plus op t rest :
    symbol "+" op -> term t -> more_terms rest -> more_terms (op ++ t ++ rest)
| more_terms_minus op t rest :
    symbol "-" op -> term t -> more_terms rest -> more_terms (op ++ t ++ rest)
with term : list byte -> Prop :=
| term_intro f rest :
    factor f -> more_factors rest -> term (f ++ rest)
with more_factors : list byte -> Prop :=
| more_factors_none : more_factors []
| more_factors_times op f rest :
    symbol "*" op -> factor f -> more_factors rest ->
    more_factors (op ++ f ++ rest)
| more_factors_divide op f rest :
    symbol "/" op -> factor f -> more_factors rest ->
    more_factors (op ++ f ++ rest)
with factor : list byte -> Prop :=
| factor_number n : number n -> factor n
| factor_identifier x : identifier x -> factor x
| factor_call x lp args rp :
    identifier x -> symbol "(" lp -> arguments args -> symbol ")" rp ->
    factor (x ++ lp ++ args ++ rp)
| factor_parens lp e rp :
    symbol "(" lp -> expression e -> symbol ")" rp -> factor (lp ++ e ++ rp)
with arguments : list byte -> Prop :=
| arguments_none : arguments []
| arguments_expression e rest :
    expression e -> arguments rest -> arguments (e ++ rest)
| arguments_comma e c rest :
    expression e -> symbol "," c -> arguments rest ->
    arguments (e ++ c ++ rest).

Inductive assignment : list byte -> Prop :=
| assignment_intro x eq e :
    identifier x -> symbol "=" eq -> expression e -> assignment (x ++ eq ++ e).

Inductive more_assignments : list byte -> Prop :=
| more_assignments_none : more_assignments []
| more_assignments_comma c a rest :
    symbol "," c -> assignment a -> more_assignments rest ->
    more_assignments (c ++ a ++ rest).

Inductive declaration : list byte -> Prop :=
| declaration_intro kw a rest semi :
    symbol "var" kw -> assignment a -> more_assignments rest ->
    symbol ";" semi -> declaration (kw ++ a ++ rest ++ semi).

Inductive statement : list byte -> Prop :=
| statement_declaration d : declaration d -> statement d
| statement_assignment a semi :
    assignment a -> symbol ";" semi -> statement (a ++ semi)
| statement_expression e semi :
    expression e -> symbol ";" semi -> statement (e ++ semi).

Inductive program : list byte -> Prop :=
| program_none : program []
| program_statement s rest :
    statement s -> program rest -> program (s ++ rest).

End Grammar.

(** ** Notions the proofs are stated with *)

(** The newlines at and after an offset. *)
Definition newlines_from (mem : list byte) (s : nat) : nat :=
  count_occ Byte.byte_eq_dec (skipn s mem) LF.

(** The offset where a scan that advances while [p] holds stops. *)
Fixpoint scan (p : byte -> bool) (l : list byte) (s : nat) : nat :=
  match l with
  | c :: rest => if p c then scan p rest (S s) else s
  | [] => s
  end.

(** The conditions [EXPECT] is used with. *)
Definition expect_texts : list string :=
  [ "*ejs->cursor++ == ch";
    "is_digit(ejs->cursor)";
    "is_alpha(ejs->cursor) || *ejs->cursor == '_'" ].

(** The cursor is inside the text (at most on its terminator). *)
Definition ok (e : ejs) : Prop := cursor e <= strlen (source_code e).

(** Newlines at and after the cursor. *)
Definition nl (e : ejs) : nat := newlines_from (source_code e) (cursor e).

(** A call that returns: it moved the cursor forward by at least [n]
    bytes inside the text, counted the newlines it went over, and left
    source, symbol table and error message alone. *)
Definition returns (n : nat) (e e' : ejs) : Prop :=
  source_code e' = source_code e /\
  symbol_table e' = symbol_table e /\
  error_msg e' = error_msg e /\
  cursor e + n <= cursor e' /\
  ok e' /\
  nl e' <= nl e /\
  line_no e' = Nat.iter (nl e - nl e') int_incr (line_no e).

(** The buffer holds the diagnostic of a failed [EXPECT] at the cursor. *)
Definition diagnostic (e' : ejs) : Prop :=
  exists cond rest,
    In cond expect_texts /\
    error_msg e' =
      expect_fmt (source_code e') (cursor e') cond ++ NUL :: rest.

(** A call that is left through [die]. *)
Definition dies (e e' : ejs) : Prop :=
  source_code e' = source_code e /\
  symbol_table e' = symbol_table e /\
  cursor e <= cursor e' /\
  cursor e' <= S (strlen (source_code e')) /\
  (exists k, k + nl e' <= nl e /\
             line_no e' = Nat.iter k int_incr (line_no e)) /\
  diagnostic e' /\
  (List.length (error_msg e) = ERROR_MSG_SIZE ->
   List.length (error_msg e') = ERROR_MSG_SIZE).

(** What a result says about the instance [e] the call started on. *)
Definition sat {A} (n : nat) (e : ejs) (r : res A) : Prop :=
  match r with
  | Ret _ e' => returns n e e'
  | Die e' => dies e e'
  | OutOfFuel => True
  end.

(** [m], started with the cursor inside the text, returns or dies as
    above; when it returns, the cursor has moved by at least [n]. *)
Definition spec {A} (n : nat) (m : M A) : Prop :=
  forall e, ok e -> sat n e (m e).

(** The bytes of the text that are still ahead of the cursor. *)
Definition remaining (e : ejs) : nat := strlen (source_code e) - cursor e.

(** [m] needs no fuel at all. *)
Definition never_out {A} (m : M A) : Prop := forall e, m e <> OutOfFuel.

(** [m] has fuel enough on every instance with at most [r] bytes ahead. *)
Definition runs {A} (r : nat) (m : M A) : Prop :=
  forall e, ok e -> remaining e <= r -> m e <> OutOfFuel.

(** Whenever [m] has fuel enough, [m'] returns the same. *)
Definition refines {A} (m m' : M A) : Prop :=
  forall e, m e <> OutOfFuel -> m' e = m e.

(** A byte that is neither a letter, nor a digit, nor ["("]: every
    production sends it to [parse_num], which dies on it with the cursor
    where it was. *)
Definition rejected (e : ejs) : res unit :=
  die (expect_fmt (source_code e) (cursor e) "is_digit(ejs->cursor)") e.

(** The longest prefix of bytes that satisfy [p]. *)
Fixpoint leading (p : byte -> bool) (l : list byte) : list byte :=
  match l with
  | c :: rest => if p c then c :: leading p rest else []
  | [] => []
  end.

(** The value of a string of digits in base ten, continuing from [acc]. *)
Fixpoint decimal (ds : list byte) (acc : Z) : Z :=
  match ds with
  | c :: rest => decimal rest (acc * 10 + (Z.of_nat (Byte.to_nat c) - 48))
  | [] => acc
  end.

(** The [n] bytes of the memory from offset [s] on. *)
Definition bytes_at (mem : list byte) (s n : nat) : list byte :=
  map (peek_at mem) (seq s n).

(** The bytes an expression can start with. *)
Definition expression_start (c : byte) : Prop :=
  is_alpha c = true \/ is_digit c = true \/ c = "("%byte.

(** Two instances that agree on the memory at the source pointer and
    on the cursor. *)
Definition sim (e1 e2 : ejs) : Prop :=
  source_code e1 = source_code e2 /\ cursor e1 = cursor e2.

(** Two results that agree on what was returned, on where the cursor
    stopped and, after [die], on the diagnostic string. *)
Definition sim_res {A} (r1 r2 : res A) : Prop :=
  match r1, r2 with
  | Ret a1 e1, Ret a2 e2 => a1 = a2 /\ sim e1 e2
  | Die e1, Die e2 =>
      sim e1 e2 /\ c_str (error_msg e1) = c_str (error_msg e2)
  | OutOfFuel, OutOfFuel => True
  | _, _ => False
  end.

(** Of the instance, [m] reads the memory at the source pointer and
    the cursor only. *)
Definition uniform {A} (m : M A) : Prop :=
  forall e1 e2, sim e1 e2 -> sim_res (m e1) (m e2).

(** A condition on the memory at the source pointer and the cursor. *)
Definition respects {A} (f : ejs -> A) : Prop :=
  forall e1 e2, sim e1 e2 -> f e1 = f e2.

(** The instance after the skipper went over [n] bytes with [k]
    newlines. *)
Definition skipped (e : ejs) (n k : nat) : ejs :=
  set_cursor (set_line_no e (Nat.iter k int_incr (line_no e))) (cursor e + n).

(** Two instances at the same offset of memories that hold the same
    text (the memories may differ behind the terminator). *)
Definition same_text (e1 e2 : ejs) : Prop :=
  c_str (source_code e1) = c_str (source_code e2) /\ cursor e1 = cursor e2.

(** Two results that agree on what was returned and on where the cursor
    stopped; after [die] they agree on the diagnostic string when the
    cursor is inside the text. *)
Definition same_res {A} (r1 r2 : res A) : Prop :=
  match r1, r2 with
  | Ret a1 e1, Ret a2 e2 => a1 = a2 /\ same_text e1 e2 /\ ok e1
  | Die e1, Die e2 =>
      same_text e1 e2 /\
      (ok e1 -> c_str (error_msg e1) = c_str (error_msg e2))
  | OutOfFuel, OutOfFuel => True
  | _, _ => False
  end.

(** [m], started inside the text, reads nothing behind the terminator
    that would change its result. *)
Definition text_only {A} (m : M A) : Prop :=
  forall e1 e2, ok e1 -> same_text e1 e2 -> same_res (m e1) (m e2).

(** ** Reading the memory *)

Lemma skipn_cons_peek (mem : list byte) (s : nat) (c : byte) (rest : list byte) :
  skipn s mem = c :: rest -> peek_at mem s = c /\ skipn (S s) mem = rest.
Proof.
  revert s; induction mem as [|x mem IH]; intros [|s] H; simpl in *;
    try discriminate.
  - inversion H; auto.
  - apply IH in H. exact H.
Qed.

Lemma skipn_nil_peek (mem : list byte) (s : nat) :
  skipn s mem = [] -> peek_at mem s = NUL.
Proof.
  revert s; induction mem as [|x mem IH]; intros [|s] H; simpl in *;
    try discriminate; auto.
  apply IH; assumption.
Qed.

Lemma peek_at_strlen (mem : list byte) : peek_at mem (strlen mem) = NUL.
Proof.
  induction mem as [|c mem IH]; simpl; auto.
  destruct (Byte.eqb c NUL) eqn:E; simpl; auto.
  apply Byte.byte_dec_bl in E; assumption.
Qed.

Lemma strlen_lt (mem : list byte) (s : nat) :
  s <= strlen mem -> peek_at mem s <> NUL -> s < strlen mem.
Proof.
  intros Hle Hne.
  destruct (Nat.eq_dec s (strlen mem)) as [->|]; [|lia].
  elim Hne. apply peek_at_strlen.
Qed.

Lemma strlen_segment (mem : list byte) (s s' : nat) :
  s <= s' -> s <= strlen mem ->
  (forall j, s <= j < s' -> peek_at mem j <> NUL) ->
  s' <= strlen mem.
Proof.
  intros Hss Hs Hseg.
  induction Hss as [|s' Hss IH]; [assumption|].
  assert (s' <= strlen mem) by (apply IH; intros; apply Hseg; lia).
  apply strlen_lt; [assumption|]. apply Hseg; lia.
Qed.

Lemma newlines_from_step (mem : list byte) (s : nat) :
  newlines_from mem s =
  (if Byte.eqb (peek_at mem s) LF then 1 else 0) + newlines_from mem (S s).
Proof.
  unfold newlines_from.
  destruct (skipn s mem) as [|c rest] eqn:E.
  - rewrite (skipn_nil_peek _ _ E).
    assert (skipn (S s) mem = []) as ->; [|reflexivity].
    apply skipn_all2. apply (f_equal (@List.length byte)) in E.
    rewrite length_skipn in E. simpl in E. lia.
  - apply skipn_cons_peek in E as [<- <-]. simpl.
    destruct (Byte.byte_eq_dec (peek_at mem s) LF) as [->|Hne]; [reflexivity|].
    destruct (Byte.eqb (peek_at mem s) LF) eqn:E; [|reflexivity].
    apply Byte.byte_dec_bl in E. contradiction.
Qed.

Lemma newlines_from_segment (mem : list byte) (s s' : nat) :
  s <= s' ->
  (forall j, s <= j < s' -> peek_at mem j <> LF) ->
  newlines_from mem s' = newlines_from mem s.
Proof.
  intros Hss Hseg.
  induction Hss as [|s' Hss IH]; [reflexivity|].
  rewrite <- IH by (intros; apply Hseg; lia).
  rewrite (newlines_from_step mem s').
  destruct (Byte.eqb (peek_at mem s') LF) eqn:E; [|reflexivity].
  apply Byte.byte_dec_bl in E. elim (Hseg s'); [lia|assumption].
Qed.

Lemma newlines_from_le (mem : list byte) (s s' : nat) :
  s <= s' -> newlines_from mem s' <= newlines_from mem s.
Proof.
  intros Hss. induction Hss as [|s' Hss IH]; [lia|].
  rewrite (newlines_from_step mem s') in IH. lia.
Qed.

(** ** The scanning loops *)

Lemma scan_spec (p : byte -> bool) (mem : list byte) (s : nat) :
  p NUL = false ->
  s <= scan p (skipn s mem) s /\
  (forall j, s <= j < scan p (skipn s mem) s -> p (peek_at mem j) = true) /\
  p (peek_at mem (scan p (skipn s mem) s)) = false.
Proof.
  intros Hnul.
  remember (skipn s mem) as l eqn:El. symmetry in El.
  revert s El; induction l as [|c rest IH]; intros s El; simpl.
  - rewrite (skipn_nil_peek _ _ El). repeat split; auto; intros; lia.
  - destruct (skipn_cons_peek _ _ _ _ El) as [Hc Hrest].
    destruct (p c) eqn:Ep.
    + destruct (IH (S s) Hrest) as (Hle & Hseg & Hend).
      repeat split; [lia| |assumption].
      intros j Hj. destruct (Nat.eq_dec j s) as [->|].
      * rewrite Hc; assumption.
      * apply Hseg; lia.
    + repeat split; [lia|intros; lia|rewrite Hc; assumption].
Qed.

Lemma ident_loop_scan (l : list byte) (s : nat) :
  ident_loop l s = scan (fun c => is_alnum c || Byte.eqb c "_") l s.
Proof.
  revert s; induction l as [|c rest IH]; intros s; simpl; auto.
  rewrite IH; reflexivity.
Qed.

Lemma skip_to_eol_scan (l : list byte) (s : nat) :
  skip_to_eol l s =
  scan (fun c => negb (Byte.eqb c NUL) && negb (Byte.eqb c LF)) l s.
Proof.
  revert s; induction l as [|c rest IH]; intros s; simpl; auto.
  rewrite IH; reflexivity.
Qed.

Lemma digits_loop_scan (l : list byte) (s : nat) (result : Z) :
  fst (digits_loop l s result) = scan is_digit l s.
Proof.
  revert s result; induction l as [|c rest IH]; intros s result; simpl; auto.
  destruct (is_digit c); auto.
Qed.

Lemma skip_space_run_scan (l : list byte) (s : nat) (line : Z) :
  fst (skip_space_run l s line) =
  scan (fun c => negb (Byte.eqb c NUL) && is_space c) l s.
Proof.
  revert s line; induction l as [|c rest IH]; intros s line; simpl; auto.
  destruct (negb (Byte.eqb c NUL) && is_space c); auto.
Qed.

(** The line counter after the whitespace loop: one increment for each
    newline the loop went over. *)
Lemma skip_space_run_line (mem : list byte) (s : nat) (line : Z) :
  let s' := fst (skip_space_run (skipn s mem) s line) in
  snd (skip_space_run (skipn s mem) s line) =
    Nat.iter (newlines_from mem s - newlines_from mem s') int_incr line /\
  newlines_from mem s' <= newlines_from mem s.
Proof.
  simpl.
  remember (skipn s mem) as l eqn:El. symmetry in El.
  revert s line El; induction l as [|c rest IH]; intros s line El; simpl.
  - rewrite Nat.sub_diag. simpl; auto.
  - destruct (skipn_cons_peek _ _ _ _ El) as [Hc Hrest].
    destruct (negb (Byte.eqb c NUL) && is_space c) eqn:Ep.
    + destruct (IH (S s) (if Byte.eqb c LF then int_incr line else line) Hrest)
        as [Hline Hle].
      rewrite Hline. rewrite (newlines_from_step mem s), Hc.
      split; [|lia].
      destruct (Byte.eqb c LF).
      * replace (1 + newlines_from mem (S s) -
                 newlines_from mem (fst (skip_space_run rest (S s) (int_incr line))))
          with (S (newlines_from mem (S s) -
                 newlines_from mem (fst (skip_space_run rest (S s) (int_incr line)))))
          by lia.
        rewrite Nat.iter_succ_r. reflexivity.
      * reflexivity.
    + simpl. rewrite Nat.sub_diag. simpl; auto.
Qed.

(** ** What a call may do to the instance *)

Lemma returns_refl (e : ejs) : ok e -> returns 0 e e.
Proof.
  intros H. unfold returns. rewrite Nat.sub_diag, Nat.add_0_r.
  repeat split; auto.
Qed.

Lemma returns_weaken (n m : nat) (e e' : ejs) :
  m <= n -> returns n e e' -> returns m e e'.
Proof.
  unfold returns. intros Hle (H1 & H2 & H3 & H4 & H5 & H6 & H7).
  repeat split; auto; lia.
Qed.

Lemma returns_trans (n1 n2 : nat) (e e1 e2 : ejs) :
  returns n1 e e1 -> returns n2 e1 e2 -> returns (n1 + n2) e e2.
Proof.
  unfold returns.
  intros (S1 & T1 & M1 & C1 & O1 & N1 & L1) (S2 & T2 & M2 & C2 & O2 & N2 & L2).
  repeat split; try congruence; try lia.
  rewrite L2, L1, <- Nat.iter_add. f_equal. lia.
Qed.

Lemma returns_dies (n : nat) (e e1 e2 : ejs) :
  returns n e e1 -> dies e1 e2 -> dies e e2.
Proof.
  unfold returns, dies.
  intros (S1 & T1 & M1 & C1 & O1 & N1 & L1)
         (S2 & T2 & C2 & O2 & (k & K2 & L2) & D2 & B2).
  repeat split; try congruence; try lia; auto.
  - exists (k + (nl e - nl e1)). split; [lia|].
    rewrite L2, L1, <- Nat.iter_add. reflexivity.
  - intros Hlen. apply B2. rewrite M1. exact Hlen.
Qed.

Lemma sat_bind {A B} (n n1 n2 : nat) (m : M A) (k : A -> M B) (e : ejs) :
  sat n1 e (m e) ->
  (forall a e', returns n1 e e' -> sat n2 e' (k a e')) ->
  n <= n1 + n2 ->
  sat n e (bind m k e).
Proof.
  unfold bind. intros Hm Hk Hn.
  destruct (m e) as [a e'| e' |]; simpl in *; auto.
  specialize (Hk a e' Hm).
  destruct (k a e') as [b e''| e'' |]; simpl in *; auto.
  - eapply returns_weaken; [exact Hn|]. eapply returns_trans; eassumption.
  - eapply returns_dies; eassumption.
Qed.

Lemma spec_bind {A B} (n n1 n2 : nat) (m : M A) (k : A -> M B) :
  spec n1 m -> (forall a, spec n2 (k a)) -> n <= n1 + n2 ->
  spec n (bind m k).
Proof.
  intros Hm Hk Hn e He.
  eapply sat_bind; [apply Hm; assumption| |exact Hn].
  intros a e' Hr. apply Hk. apply Hr.
Qed.

Lemma spec_ret {A} (a : A) : spec 0 (ret a).
Proof. intros e He. apply returns_refl; assumption. Qed.

Lemma spec_weaken {A} (n m : nat) (c : M A) : m <= n -> spec n c -> spec m c.
Proof.
  intros Hle Hc e He. specialize (Hc e He).
  destruct (c e); simpl in *; auto. eapply returns_weaken; eassumption.
Qed.

Lemma spec_out_of_fuel {A} (n : nat) : spec n (@out_of_fuel A).
Proof. intros e He. exact I. Qed.

Lemma spec_when (n : nat) (cond : ejs -> bool) (body : M unit) :
  spec n body -> spec 0 (when cond body).
Proof.
  intros Hb e He. unfold when. destruct (cond e).
  - apply (spec_weaken n 0); [lia|assumption|assumption].
  - apply returns_refl; assumption.
Qed.

Lemma spec_ifelse {A} (n : nat) (cond : ejs -> bool) (a b : M A) :
  spec n a -> spec n b -> spec n (ifelse cond a b).
Proof.
  intros Ha Hb e He. unfold ifelse. destruct (cond e); auto.
Qed.

(** ** The primitives *)

(** Moving the cursor over bytes that are neither the terminator nor a
    newline, everything else as it was. *)
Lemma returns_advance (e e' : ejs) :
  ok e ->
  source_code e' = source_code e ->
  symbol_table e' = symbol_table e ->
  error_msg e' = error_msg e ->
  line_no e' = line_no e ->
  cursor e <= cursor e' ->
  (forall j, cursor e <= j < cursor e' ->
     peek_at (source_code e) j <> NUL /\ peek_at (source_code e) j <> LF) ->
  returns (cursor e' - cursor e) e e'.
Proof.
  intros Hok Hs Ht Hm Hl Hc Hseg.
  assert (Hnl : nl e' = nl e).
  { unfold nl. rewrite Hs. apply newlines_from_segment; [assumption|].
    intros j Hj. apply Hseg; assumption. }
  unfold returns. rewrite Hnl, Nat.sub_diag. simpl.
  repeat split; auto; try lia.
  unfold ok. rewrite Hs. eapply strlen_segment; [exact Hc|exact Hok|].
  intros j Hj. apply Hseg; assumption.
Qed.

Lemma is_space_not_NUL (c : byte) :
  negb (Byte.eqb c NUL) && is_space c = true -> c <> NUL.
Proof. intros H ->. discriminate H. Qed.

Lemma not_eol (c : byte) :
  negb (Byte.eqb c NUL) && negb (Byte.eqb c LF) = true -> c <> NUL /\ c <> LF.
Proof. intros H; split; intros ->; discriminate H. Qed.

Lemma eqb_slash (c : byte) : Byte.eqb c "/" = true -> c <> NUL /\ c <> LF.
Proof.
  intros H. apply Byte.byte_dec_bl in H. subst c. split; discriminate.
Qed.

Lemma spec_skip_whitespaces_and_comments :
  spec 0 skip_whitespaces_and_comments.
Proof.
  intros e He. unfold skip_whitespaces_and_comments.
  destruct (is_space (peek_at (source_code e) (cursor e))).
  2:{ simpl. eapply returns_weaken; [|apply returns_advance]; simpl; auto.
      - lia.
      - intros; lia. }
  destruct (skip_space_run (skipn (cursor e) (source_code e)) (cursor e)
              (line_no e)) as [s1 line] eqn:Er.
  pose proof (skip_space_run_scan (skipn (cursor e) (source_code e))
                (cursor e) (line_no e)) as Hs1.
  pose proof (skip_space_run_line (source_code e) (cursor e) (line_no e))
    as [Hline Hnl].
  rewrite Er in Hs1, Hline, Hnl. simpl in Hs1, Hline, Hnl.
  destruct (scan_spec (fun c => negb (Byte.eqb c NUL) && is_space c)
              (source_code e) (cursor e) eq_refl) as (Hle & Hseg & _).
  rewrite <- Hs1 in Hle, Hseg.
  set (s2 := if Byte.eqb (peek_at (source_code e) s1) "/" &&
                Byte.eqb (peek_at (source_code e) (S s1)) "/"
             then skip_to_eol (skipn (s1 + 2) (source_code e)) (s1 + 2)
             else s1).
  assert (H2 : s1 <= s2 /\
               forall j, s1 <= j < s2 ->
                 peek_at (source_code e) j <> NUL /\
                 peek_at (source_code e) j <> LF).
  { subst s2.
    destruct (Byte.eqb (peek_at (source_code e) s1) "/") eqn:E1; simpl.
    2:{ split; [lia|intros; lia]. }
    destruct (Byte.eqb (peek_at (source_code e) (S s1)) "/") eqn:E2; simpl.
    2:{ split; [lia|intros; lia]. }
    rewrite skip_to_eol_scan.
    destruct (scan_spec (fun c => negb (Byte.eqb c NUL) && negb (Byte.eqb c LF))
                (source_code e) (s1 + 2) eq_refl) as (Hle2 & Hseg2 & _).
    split; [lia|]. intros j Hj.
    destruct (Nat.eq_dec j s1) as [->|]; [apply eqb_slash; assumption|].
    destruct (Nat.eq_dec j (S s1)) as [->|]; [apply eqb_slash; assumption|].
    apply not_eol. apply Hseg2. lia. }
  destruct H2 as [Hle2 Hseg2].
  simpl. unfold returns, ok, nl; simpl.
  assert (Hnl2 : newlines_from (source_code e) s2 =
                 newlines_from (source_code e) s1).
  { apply newlines_from_segment; [assumption|]. intros; apply Hseg2; auto. }
  rewrite Hnl2.
  repeat split; auto; try lia.
  eapply strlen_segment; [|exact He|]; [lia|].
  intros j Hj. destruct (Nat.lt_ge_cases j s1).
  - apply is_space_not_NUL. apply Hseg. lia.
  - apply Hseg2. lia.
Qed.

(** *** The diagnostic buffer *)

Lemma store_length (buf : list byte) (n : nat) (x : byte) :
  List.length (store buf n x) = List.length buf.
Proof.
  revert n; induction buf as [|c rest IH]; intros [|n]; simpl; auto.
Qed.

Lemma store_beyond (a r : list byte) (x y : byte) (n : nat) :
  List.length a < n ->
  store (a ++ x :: r) n y = a ++ x :: store r (n - S (List.length a)) y.
Proof.
  revert n; induction a as [|c a IH]; intros n Hn; simpl in *.
  - destruct n as [|n]; [lia|]. simpl. rewrite Nat.sub_0_r. reflexivity.
  - destruct n as [|n]; [lia|]. rewrite IH by lia. reflexivity.
Qed.

Lemma c_str_no_NUL (l : list byte) : ~ In NUL (c_str l).
Proof.
  induction l as [|c rest IH]; simpl; auto.
  destruct (Byte.eqb c NUL) eqn:E; simpl; auto.
  intros [->|H]; [discriminate E|auto].
Qed.

Lemma c_str_terminated (a r : list byte) :
  ~ In NUL a -> c_str (a ++ NUL :: r) = a.
Proof.
  induction a as [|c a IH]; simpl; intros H; auto.
  destruct (Byte.eqb c NUL) eqn:E.
  - apply Byte.byte_dec_bl in E. elim H; auto.
  - f_equal. apply IH. intros Hin; apply H; auto.
Qed.

Lemma In_firstn (n : nat) (l : list byte) (x : byte) :
  In x (firstn n l) -> In x l.
Proof.
  revert l; induction n as [|n IH]; intros [|c l] H; simpl in *;
    try contradiction.
  destruct H as [H|H]; auto.
Qed.

Lemma expect_fmt_length (mem : list byte) (cur : nat) (cond : string) :
  In cond expect_texts ->
  1 <= List.length (expect_fmt mem cur cond) <= 58.
Proof.
  intros Hin. unfold expect_fmt.
  rewrite !length_app.
  pose proof (firstn_le_length 10 (c_str (skipn cur mem))) as Hf.
  simpl in Hin.
  destruct Hin as [<-|[<-|[<-|[]]]];
    repeat match goal with
    | |- context [List.length (list_byte_of_string ?s)] =>
        let n := eval vm_compute in (List.length (list_byte_of_string s)) in
        change (List.length (list_byte_of_string s)) with n
    end; lia.
Qed.

Lemma expect_fmt_no_NUL (mem : list byte) (cur : nat) (cond : string) :
  In cond expect_texts -> ~ In NUL (expect_fmt mem cur cond).
Proof.
  intros Hin H. unfold expect_fmt in H.
  rewrite !in_app_iff in H.
  destruct H as [H|[H|[H|H]]].
  - simpl in H. destruct H as [H|[]]; discriminate H.
  - apply (c_str_no_NUL (skipn cur mem)). eapply In_firstn; exact H.
  - simpl in H. decompose [or] H; try discriminate; auto.
  - simpl in Hin. destruct Hin as [<-|[<-|[<-|[]]]]; simpl in H;
      decompose [or] H; try discriminate; auto.
Qed.

(** [die] after an [EXPECT] failed on [e1], a state the call reached
    from [e] by moving the cursor only. *)
Lemma die_dies {A} (n : nat) (e e1 : ejs) (cond : string) :
  source_code e1 = source_code e ->
  symbol_table e1 = symbol_table e ->
  error_msg e1 = error_msg e ->
  line_no e1 = line_no e ->
  cursor e <= cursor e1 ->
  cursor e1 <= S (strlen (source_code e)) ->
  In cond expect_texts ->
  sat n e (@die A (expect_fmt (source_code e1) (cursor e1) cond) e1).
Proof.
  intros Hs Ht Hm Hl Hc Hb Hin.
  pose proof (expect_fmt_length (source_code e1) (cursor e1) cond Hin) as Hlen.
  assert (Hd : diagnostic
                 (set_error_msg e1
                    (expect_fmt (source_code e1) (cursor e1) cond ++
                     NUL :: store (skipn (S (List.length
                                (expect_fmt (source_code e1) (cursor e1) cond)))
                              (error_msg e1))
                         (ERROR_MSG_SIZE - 1 - S (List.length
                                (expect_fmt (source_code e1) (cursor e1) cond)))
                         NUL))).
  { exists cond. eexists. split; [assumption|reflexivity]. }
  remember (expect_fmt (source_code e1) (cursor e1) cond) as text eqn:Etext.
  assert (Hv : vsnprintf (error_msg e1) ERROR_MSG_SIZE text =
               text ++ NUL :: skipn (S (List.length text)) (error_msg e1)).
  { unfold vsnprintf, ERROR_MSG_SIZE. rewrite firstn_all2 by lia. reflexivity. }
  unfold die, sat. rewrite Hv.
  rewrite store_beyond by (unfold ERROR_MSG_SIZE; lia).
  unfold dies. repeat split; auto.
  - simpl. rewrite Hs; assumption.
  - exists 0. split; [|simpl; auto]. simpl. unfold nl. simpl. rewrite Hs.
    apply newlines_from_le; assumption.
  - intros Hbuf. rewrite <- Hm in Hbuf.
    unfold set_error_msg, error_msg at 1.
    rewrite length_app.
    change (List.length (NUL :: ?r)) with (S (List.length r)).
    rewrite store_length, length_skipn.
    unfold ERROR_MSG_SIZE in *. lia.
Qed.

(** *** Terminal matchers and terminals *)

Ltac fields :=
  cbn [source_code cursor line_no tok tok_len symbol_table error_msg
       set_source set_cursor set_line_no set_tok set_tok_len set_error_msg]
    in *.

Lemma sat_after {A} (n n1 n2 : nat) (e e1 : ejs) (r : res A) :
  returns n1 e e1 -> sat n2 e1 r -> n <= n1 + n2 -> sat n e r.
Proof.
  intros H1 H2 Hn. destruct r as [a e2|e2|]; simpl in *; auto.
  - eapply returns_weaken; [exact Hn|]. eapply returns_trans; eassumption.
  - eapply returns_dies; eassumption.
Qed.

Lemma EXPECT_pure_bind {B} (f : ejs -> bool) (cond : string) (k : M B)
      (e : ejs) :
  (EXPECT (fun ejs => Ret (f ejs) ejs) cond ;; k) e =
  if f e then k e else die (expect_fmt (source_code e) (cursor e) cond) e.
Proof. unfold EXPECT, bind, ret, die. destruct (f e); reflexivity. Qed.

Lemma modify_bind {B} (f : ejs -> ejs) (k : M B) (e : ejs) :
  (modify f ;; k) e = k (f e).
Proof. reflexivity. Qed.

Lemma sat_match (ch : byte) (e : ejs) :
  ok e -> ch <> NUL -> ch <> LF -> sat 1 e (match_ ch e).
Proof.
  intros He Hn Hl. unfold match_.
  eapply sat_bind with (n1 := 1) (n2 := 0); [| |lia].
  - unfold EXPECT, bind, read_and_advance, ret.
    destruct (Byte.eqb (peek e) ch) eqn:E.
    + apply Byte.byte_dec_bl in E.
      eapply returns_weaken; [|apply returns_advance]; fields; auto; try lia.
      intros j Hj. assert (j = cursor e) as -> by lia.
      fold (peek e). rewrite E. auto.
    + apply (die_dies 1 e (set_cursor e (S (cursor e)))); fields; auto.
      * unfold ok in He. lia.
      * simpl; auto.
  - intros _ e' Hr. apply spec_skip_whitespaces_and_comments. apply Hr.
Qed.

Lemma spec_match (ch : byte) : ch <> NUL -> ch <> LF -> spec 1 (match_ ch).
Proof. intros Hn Hl e He. apply sat_match; assumption. Qed.

Lemma hd_skipn (mem : list byte) (s : nat) :
  hd NUL (skipn s mem) = peek_at mem s.
Proof.
  destruct (skipn s mem) as [|c rest] eqn:E; simpl.
  - symmetry. apply skipn_nil_peek; assumption.
  - symmetry. apply (skipn_cons_peek _ _ _ _ E).
Qed.

Lemma tl_skipn (mem : list byte) (s : nat) :
  tl (skipn s mem) = skipn (S s) mem.
Proof.
  destruct (skipn s mem) as [|c rest] eqn:E; cbn [tl].
  - symmetry. apply skipn_all2. apply (f_equal (@List.length byte)) in E.
    rewrite length_skipn in E. simpl in E. lia.
  - symmetry. apply (skipn_cons_peek _ _ _ _ E).
Qed.

Lemma memcmp_eq_peek (mem kw : list byte) (s n : nat) :
  memcmp_eq (skipn s mem) kw n = true ->
  forall j, j < n -> peek_at mem (s + j) = nth j kw NUL.
Proof.
  revert s kw; induction n as [|n IH]; intros s kw H j Hj; [lia|].
  simpl in H. apply andb_true_iff in H as [H1 H2].
  apply Byte.byte_dec_bl in H1. rewrite hd_skipn in H1.
  rewrite tl_skipn in H2.
  destruct j as [|j].
  - rewrite Nat.add_0_r, H1. destruct kw; reflexivity.
  - replace (s + S j) with (S s + j) by lia.
    rewrite (IH (S s) (tl kw) H2 j) by lia.
    destruct kw; simpl; [destruct j|]; reflexivity.
Qed.

Lemma spec_test_and_skip (kw : list byte) (kwlen : nat) :
  List.length kw = kwlen ->
  Forall (fun c => c <> NUL /\ c <> LF) kw ->
  spec 0 (test_and_skip kw kwlen).
Proof.
  intros Hlen Hkw e He. unfold test_and_skip.
  destruct (memcmp_eq (skipn (cursor e) (source_code e)) kw kwlen) eqn:E.
  2:{ apply returns_refl; assumption. }
  rewrite modify_bind.
  eapply sat_after with (e1 := set_cursor e (cursor e + kwlen))
                        (n1 := 0) (n2 := 0); [| |lia].
  - eapply returns_weaken; [|apply returns_advance]; fields; auto; try lia.
    intros j Hj.
    replace j with (cursor e + (j - cursor e)) by lia.
    rewrite (memcmp_eq_peek _ _ _ _ E) by lia.
    rewrite Forall_forall in Hkw. apply Hkw. apply nth_In. lia.
  - eapply (spec_bind 0 0 0); [| |lia|].
    + apply spec_skip_whitespaces_and_comments.
    + intros _. apply spec_ret.
    + eapply strlen_segment with (s := cursor e); fields; [lia|exact He|].
      intros j Hj.
      replace j with (cursor e + (j - cursor e)) by lia.
      rewrite (memcmp_eq_peek _ _ _ _ E) by lia.
      rewrite Forall_forall in Hkw. apply Hkw. apply nth_In. lia.
Qed.

Lemma is_digit_plain (c : byte) : is_digit c = true -> c <> NUL /\ c <> LF.
Proof. intros H; split; intros ->; vm_compute in H; discriminate H. Qed.

Lemma is_alpha_plain (c : byte) : is_alpha c = true -> c <> NUL /\ c <> LF.
Proof. intros H; split; intros ->; vm_compute in H; discriminate H. Qed.

Lemma ident_char_plain (c : byte) :
  is_alnum c || Byte.eqb c "_" = true -> c <> NUL /\ c <> LF.
Proof. intros H; split; intros ->; vm_compute in H; discriminate H. Qed.

Lemma ident_start_plain (c : byte) :
  is_alpha c || Byte.eqb c "_" = true -> c <> NUL /\ c <> LF.
Proof. intros H; split; intros ->; vm_compute in H; discriminate H. Qed.

Lemma scan_first (p : byte -> bool) (mem : list byte) (s : nat) :
  p NUL = false -> p (peek_at mem s) = true -> S s <= scan p (skipn s mem) s.
Proof.
  intros Hnul Hp. destruct (scan_spec p mem s Hnul) as (Hle & _ & Hend).
  destruct (Nat.eq_dec (scan p (skipn s mem) s) s) as [E|]; [|lia].
  rewrite E in Hend. congruence.
Qed.

Lemma spec_parse_num : spec 1 parse_num.
Proof.
  intros e He. unfold parse_num. rewrite EXPECT_pure_bind.
  destruct (is_digit (peek e)) eqn:Hd.
  2:{ apply die_dies; auto; try (unfold ok in He; lia); simpl; auto. }
  rewrite modify_bind. unfold bind at 1. fields.
  destruct (digits_loop (skipn (cursor e) (source_code e)) (cursor e) 0%Z)
    as [s result] eqn:El.
  pose proof (digits_loop_scan (skipn (cursor e) (source_code e)) (cursor e) 0%Z)
    as Hs. rewrite El in Hs. simpl in Hs.
  destruct (scan_spec is_digit (source_code e) (cursor e) eq_refl)
    as (_ & Hseg & _).
  pose proof (scan_first is_digit (source_code e) (cursor e) eq_refl Hd) as H1.
  rewrite <- Hs in Hseg, H1.
  rewrite modify_bind.
  match goal with |- sat _ _ (_ ?e3) =>
    eapply sat_after with (e1 := e3) (n1 := 1) (n2 := 0); [| |lia] end.
  - eapply returns_weaken; [|apply returns_advance]; fields; auto; try lia.
    intros j Hj. apply is_digit_plain. apply Hseg. assumption.
  - eapply (spec_bind 0 0 0); [| |lia|].
    + apply spec_skip_whitespaces_and_comments.
    + intros _. apply spec_ret.
    + unfold ok; fields.
      eapply strlen_segment with (s := cursor e); [lia|exact He|].
      intros j Hj. apply is_digit_plain. apply Hseg. assumption.
Qed.

Lemma spec_parse_identifier : spec 1 parse_identifier.
Proof.
  intros e He. unfold parse_identifier. rewrite EXPECT_pure_bind.
  destruct (is_alpha (peek e) || Byte.eqb (peek e) "_") eqn:Hd.
  2:{ apply die_dies; auto; try (unfold ok in He; lia); simpl; auto. }
  rewrite !modify_bind. fields.
  rewrite ident_loop_scan.
  destruct (scan_spec (fun c => is_alnum c || Byte.eqb c "_")
              (source_code e) (S (cursor e)) eq_refl) as (Hle & Hseg & _).
  set (s := scan (fun c => is_alnum c || Byte.eqb c "_")
              (skipn (S (cursor e)) (source_code e)) (S (cursor e))) in *.
  assert (Hplain : forall j, cursor e <= j < s ->
            peek_at (source_code e) j <> NUL /\ peek_at (source_code e) j <> LF).
  { intros j Hj. destruct (Nat.eq_dec j (cursor e)) as [->|].
    - apply ident_start_plain. exact Hd.
    - apply ident_char_plain. apply Hseg. lia. }
  match goal with |- sat _ _ (_ ?e3) =>
    eapply sat_after with (e1 := e3) (n1 := 1) (n2 := 0); [| |lia] end.
  - eapply returns_weaken; [|apply returns_advance]; fields; auto; try lia.
  - apply spec_skip_whitespaces_and_comments.
    unfold ok; fields.
    eapply strlen_segment with (s := cursor e); [lia|exact He|].
    intros j Hj. apply Hplain. assumption.
Qed.

(** ** The productions *)

Lemma IS_true (e : ejs) (ch : byte) : IS e ch = true -> peek e = ch.
Proof. apply Byte.byte_dec_bl. Qed.

(** The body of the operator loops: [match(ejs, *ejs->cursor)] under the
    test that the byte at the cursor is one of two operators. *)
Lemma spec_op_loop (n : nat) (a b : byte) (rest : M unit) :
  a <> NUL -> a <> LF -> b <> NUL -> b <> LF ->
  spec n rest ->
  spec 0 (when (fun ejs => IS ejs a || IS ejs b)
            ((fun ejs => match_ (peek ejs) ejs) ;; rest)).
Proof.
  intros Ha Ha' Hb Hb' Hrest e He. unfold when.
  destruct (IS e a || IS e b) eqn:E; [|apply returns_refl; assumption].
  eapply sat_bind with (n1 := 1) (n2 := n); [| |lia].
  - apply orb_true_iff in E as [E|E]; apply IS_true in E;
      apply sat_match; auto; rewrite E; assumption.
  - intros _ e' Hr. apply Hrest. apply Hr.
Qed.

Ltac spec_leaf :=
  first
    [ eassumption
    | apply spec_ret
    | apply spec_out_of_fuel
    | apply spec_skip_whitespaces_and_comments
    | apply spec_parse_num
    | apply spec_parse_identifier
    | apply spec_match; discriminate
    | apply spec_test_and_skip;
        [reflexivity | repeat constructor; discriminate] ].

Ltac spec_tac :=
  lazymatch goal with
  | |- spec 1 (bind _ _) =>
      eapply (spec_bind 1 1 0); [spec_tac | intros ?; spec_tac | lia]
  | |- spec 0 (bind _ _) =>
      eapply (spec_bind 0 0 0); [spec_tac | intros ?; spec_tac | lia]
  | |- spec 0 (when (fun ejs => IS ejs _ || IS ejs _) _) =>
      eapply (spec_op_loop 0); [discriminate ..| spec_tac]
  | |- spec 0 (when _ _) => eapply (spec_when 0); spec_tac
  | |- spec _ (ifelse _ _ _) => apply spec_ifelse; spec_tac
  | |- spec 1 _ =>
      first [ spec_leaf
            | match goal with
              | |- spec _ (if ?c then _ else _) => destruct c
              end; spec_tac ]
  | |- spec 0 _ =>
      first [ spec_leaf
            | apply (spec_weaken 1 0); [lia|spec_leaf]
            | match goal with
              | |- spec _ (if ?c then _ else _) => destruct c
              end; spec_tac ]
  end.

Lemma spec_productions (fuel : nat) :
  spec 1 (parse_function_call fuel) /\
  spec 0 (call_args fuel) /\
  spec 1 (parse_factor fuel) /\
  spec 1 (parse_term fuel) /\
  spec 0 (term_loop fuel) /\
  spec 1 (parse_expression fuel) /\
  spec 0 (expr_loop fuel).
Proof.
  induction fuel as [|fuel (Hcall & Hargs & Hfactor & Hterm & Htl & Hexpr & Hel)].
  - repeat apply conj; apply spec_out_of_fuel.
  - repeat apply conj; simpl; spec_tac.
Qed.

Lemma spec_parse_expression (fuel : nat) : spec 1 (parse_expression fuel).
Proof. apply spec_productions. Qed.

Lemma spec_parse_declaration (fuel : nat) : spec 1 (parse_declaration fuel).
Proof.
  pose proof spec_parse_expression as Hexpr.
  induction fuel as [|fuel IH]; simpl.
  - apply spec_out_of_fuel.
  - specialize (Hexpr fuel). spec_tac.
Qed.

Lemma spec_parse_assignment (fuel : nat) : spec 1 (parse_assignment fuel).
Proof.
  pose proof (spec_parse_expression fuel) as Hexpr.
  unfold parse_assignment. spec_tac.
Qed.

(** The dispatch of [parse_statement], before the closing [match]. *)
Lemma spec_dispatch (fuel : nat) :
  spec 1 (is_var <- test_and_skip (list_byte_of_string "var") 3 ;;
          if negb (Z.eqb is_var 0) then parse_declaration fuel
          else ifelse (fun ejs => is_alpha (peek ejs))
                 (parse_assignment fuel)
                 (parse_expression fuel)).
Proof.
  pose proof (spec_parse_expression fuel) as Hexpr.
  pose proof (spec_parse_assignment fuel) as Hassign.
  pose proof (spec_parse_declaration fuel) as Hdecl.
  eapply (spec_bind 1 0 1); [spec_tac| |lia].
  intros a. destruct (negb (a =? 0)%Z); [assumption|]. spec_tac.
Qed.

Lemma spec_parse_statement (fuel : nat) : spec 1 (parse_statement fuel).
Proof.
  unfold parse_statement.
  eapply (spec_bind 1 1 0); [apply spec_dispatch|intros _; spec_tac|lia].
Qed.

Lemma spec_statements (fuel : nat) : spec 0 (statements fuel).
Proof.
  induction fuel as [|fuel IH]; simpl.
  - apply spec_out_of_fuel.
  - pose proof (spec_parse_statement fuel) as Hstmt. spec_tac.
Qed.

(** ** Termination *)

Lemma never_out_bind {A B} (m : M A) (k : A -> M B) :
  never_out m -> (forall a, never_out (k a)) -> never_out (bind m k).
Proof.
  intros Hm Hk e. unfold bind. specialize (Hm e).
  destruct (m e) as [a e'|e'|]; [apply Hk|discriminate|contradiction].
Qed.

Lemma never_out_ret {A} (a : A) : never_out (ret a).
Proof. intros e. discriminate. Qed.

Lemma never_out_modify (f : ejs -> ejs) : never_out (modify f).
Proof. intros e. discriminate. Qed.

Lemma never_out_die {A} (text : list byte) : never_out (@die A text).
Proof. intros e. discriminate. Qed.

Lemma never_out_skip : never_out skip_whitespaces_and_comments.
Proof.
  intros e. unfold skip_whitespaces_and_comments.
  destruct (is_space _); [|discriminate].
  destruct (skip_space_run _ _ _). discriminate.
Qed.

Lemma never_out_EXPECT (cond : M bool) (cond_text : string) :
  never_out cond -> never_out (EXPECT cond cond_text).
Proof.
  intros Hc. unfold EXPECT. apply never_out_bind; [assumption|].
  intros [|]; [apply never_out_ret|]. intros e. discriminate.
Qed.

Lemma never_out_match (ch : byte) : never_out (match_ ch).
Proof.
  unfold match_. apply never_out_bind; [|intros _; apply never_out_skip].
  apply never_out_EXPECT. apply never_out_bind; [|intros c; apply never_out_ret].
  intros e. discriminate.
Qed.

Lemma never_out_test_and_skip (kw : list byte) (kwlen : nat) :
  never_out (test_and_skip kw kwlen).
Proof.
  intros e. unfold test_and_skip. destruct (memcmp_eq _ _ _); [|discriminate].
  apply never_out_bind; [apply never_out_modify|intros _].
  apply never_out_bind; [apply never_out_skip|intros _; apply never_out_ret].
Qed.

Lemma never_out_parse_num : never_out parse_num.
Proof.
  unfold parse_num.
  apply never_out_bind; [|intros _].
  { apply never_out_EXPECT. intros e. discriminate. }
  apply never_out_bind; [apply never_out_modify|intros _].
  apply never_out_bind; [|intros result].
  { intros e. destruct (digits_loop _ _ _). discriminate. }
  apply never_out_bind; [apply never_out_modify|intros _].
  apply never_out_bind; [apply never_out_skip|intros _; apply never_out_ret].
Qed.

Lemma never_out_parse_identifier : never_out parse_identifier.
Proof.
  unfold parse_identifier.
  apply never_out_bind; [|intros _].
  { apply never_out_EXPECT. intros e. discriminate. }
  repeat (apply never_out_bind; [apply never_out_modify|intros _]).
  apply never_out_skip.
Qed.

Lemma runs_never_out {A} (r : nat) (m : M A) : never_out m -> runs r m.
Proof. intros H e _ _. apply H. Qed.

Lemma returns_remaining (n : nat) (e e' : ejs) :
  returns n e e' -> remaining e' + n <= remaining e.
Proof.
  unfold returns, remaining, ok.
  intros (Hs & _ & _ & Hc & Ho & _). rewrite Hs in *. lia.
Qed.

Lemma runs_bind {A B} (n r : nat) (m : M A) (k : A -> M B) :
  spec n m -> runs r m ->
  (forall a r', r' + n <= r -> runs r' (k a)) ->
  runs r (bind m k).
Proof.
  intros Hs Hm Hk e He Hr. unfold bind.
  specialize (Hs e He). specialize (Hm e He Hr).
  destruct (m e) as [a e'|e'|]; [|discriminate|contradiction].
  simpl in Hs. pose proof (returns_remaining _ _ _ Hs) as Hrem.
  apply (Hk a (remaining e')); [lia|apply Hs|lia].
Qed.

Lemma runs_when (r : nat) (cond : ejs -> bool) (body : M unit) :
  runs r body -> runs r (when cond body).
Proof.
  intros Hb e He Hr. unfold when. destruct (cond e); [auto|discriminate].
Qed.

Lemma runs_ifelse {A} (r : nat) (cond : ejs -> bool) (a b : M A) :
  runs r a -> runs r b -> runs r (ifelse cond a b).
Proof.
  intros Ha Hb e He Hr. unfold ifelse. destruct (cond e); auto.
Qed.

Lemma runs_op_loop (r : nat) (a b : byte) (rest : M unit) :
  a <> NUL -> a <> LF -> b <> NUL -> b <> LF ->
  (forall r', r' + 1 <= r -> runs r' rest) ->
  runs r (when (fun ejs => IS ejs a || IS ejs b)
            ((fun ejs => match_ (peek ejs) ejs) ;; rest)).
Proof.
  intros Ha Ha' Hb Hb' Hrest e He Hr. unfold when.
  destruct (IS e a || IS e b) eqn:E; [|discriminate].
  assert (Hm : sat 1 e (match_ (peek e) e)).
  { apply orb_true_iff in E as [E|E]; apply IS_true in E;
      apply sat_match; auto; rewrite E; assumption. }
  unfold bind. pose proof (never_out_match (peek e) e) as Hno.
  destruct (match_ (peek e) e) as [u e'|e'|]; [|discriminate|contradiction].
  simpl in Hm. pose proof (returns_remaining _ _ _ Hm) as Hrem.
  apply (Hrest (remaining e')); [lia|apply Hm|lia].
Qed.

Ltac never_out_tac :=
  repeat first
    [ apply never_out_match
    | apply never_out_skip
    | apply never_out_parse_num
    | apply never_out_parse_identifier
    | apply never_out_test_and_skip
    | apply never_out_ret
    | apply never_out_bind; [|intros ?] ].

Ltac runs_prim := apply runs_never_out; never_out_tac.

(** The fuel each production needs with [r] bytes ahead, given that the
    productions run on every shorter rest of the text. *)
Section Productions_run.

Variable r : nat.

Hypothesis IHcall : forall r' fuel,
  r' < r -> 3 * r' + 2 <= fuel -> runs r' (parse_function_call fuel).
Hypothesis IHargs : forall r' fuel,
  r' < r -> 3 * r' + 4 <= fuel -> runs r' (call_args fuel).
Hypothesis IHfactor : forall r' fuel,
  r' < r -> 3 * r' + 1 <= fuel -> runs r' (parse_factor fuel).
Hypothesis IHterm : forall r' fuel,
  r' < r -> 3 * r' + 2 <= fuel -> runs r' (parse_term fuel).
Hypothesis IHtl : forall r' fuel,
  r' < r -> 3 * r' + 1 <= fuel -> runs r' (term_loop fuel).
Hypothesis IHexpr : forall r' fuel,
  r' < r -> 3 * r' + 3 <= fuel -> runs r' (parse_expression fuel).
Hypothesis IHel : forall r' fuel,
  r' < r -> 3 * r' + 1 <= fuel -> runs r' (expr_loop fuel).

Lemma runs_parse_factor (fuel : nat) :
  3 * r + 1 <= fuel -> runs r (parse_factor fuel).
Proof.
  intros Hf. destruct fuel as [|f]; [lia|]. simpl.
  apply runs_ifelse; [|apply runs_ifelse].
  - eapply (runs_bind 1);
      [apply spec_match; discriminate|runs_prim|intros _ r' Hr'].
    eapply (runs_bind 1);
      [apply spec_parse_expression|apply IHexpr; lia|intros _ r'' _].
    runs_prim.
  - eapply (runs_bind 1);
      [apply spec_parse_identifier|runs_prim|intros _ r' Hr'].
    apply runs_when. apply IHcall; lia.
  - runs_prim.
Qed.

Lemma runs_term_loop (fuel : nat) :
  3 * r + 1 <= fuel -> runs r (term_loop fuel).
Proof.
  intros Hf. destruct fuel as [|f]; [lia|]. simpl.
  apply runs_op_loop; try discriminate. intros r' Hr'.
  eapply (runs_bind 1);
    [apply spec_productions|apply IHfactor; lia|intros _ r'' Hr''].
  apply IHtl; lia.
Qed.

Lemma runs_parse_term (fuel : nat) :
  3 * r + 2 <= fuel -> runs r (parse_term fuel).
Proof.
  intros Hf. destruct fuel as [|f]; [lia|]. simpl.
  eapply (runs_bind 1);
    [apply spec_productions|apply runs_parse_factor; lia|intros _ r' Hr'].
  apply IHtl; lia.
Qed.

Lemma runs_expr_loop (fuel : nat) :
  3 * r + 1 <= fuel -> runs r (expr_loop fuel).
Proof.
  intros Hf. destruct fuel as [|f]; [lia|]. simpl.
  apply runs_op_loop; try discriminate. intros r' Hr'.
  eapply (runs_bind 1);
    [apply spec_productions|apply IHterm; lia|intros _ r'' Hr''].
  apply IHel; lia.
Qed.

Lemma runs_parse_expression (fuel : nat) :
  3 * r + 3 <= fuel -> runs r (parse_expression fuel).
Proof.
  intros Hf. destruct fuel as [|f]; [lia|]. simpl.
  eapply (runs_bind 1);
    [apply spec_productions|apply runs_parse_term; lia|intros _ r' Hr'].
  apply IHel; lia.
Qed.

Lemma runs_call_args (fuel : nat) :
  3 * r + 4 <= fuel -> runs r (call_args fuel).
Proof.
  intros Hf. destruct fuel as [|f]; [lia|]. simpl.
  apply runs_when.
  eapply (runs_bind 1);
    [apply spec_parse_expression|apply runs_parse_expression; lia
    |intros _ r' Hr'].
  eapply (runs_bind 0); [| |intros _ r'' Hr''].
  - apply (spec_when 1). apply spec_match; discriminate.
  - apply runs_when. runs_prim.
  - apply IHargs; lia.
Qed.

Lemma runs_parse_function_call (fuel : nat) :
  3 * r + 2 <= fuel -> runs r (parse_function_call fuel).
Proof.
  intros Hf. destruct fuel as [|f]; [lia|]. simpl.
  eapply (runs_bind 1);
    [apply spec_match; discriminate|runs_prim|intros _ r' Hr'].
  eapply (runs_bind 0);
    [apply spec_productions|apply IHargs; lia|intros _ r'' _].
  runs_prim.
Qed.

End Productions_run.

Lemma runs_productions (r : nat) :
  (forall fuel, 3 * r + 2 <= fuel -> runs r (parse_function_call fuel)) /\
  (forall fuel, 3 * r + 4 <= fuel -> runs r (call_args fuel)) /\
  (forall fuel, 3 * r + 1 <= fuel -> runs r (parse_factor fuel)) /\
  (forall fuel, 3 * r + 2 <= fuel -> runs r (parse_term fuel)) /\
  (forall fuel, 3 * r + 1 <= fuel -> runs r (term_loop fuel)) /\
  (forall fuel, 3 * r + 3 <= fuel -> runs r (parse_expression fuel)) /\
  (forall fuel, 3 * r + 1 <= fuel -> runs r (expr_loop fuel)).
Proof.
  induction r as [r IH] using lt_wf_ind.
  assert (IHcall : forall r' fuel,
    r' < r -> 3 * r' + 2 <= fuel -> runs r' (parse_function_call fuel))
    by (intros r' fuel Hr; apply (IH r' Hr)).
  assert (IHargs : forall r' fuel,
    r' < r -> 3 * r' + 4 <= fuel -> runs r' (call_args fuel))
    by (intros r' fuel Hr; apply (IH r' Hr)).
  assert (IHfactor : forall r' fuel,
    r' < r -> 3 * r' + 1 <= fuel -> runs r' (parse_factor fuel))
    by (intros r' fuel Hr; apply (IH r' Hr)).
  assert (IHterm : forall r' fuel,
    r' < r -> 3 * r' + 2 <= fuel -> runs r' (parse_term fuel))
    by (intros r' fuel Hr; apply (IH r' Hr)).
  assert (IHtl : forall r' fuel,
    r' < r -> 3 * r' + 1 <= fuel -> runs r' (term_loop fuel))
    by (intros r' fuel Hr; apply (IH r' Hr)).
  assert (IHexpr : forall r' fuel,
    r' < r -> 3 * r' + 3 <= fuel -> runs r' (parse_expression fuel))
    by (intros r' fuel Hr; apply (IH r' Hr)).
  assert (IHel : forall r' fuel,
    r' < r -> 3 * r' + 1 <= fuel -> runs r' (expr_loop fuel))
    by (intros r' fuel Hr; apply (IH r' Hr)).
  repeat apply conj.
  - apply runs_parse_function_call; assumption.
  - apply runs_call_args; assumption.
  - apply runs_parse_factor; assumption.
  - apply runs_parse_term; assumption.
  - apply runs_term_loop; assumption.
  - apply runs_parse_expression; assumption.
  - apply runs_expr_loop; assumption.
Qed.

Lemma runs_expression (r fuel : nat) :
  3 * r + 3 <= fuel -> runs r (parse_expression fuel).
Proof. apply runs_productions. Qed.

Lemma runs_parse_declaration (r fuel : nat) :
  3 * r + 4 <= fuel -> runs r (parse_declaration fuel).
Proof.
  revert fuel; induction r as [r IH] using lt_wf_ind; intros fuel Hf.
  destruct fuel as [|f]; [lia|]. simpl.
  eapply (runs_bind 1); [apply spec_parse_identifier|runs_prim|intros _ r1 H1].
  eapply (runs_bind 1);
    [apply spec_match; discriminate|runs_prim|intros _ r2 H2].
  eapply (runs_bind 1);
    [apply spec_parse_expression|apply runs_expression; lia|intros _ r3 H3].
  eapply (runs_bind 0); [|runs_prim|intros again r4 H4].
  - apply spec_test_and_skip; [reflexivity|repeat constructor; discriminate].
  - destruct (negb (again =? 0)%Z); [apply IH; lia|runs_prim].
Qed.

Lemma runs_dispatch (r fuel : nat) :
  3 * r + 3 <= fuel ->
  3 * r + 4 <= fuel ->
  runs r (is_var <- test_and_skip (list_byte_of_string "var") 3 ;;
          if negb (Z.eqb is_var 0) then parse_declaration fuel
          else ifelse (fun ejs => is_alpha (peek ejs))
                 (parse_assignment fuel)
                 (parse_expression fuel)).
Proof.
  intros He Hd.
  eapply (runs_bind 0); [|runs_prim|intros a r' Hr'].
  - apply spec_test_and_skip; [reflexivity|repeat constructor; discriminate].
  - destruct (negb (a =? 0)%Z).
    + apply runs_parse_declaration; lia.
    + apply runs_ifelse; [|apply runs_expression; lia].
      unfold parse_assignment.
      eapply (runs_bind 1);
        [apply spec_parse_identifier|runs_prim|intros _ r1 H1].
      eapply (runs_bind 1);
        [apply spec_match; discriminate|runs_prim|intros _ r2 H2].
      apply runs_expression; lia.
Qed.

Lemma runs_parse_statement (r fuel : nat) :
  3 * r + 4 <= fuel -> runs r (parse_statement fuel).
Proof.
  intros Hf. unfold parse_statement.
  eapply (runs_bind 1);
    [apply spec_dispatch|apply runs_dispatch; lia|intros _ r' _; runs_prim].
Qed.

Lemma runs_statements (r fuel : nat) :
  3 * r + 5 <= fuel -> runs r (statements fuel).
Proof.
  revert fuel; induction r as [r IH] using lt_wf_ind; intros fuel Hf.
  destruct fuel as [|f]; [lia|]. simpl.
  apply runs_when.
  eapply (runs_bind 1);
    [apply spec_parse_statement|apply runs_parse_statement; lia
    |intros _ r' Hr'].
  apply IH; lia.
Qed.

(** ** The driver *)

Lemma ok_set_source (vm : ejs) (src : list byte) : ok (set_source vm src).
Proof. unfold ok; fields. lia. Qed.

Lemma spec_exec_body (fuel : nat) :
  spec 0 (skip_whitespaces_and_comments ;; statements fuel).
Proof.
  pose proof (spec_statements fuel) as Hs. spec_tac.
Qed.

Lemma runs_exec_body (r fuel : nat) :
  3 * r + 5 <= fuel ->
  runs r (skip_whitespaces_and_comments ;; statements fuel).
Proof.
  intros Hf.
  eapply (runs_bind 0);
    [apply spec_skip_whitespaces_and_comments|runs_prim|intros _ r' Hr'].
  apply runs_statements; lia.
Qed.

(** What a call of [ejs_exec] that returned did to the instance. *)
Lemma ejs_exec_fuel_cases (fuel : nat) (vm : ejs) (src : list byte)
      (r : Z) (vm' : ejs) :
  ejs_exec_fuel fuel vm src = Some (r, vm') ->
  (r = 1%Z /\ returns 0 (set_source vm src) vm') \/
  (r = 0%Z /\ dies (set_source vm src) vm').
Proof.
  unfold ejs_exec_fuel. intros H.
  pose proof (spec_exec_body fuel (set_source vm src) (ok_set_source vm src))
    as Hsat.
  destruct ((skip_whitespaces_and_comments ;; statements fuel)
              (set_source vm src)) as [u e'|e'|]; inversion H; subst; auto.
Qed.

Lemma ejs_exec_fuel_enough (fuel : nat) (vm : ejs) (src : list byte) :
  enough_fuel src <= fuel ->
  exists r vm', ejs_exec_fuel fuel vm src = Some (r, vm') /\
                (r = 1%Z \/ r = 0%Z).
Proof.
  unfold enough_fuel, ejs_exec_fuel. intros Hf.
  pose proof (runs_exec_body (strlen src) fuel Hf (set_source vm src)
                (ok_set_source vm src)) as Hruns.
  destruct ((skip_whitespaces_and_comments ;; statements fuel)
              (set_source vm src)) as [u e'|e'|].
  - eauto.
  - eauto.
  - elim Hruns; [|reflexivity]. unfold remaining; fields. lia.
Qed.

Lemma ejs_exec_cases (vm : ejs) (src : list byte) (r : Z) (vm' : ejs) :
  ejs_exec vm src = Some (r, vm') ->
  (r = 1%Z /\ returns 0 (set_source vm src) vm') \/
  (r = 0%Z /\ dies (set_source vm src) vm').
Proof. apply ejs_exec_fuel_cases. Qed.

(** ** More fuel does not change a result *)

Lemma refines_refl {A} (m : M A) : refines m m.
Proof. intros e _. reflexivity. Qed.

Lemma refines_out {A} (m : M A) : refines out_of_fuel m.
Proof. intros e H. elim H. reflexivity. Qed.

Lemma refines_bind {A B} (m m' : M A) (k k' : A -> M B) :
  refines m m' -> (forall a, refines (k a) (k' a)) ->
  refines (bind m k) (bind m' k').
Proof.
  intros Hm Hk e. unfold bind. specialize (Hm e).
  destruct (m e) as [a e1|e1|]; intros H.
  - rewrite Hm by discriminate. apply Hk. assumption.
  - rewrite Hm by discriminate. reflexivity.
  - elim H. reflexivity.
Qed.

Lemma refines_when (cond : ejs -> bool) (m m' : M unit) :
  refines m m' -> refines (when cond m) (when cond m').
Proof.
  intros Hm e. unfold when. destruct (cond e); [apply Hm|reflexivity].
Qed.

Lemma refines_ifelse {A} (cond : ejs -> bool) (a a' b b' : M A) :
  refines a a' -> refines b b' -> refines (ifelse cond a b) (ifelse cond a' b').
Proof.
  intros Ha Hb e. unfold ifelse. destruct (cond e); [apply Ha|apply Hb].
Qed.

Ltac refines_tac :=
  repeat first
    [ eassumption
    | apply refines_bind; [|intros ?]
    | apply refines_when
    | apply refines_ifelse
    | apply refines_refl
    | match goal with
      | |- refines (if ?c then _ else _) _ => destruct c
      end ].

Lemma refines_productions (fuel : nat) :
  forall fuel', fuel <= fuel' ->
    refines (parse_function_call fuel) (parse_function_call fuel') /\
    refines (call_args fuel) (call_args fuel') /\
    refines (parse_factor fuel) (parse_factor fuel') /\
    refines (parse_term fuel) (parse_term fuel') /\
    refines (term_loop fuel) (term_loop fuel') /\
    refines (parse_expression fuel) (parse_expression fuel') /\
    refines (expr_loop fuel) (expr_loop fuel').
Proof.
  induction fuel as [|fuel IH]; intros fuel' Hle.
  - repeat apply conj; apply refines_out.
  - destruct fuel' as [|fuel']; [lia|].
    destruct (IH fuel' ltac:(lia))
      as (Hcall & Hargs & Hfactor & Hterm & Htl & Hexpr & Hel).
    repeat apply conj; simpl; refines_tac.
Qed.

Lemma refines_parse_declaration (fuel fuel' : nat) :
  fuel <= fuel' ->
  refines (parse_declaration fuel) (parse_declaration fuel').
Proof.
  revert fuel'; induction fuel as [|fuel IH]; intros fuel' Hle.
  - apply refines_out.
  - destruct fuel' as [|fuel']; [lia|]. simpl.
    destruct (refines_productions fuel fuel' ltac:(lia))
      as (_ & _ & _ & _ & _ & Hexpr & _).
    pose proof (IH fuel' ltac:(lia)) as Hdecl.
    refines_tac.
Qed.

Lemma refines_parse_statement (fuel fuel' : nat) :
  fuel <= fuel' ->
  refines (parse_statement fuel) (parse_statement fuel').
Proof.
  intros Hle.
  destruct (refines_productions fuel fuel' Hle)
    as (_ & _ & _ & _ & _ & Hexpr & _).
  pose proof (refines_parse_declaration fuel fuel' Hle) as Hdecl.
  unfold parse_statement, parse_assignment. refines_tac.
Qed.

Lemma refines_statements (fuel fuel' : nat) :
  fuel <= fuel' -> refines (statements fuel) (statements fuel').
Proof.
  revert fuel'; induction fuel as [|fuel IH]; intros fuel' Hle.
  - apply refines_out.
  - destruct fuel' as [|fuel']; [lia|]. simpl.
    pose proof (refines_parse_statement fuel fuel' ltac:(lia)) as Hstmt.
    pose proof (IH fuel' ltac:(lia)) as Hrest.
    refines_tac.
Qed.

(** The result of [ejs_exec] is the result with any larger fuel. *)
Lemma ejs_exec_fuel_stable (fuel : nat) (vm : ejs) (src : list byte) :
  enough_fuel src <= fuel ->
  ejs_exec_fuel fuel vm src = ejs_exec vm src.
Proof.
  intros Hle. unfold ejs_exec.
  destruct (ejs_exec_fuel_enough (enough_fuel src) vm src (Nat.le_refl _))
    as (r & vm' & Hr & _).
  unfold ejs_exec_fuel in *.
  assert (Href : refines
            (skip_whitespaces_and_comments ;; statements (enough_fuel src))
            (skip_whitespaces_and_comments ;; statements fuel)).
  { apply refines_bind; [apply refines_refl|intros _].
    apply refines_statements; assumption. }
  rewrite (Href (set_source vm src)); [reflexivity|].
  intros E. rewrite E in Hr. discriminate.
Qed.

(** ** Observing a call *)

(** Reading a call off its report. *)
Lemma report_failure (vm : ejs) (src : list byte) (c : nat) (m : list byte) :
  report (ejs_exec vm src) = Some (0%Z, c, m) ->
  exists vm',
    ejs_exec vm src = Some (0%Z, vm') /\ cursor vm' = c /\
    c_str (error_msg vm') = m.
Proof.
  destruct (ejs_exec vm src) as [[r vm']|]; simpl; [|discriminate].
  intros H. injection H as Hr Hc Hm. subst r. simpl in Hm.
  exists vm'. auto.
Qed.

Lemma report_success (vm : ejs) (src : list byte) (c : nat) :
  report (ejs_exec vm src) = Some (1%Z, c, []) ->
  exists vm', ejs_exec vm src = Some (1%Z, vm') /\ cursor vm' = c.
Proof.
  destruct (ejs_exec vm src) as [[r vm']|]; simpl; [|discriminate].
  intros H. injection H as Hr Hc Hm. subst r.
  exists vm'. auto.
Qed.

(** ** The line counter *)

Lemma int_wrap_small (z : Z) :
  (INT_MIN <= z <= INT_MAX)%Z -> int_wrap z = z.
Proof.
  unfold int_wrap, INT_MIN, INT_MAX. intros H.
  rewrite Z.mod_small by lia. lia.
Qed.

Lemma int_wrap_congruent (a : Z) :
  exists q, int_wrap a = (a + q * 4294967296)%Z.
Proof.
  unfold int_wrap. exists (- ((a + 2147483648) / 4294967296))%Z.
  pose proof (Z.div_mod (a + 2147483648) 4294967296 ltac:(lia)). lia.
Qed.

Lemma int_wrap_shift (a q : Z) :
  int_wrap (a + q * 4294967296) = int_wrap a.
Proof.
  unfold int_wrap.
  replace (a + q * 4294967296 + 2147483648)%Z
    with (a + 2147483648 + q * 4294967296)%Z by lia.
  rewrite Z.mod_add by lia. reflexivity.
Qed.




Lemma iter_int_incr (k : nat) (a : Z) :
  (INT_MIN <= a)%Z -> (a + Z.of_nat k <= INT_MAX)%Z ->
  Nat.iter k int_incr a = (a + Z.of_nat k)%Z.
Proof.
  induction k as [|k IH]; intros Hlo Hhi; simpl Nat.iter.
  - lia.
  - rewrite IH by lia. unfold int_incr.
    rewrite int_wrap_small by lia. lia.
Qed.

(** ** The skipper, twice *)

Lemma set_cursor_same (e : ejs) : set_cursor e (cursor e) = e.
Proof. destruct e; reflexivity. Qed.


(** With no whitespace at the cursor the skipper changes nothing. *)
Lemma skip_nothing (e : ejs) :
  is_space (peek e) = false -> skip_whitespaces_and_comments e = Ret tt e.
Proof.
  intros Hsp. unfold skip_whitespaces_and_comments. unfold peek in Hsp.
  rewrite Hsp, set_cursor_same. reflexivity.
Qed.


(** ** Where the cursor ends *)

(** The cursor after a call: inside the text when the call returned 1,
    at most one past its terminator when it returned 0, and never before
    the start. *)
Lemma cursor_bounds (vm : ejs) (src : list byte) (r : Z) (vm' : ejs) :
  ejs_exec vm src = Some (r, vm') ->
  (r = 1%Z -> cursor vm' <= strlen src) /\
  (r = 0%Z -> cursor vm' <= S (strlen src)).
Proof.
  intros H. apply ejs_exec_cases in H as [[Hr H]|[Hr H]]; subst r.
  - destruct H as (Hs & _ & _ & _ & Hok & _). unfold ok in Hok.
    rewrite Hs in Hok. fields. split; [auto|discriminate].
  - destruct H as (Hs & _ & _ & Hb & _). rewrite Hs in Hb. fields.
    split; [discriminate|auto].
Qed.

(** ** Texts that no production can start on *)

Lemma parse_factor_rejects (fuel : nat) (e : ejs) :
  IS e "(" = false -> is_alpha (peek e) = false ->
  is_digit (peek e) = false ->
  parse_factor (S fuel) e = rejected e.
Proof.
  intros Hp Ha Hd. simpl. unfold ifelse. rewrite Hp, Ha.
  unfold parse_num. unfold bind at 1. rewrite EXPECT_pure_bind, Hd.
  reflexivity.
Qed.

Lemma parse_expression_rejects (fuel : nat) (e : ejs) :
  IS e "(" = false -> is_alpha (peek e) = false ->
  is_digit (peek e) = false ->
  parse_expression (S (S (S fuel))) e = rejected e.
Proof.
  intros Hp Ha Hd.
  change (parse_expression (S (S (S fuel))) e)
    with (bind (bind (parse_factor (S fuel)) (fun _ => term_loop (S fuel)))
               (fun _ => expr_loop (S (S fuel))) e).
  unfold bind. rewrite parse_factor_rejects by assumption. reflexivity.
Qed.

Lemma is_alpha_false_not_v (c : byte) :
  is_alpha c = false -> Byte.eqb c "v" = false.
Proof.
  intros H. destruct (Byte.eqb c "v") eqn:E; [|reflexivity].
  apply Byte.byte_dec_bl in E. subst c. discriminate H.
Qed.

Lemma parse_statement_rejects (fuel : nat) (e : ejs) :
  IS e "(" = false -> is_alpha (peek e) = false ->
  is_digit (peek e) = false ->
  parse_statement (S (S (S fuel))) e = rejected e.
Proof.
  intros Hp Ha Hd. unfold parse_statement, test_and_skip.
  unfold bind at 1. unfold bind at 1.
  assert (Hm : memcmp_eq (skipn (cursor e) (source_code e))
                 (list_byte_of_string "var") 3 = false).
  { cbn [memcmp_eq]. rewrite hd_skipn. fold (peek e).
    change (hd NUL (list_byte_of_string "var")) with "v"%byte.
    rewrite (is_alpha_false_not_v _ Ha). reflexivity. }
  rewrite Hm. cbn [Z.eqb negb]. unfold ifelse. rewrite Ha.
  rewrite parse_expression_rejects by assumption. reflexivity.
Qed.

Lemma die_buffer (buf text : list byte) :
  List.length text <= 58 -> ~ In NUL text ->
  c_str (store (vsnprintf buf ERROR_MSG_SIZE text) (ERROR_MSG_SIZE - 1) NUL)
  = text.
Proof.
  intros Hlen Hno.
  assert (Hv : vsnprintf buf ERROR_MSG_SIZE text =
               text ++ NUL :: skipn (S (List.length text)) buf).
  { unfold vsnprintf, ERROR_MSG_SIZE. rewrite firstn_all2 by lia. reflexivity. }
  rewrite Hv, store_beyond by (unfold ERROR_MSG_SIZE; lia).
  apply c_str_terminated. exact Hno.
Qed.

(** A text whose first byte is not the terminator, not whitespace, not a
    letter, not a digit and not ["("] is rejected at offset 0. *)
Lemma first_byte_rejected (vm : ejs) (c : byte) (rest : list byte) :
  c <> NUL -> is_space c = false -> is_alpha c = false ->
  is_digit c = false -> c <> "("%byte ->
  exists vm',
    ejs_exec vm (c :: rest) = Some (0%Z, vm') /\
    cursor vm' = 0 /\
    c_str (error_msg vm') =
      expect_fmt (c :: rest) 0 "is_digit(ejs->cursor)".
Proof.
  intros Hnul Hsp Ha Hd Hparen.
  assert (Hfuel : exists f, enough_fuel (c :: rest) = S (S (S (S f)))).
  { unfold enough_fuel. exists (3 * strlen (c :: rest) + 1). lia. }
  destruct Hfuel as [f Hfuel].
  unfold ejs_exec, ejs_exec_fuel. rewrite Hfuel.
  set (e := set_source vm (c :: rest)).
  assert (Hpeek : peek e = c) by reflexivity.
  assert (Hskip : skip_whitespaces_and_comments e = Ret tt e).
  { apply skip_nothing. rewrite Hpeek. exact Hsp. }
  unfold bind at 1. rewrite Hskip.
  assert (Hnot : IS e NUL = false).
  { unfold IS. rewrite Hpeek. destruct (Byte.eqb c NUL) eqn:E; [|reflexivity].
    apply Byte.byte_dec_bl in E. contradiction. }
  assert (Hp : IS e "(" = false).
  { unfold IS. rewrite Hpeek. destruct (Byte.eqb c "(") eqn:E; [|reflexivity].
    apply Byte.byte_dec_bl in E. contradiction. }
  change (statements (S (S (S (S f)))) e)
    with (when (fun ejs => negb (IS ejs NUL))
            (parse_statement (S (S (S f))) ;; statements (S (S (S f)))) e).
  unfold when. rewrite Hnot. cbn [negb]. unfold bind at 1.
  rewrite parse_statement_rejects by (rewrite ?Hpeek; assumption).
  unfold rejected, die.
  eexists. split; [reflexivity|]. split; [reflexivity|]. fields.
  apply die_buffer.
  - apply (expect_fmt_length (c :: rest) 0 "is_digit(ejs->cursor)").
    simpl; auto.
  - apply expect_fmt_no_NUL. simpl; auto.
Qed.

(** ** Deriving texts in the grammar *)

Lemma lexeme_exact (t : list byte) : Grammar.lexeme t t.
Proof. exists []. split; [constructor|]. rewrite app_nil_r. reflexivity. Qed.

Lemma lexeme_space (t : list byte) : Grammar.lexeme t (t ++ [SPACE]).
Proof. exists [SPACE]. split; [|reflexivity]. repeat constructor. Qed.

(** ** The claims *)

(** C1, on the failing input ["_a = 1;"]: the text is a program of the
    grammar of the specification, and [ejs_exec] returns 0 on it, as it
    does on every text that starts with an underscore: the dispatch of
    [parse_statement] and [parse_factor] tests [is_alpha] only, so the
    underscore is sent to [parse_num].  Behind ["var"], where
    [parse_identifier] is called without that test, the same identifier
    is accepted. *)
Theorem underscore_statement_rejected (vm : ejs) :
  Grammar.program (text "_a = 1;") /\
  (exists vm',
     ejs_exec vm (text "_a = 1;") = Some (0%Z, vm') /\
     c_str (error_msg vm') = text "[_a = 1;]: is_digit(ejs->cursor)") /\
  (forall rest, exists vm',
     ejs_exec vm ("_"%byte :: rest) = Some (0%Z, vm') /\ cursor vm' = 0) /\
  (exists vm', ejs_exec vm (text "var _a = 1;") = Some (1%Z, vm')).
Proof.
  repeat apply conj.
  - change (text "_a = 1;")
      with ((((text "_a" ++ [SPACE]) ++ (text "=" ++ [SPACE]) ++
              ((text "1" ++ []) ++ [])) ++ text ";") ++ []).
    apply Grammar.program_statement; [|apply Grammar.program_none].
    apply Grammar.statement_assignment; [|apply lexeme_exact].
    apply Grammar.assignment_intro.
    + exists (text "_a"). split; [|apply lexeme_space].
      constructor; [right; reflexivity|].
      repeat constructor.
    + apply lexeme_space.
    + apply Grammar.expression_intro; [|apply Grammar.more_terms_none].
      apply Grammar.term_intro; [|apply Grammar.more_factors_none].
      apply Grammar.factor_number.
      exists (text "1"). split; [|apply lexeme_exact].
      repeat constructor.
  - destruct (report_failure vm (text "_a = 1;") 0
                (text "[_a = 1;]: is_digit(ejs->cursor)"))
      as (vm' & Hr & _ & Hm); [vm_compute; reflexivity|].
    exists vm'. auto.
  - intros rest.
    destruct (first_byte_rejected vm "_" rest)
      as (vm' & Hr & Hc & _); try reflexivity; try discriminate.
    exists vm'. auto.
  - destruct (report_success vm (text "var _a = 1;") 11)
      as (vm' & Hr & _); [vm_compute; reflexivity|].
    exists vm'. exact Hr.
Qed.

(** C2: whenever [ejs_exec] returns 0, the error message buffer holds a
    non-empty string of at most 99 bytes with its terminator in the
    buffer, and the string is the diagnostic of the failure of this call
    alone: the bracketed snippet at the final cursor and the text of the
    failed condition, with nothing of an earlier message. *)
Theorem failure_leaves_diagnostic (vm : ejs) (src : list byte) (vm' : ejs) :
  ejs_exec vm src = Some (0%Z, vm') ->
  let msg := c_str (error_msg vm') in
  msg <> [] /\
  List.length msg <= 99 /\
  nth_error (error_msg vm') (List.length msg) = Some NUL /\
  (exists cond, In cond expect_texts /\
                msg = expect_fmt src (cursor vm') cond) /\
  (List.length (error_msg vm) = ERROR_MSG_SIZE ->
   List.length (error_msg vm') = ERROR_MSG_SIZE).
Proof.
  intros H. apply ejs_exec_cases in H as [[H _]|[_ H]]; [discriminate|].
  destruct H as (Hs & _ & _ & _ & _ & (cond & rest & Hin & Hm) & Hlen).
  fields. rewrite Hs in Hm.
  pose proof (expect_fmt_length src (cursor vm') cond Hin) as Hl.
  pose proof (expect_fmt_no_NUL src (cursor vm') cond Hin) as Hn.
  assert (Hmsg : c_str (error_msg vm') = expect_fmt src (cursor vm') cond).
  { rewrite Hm. apply c_str_terminated. assumption. }
  cbv zeta. rewrite Hmsg. repeat apply conj.
  - intros E. rewrite E in Hl. simpl in Hl. lia.
  - lia.
  - rewrite Hm, nth_error_app2, Nat.sub_diag by lia. reflexivity.
  - exists cond. auto.
  - exact Hlen.
Qed.

(** On ["var x = ;"] the expression after ["="] is missing: the call
    fails in [parse_num] and leaves its diagnostic. *)
Lemma failure_leaves_diagnostic_witness :
  exists vm',
    ejs_exec ejs_create (text "var x = ;") = Some (0%Z, vm') /\
    c_str (error_msg vm') = text "[;]: is_digit(ejs->cursor)" /\
    c_str (error_msg vm') <> [] /\
    List.length (c_str (error_msg vm')) <= 99 /\
    nth_error (error_msg vm') (List.length (c_str (error_msg vm'))) = Some NUL.
Proof.
  eexists. split; [vm_compute; reflexivity|].
  split; [vm_compute; reflexivity|].
  match goal with
  | |- c_str (error_msg ?v) <> [] /\ _ =>
      destruct (failure_leaves_diagnostic ejs_create (text "var x = ;") v)
        as (H1 & H2 & H3 & _)
  end.
  - vm_compute. reflexivity.
  - auto.
Defined.

(** C3, on failing inputs: a comment at the very start of the text is not
    skipped, so the text of the specification's scenario is rejected at
    offset 0, as is every text that starts with ["/"]; and a comment
    behind a statement is accepted when the text ends with it but
    rejected when a newline ends it, while the same statement followed by
    the newline alone is accepted. *)
Theorem leading_comment_rejected (vm : ejs) :
  (exists vm',
     ejs_exec vm (text "// just a comment" ++ [LF]) = Some (0%Z, vm') /\
     cursor vm' = 0 /\
     c_str (error_msg vm') = text "[// just a ]: is_digit(ejs->cursor)") /\
  (forall rest, exists vm',
     ejs_exec vm ("/"%byte :: rest) = Some (0%Z, vm') /\ cursor vm' = 0) /\
  (exists vm', ejs_exec vm (text "1; // c") = Some (1%Z, vm')) /\
  (exists vm', ejs_exec vm (text "1; // c" ++ [LF]) = Some (0%Z, vm')) /\
  (exists vm', ejs_exec vm (text "1;" ++ [LF]) = Some (1%Z, vm')).
Proof.
  repeat apply conj.
  - apply report_failure. vm_compute. reflexivity.
  - intros rest.
    destruct (first_byte_rejected vm "/" rest)
      as (vm' & Hr & Hc & _); try reflexivity; try discriminate.
    exists vm'. auto.
  - destruct (report_success vm (text "1; // c") 7)
      as (vm' & Hr & _); [vm_compute; reflexivity|].
    exists vm'. exact Hr.
  - destruct (report_failure vm (text "1; // c" ++ [LF]) 7
                (text "[" ++ [LF] ++ text "]: is_digit(ejs->cursor)"))
      as (vm' & Hr & _); [vm_compute; reflexivity|].
    exists vm'. exact Hr.
  - destruct (report_success vm (text "1;" ++ [LF]) 3)
      as (vm' & Hr & _); [vm_compute; reflexivity|].
    exists vm'. exact Hr.
Qed.

(** C4, as the code has it: [ejs_exec] does not reset the line counter.
    It is 0 on a fresh instance, and a call increments the value the
    instance came with once for each newline the whitespace skipper went
    over: [k] times, where [k] is at most the number of newlines between
    the start of the text and the final cursor, and exactly that number
    when the call returns 1.  Short of an overflow of the [int], the
    counter after the call is the counter before it plus [k], so it never
    decreases. *)
Theorem line_counter_continues (vm : ejs) (src : list byte) (r : Z)
        (vm' : ejs) :
  ejs_exec vm src = Some (r, vm') ->
  line_no ejs_create = 0%Z /\
  exists k,
    k + newlines_from src (cursor vm') <= newlines_from src 0 /\
    (r = 1%Z -> k + newlines_from src (cursor vm') = newlines_from src 0) /\
    line_no vm' = Nat.iter k int_incr (line_no vm) /\
    ((INT_MIN <= line_no vm)%Z ->
     (line_no vm + Z.of_nat (newlines_from src 0) <= INT_MAX)%Z ->
     line_no vm' = (line_no vm + Z.of_nat k)%Z /\
     (line_no vm <= line_no vm')%Z).
Proof.
  intros H. split; [reflexivity|].
  apply ejs_exec_cases in H as [[Hr H]|[Hr H]].
  - destruct H as (Hs & _ & _ & _ & _ & Hnl & Hline).
    unfold nl in *. rewrite Hs in *. fields.
    exists (newlines_from src 0 - newlines_from src (cursor vm')).
    repeat apply conj; try lia; try assumption.
    intros Hlo Hhi. rewrite Hline, iter_int_incr by lia. lia.
  - destruct H as (Hs & _ & _ & _ & (k & Hk & Hline) & _).
    unfold nl in *. rewrite Hs in *. fields.
    exists k. repeat apply conj; try lia; try assumption.
    intros Hlo Hhi. rewrite Hline, iter_int_incr by lia. lia.
Qed.

(** Two calls on one instance, over one and over two newlines: the
    counter goes from 0 to 1 and from 1 to 3. *)
Lemma line_counter_continues_witness :
  exists vm1 vm2,
    ejs_exec ejs_create [LF] = Some (1%Z, vm1) /\
    ejs_exec vm1 [LF; LF] = Some (1%Z, vm2) /\
    line_no vm1 = 1%Z /\
    line_no vm2 = 3%Z /\
    (line_no vm1 <= line_no vm2)%Z.
Proof.
  eexists. eexists.
  split; [vm_compute; reflexivity|].
  split; [vm_compute; reflexivity|].
  split; [reflexivity|]. split; [reflexivity|].
  match goal with
  | |- (line_no ?v1 <= line_no ?v2)%Z =>
      destruct (line_counter_continues v1 [LF; LF] 1%Z v2)
        as (_ & k & _ & _ & _ & Hmono)
  end.
  - vm_compute. reflexivity.
  - apply Hmono; vm_compute; discriminate.
Defined.

(** C4 as the specification states it fails: a fresh instance has the
    counter at 0, a call on the empty text leaves it at 0, and a later call
    starts from what the earlier one left, here 1, and ends at 2. *)
Lemma line_counter_not_reset :
  line_no ejs_create = 0%Z /\
  exists vm0 vm1 vm2,
    ejs_exec ejs_create [] = Some (1%Z, vm0) /\ line_no vm0 = 0%Z /\
    ejs_exec vm0 [LF] = Some (1%Z, vm1) /\ line_no vm1 = 1%Z /\
    ejs_exec vm1 [LF] = Some (1%Z, vm2) /\ line_no vm2 = 2%Z /\
    line_no vm0 <> 1%Z /\ line_no vm2 <> line_no vm1.
Proof.
  split; [reflexivity|].
  eexists. eexists. eexists.
  repeat (split; [vm_compute; reflexivity|]).
  split; vm_compute; discriminate.
Qed.

(** C5, on the failing input ["1"]: the [match] of [";"] reads the
    terminator at offset 1, moves the cursor to offset 2 and only then
    fails, so the call ends with the cursor past the terminator of a text
    of length 1, and the snippet of the diagnostic is read from there.
    One byte past the terminator is as far as it gets, and it gets there
    on a failure only. *)
Theorem failed_match_passes_terminator (vm : ejs) :
  (exists vm',
     ejs_exec vm (text "1") = Some (0%Z, vm') /\
     strlen (text "1") = 1 /\
     cursor vm' = 2 /\
     c_str (error_msg vm') = text "[]: *ejs->cursor++ == ch") /\
  (forall src r vm',
     ejs_exec vm src = Some (r, vm') ->
     (r = 1%Z -> cursor vm' <= strlen src) /\
     (r = 0%Z -> cursor vm' <= S (strlen src))).
Proof.
  split.
  - destruct (report_failure vm (text "1") 2 (text "[]: *ejs->cursor++ == ch"))
      as (vm' & Hr & Hc & Hm); [vm_compute; reflexivity|].
    exists vm'. repeat apply conj; auto.
  - intros src r vm' H. apply (cursor_bounds vm src r vm' H).
Qed.

(** C6: [ejs_exec] on ["foo(1, 2);"] returns 0 on every instance: the
    statement starts with a letter, so it is parsed as an assignment,
    and the [match] of ["="] after the identifier fails on the ["("].
    The same call is accepted inside an expression. *)
Theorem bare_call_statement_rejected (vm : ejs) :
  (exists vm',
     ejs_exec vm (text "foo(1, 2);") = Some (0%Z, vm') /\
     c_str (error_msg vm') = text "[1, 2);]: *ejs->cursor++ == ch") /\
  (exists vm', ejs_exec vm (text "x = foo(1, 2);") = Some (1%Z, vm')).
Proof.
  split.
  - destruct (report_failure vm (text "foo(1, 2);") 4
                (text "[1, 2);]: *ejs->cursor++ == ch"))
      as (vm' & Hr & _ & Hm); [vm_compute; reflexivity|].
    exists vm'. auto.
  - destruct (report_success vm (text "x = foo(1, 2);") 14)
      as (vm' & Hr & _); [vm_compute; reflexivity|].
    exists vm'. exact Hr.
Qed.




(** C8: [ejs_exec] runs to completion on every instance and every input:
    with the fuel of [enough_fuel], and with any larger fuel, the model
    returns, the result is 1 or 0, and it does not depend on the fuel. *)
Theorem ejs_exec_terminates (vm : ejs) (src : list byte) (extra : nat) :
  exists r vm',
    ejs_exec vm src = Some (r, vm') /\
    (r = 1%Z \/ r = 0%Z) /\
    ejs_exec_fuel (enough_fuel src + extra) vm src = Some (r, vm').
Proof.
  destruct (ejs_exec_fuel_enough (enough_fuel src) vm src (Nat.le_refl _))
    as (r & vm' & Hr & Hcases).
  exists r, vm'. repeat apply conj; [exact Hr|exact Hcases|].
  rewrite ejs_exec_fuel_stable by lia. exact Hr.
Qed.

(** C9: [ejs_exec] returns and never modifies the symbol table, whatever
    the input, the result and the table it starts with. *)
Theorem symbol_table_untouched (vm : ejs) (src : list byte) :
  exists r vm',
    ejs_exec vm src = Some (r, vm') /\ symbol_table vm' = symbol_table vm.
Proof.
  destruct (ejs_exec_fuel_enough (enough_fuel src) vm src (Nat.le_refl _))
    as (r & vm' & Hr & _).
  exists r, vm'. split; [exact Hr|].
  apply ejs_exec_cases in Hr as [[_ H]|[_ H]].
  - destruct H as (_ & Ht & _). exact Ht.
  - destruct H as (_ & Ht & _). exact Ht.
Qed.

(** C10: a call of [ejs_exec] that returns 1 leaves the error message
    buffer as it found it, so the diagnostic of an earlier failed call
    can still be read after a later successful call. *)
Theorem success_keeps_error_msg (vm : ejs) (src : list byte) (vm' : ejs) :
  ejs_exec vm src = Some (1%Z, vm') -> error_msg vm' = error_msg vm.
Proof.
  intros H. apply ejs_exec_cases in H as [[_ H]|[H _]]; [|discriminate].
  destruct H as (_ & _ & Hm & _). exact Hm.
Qed.

(** A failed call and then a successful one on the same instance: the
    diagnostic of the first is still in the buffer. *)
Lemma success_keeps_error_msg_witness :
  exists vm1 vm2,
    ejs_exec ejs_create (text "var x = ;") = Some (0%Z, vm1) /\
    ejs_exec vm1 (text "var x = 10 + 20;") = Some (1%Z, vm2) /\
    error_msg vm2 = error_msg vm1 /\
    c_str (error_msg vm2) = text "[;]: is_digit(ejs->cursor)".
Proof.
  eexists. eexists.
  split; [vm_compute; reflexivity|].
  split; [vm_compute; reflexivity|].
  split; [|vm_compute; reflexivity].
  match goal with
  | |- error_msg ?v2 = error_msg ?v1 =>
      apply (success_keeps_error_msg v1 (text "var x = 10 + 20;") v2)
  end.
  vm_compute. reflexivity.
Defined.

(** ** Further properties of the code *)

(** *** The character classes *)

(** X1: The class table by ranges: the digits are ["0"] to ["9"], the letters
    are ["A"] to ["Z"] and ["a"] to ["z"] (the hexadecimal ones have class
    3, the others class 4), an alphanumeric byte is a digit or a letter,
    and every byte from 128 on has class 0.  Whitespace and the
    underscore are not alphanumeric, so both end a number, and whitespace
    ends an identifier. *)
Theorem char_class_ranges (c : byte) :
  let n := Byte.to_nat c in
  is_digit c = ((48 <=? n) && (n <=? 57)) /\
  is_alpha c = ((65 <=? n) && (n <=? 90) || (97 <=? n) && (n <=? 122)) /\
  is_alnum c = (is_digit c || is_alpha c) /\
  (if 128 <=? n then char_class c =? 0 else true) = true /\
  (if is_space c then negb (is_alnum c) else true) = true /\
  is_alnum "_" = false /\
  is_digit "_" = false.
Proof.
  destruct c; vm_compute; repeat split.
Qed.

(** *** The bounds of the diagnostic buffer *)

Lemma firstn_no_NUL (n : nat) (l : list byte) :
  ~ In NUL l -> ~ In NUL (firstn n l).
Proof. intros H Hin. apply H. eapply In_firstn. exact Hin. Qed.

Lemma store_at (a r : list byte) (x y : byte) :
  store (a ++ x :: r) (List.length a) y = a ++ y :: r.
Proof.
  induction a as [|c a IH]; simpl; [reflexivity|]. rewrite IH. reflexivity.
Qed.

Lemma nth_error_store (buf : list byte) (n : nat) (x : byte) :
  n < List.length buf -> nth_error (store buf n x) n = Some x.
Proof.
  revert n; induction buf as [|c buf IH]; intros [|n] H; simpl in *;
    try lia; [reflexivity|].
  apply IH. lia.
Qed.

(** X2: [die] with a message of any length, on an instance whose buffer has
    its 100 bytes: the buffer keeps its size, its last byte is NUL, and
    the string in it is the message cut to its first 99 bytes; nothing
    else of the instance changes. *)
Theorem die_truncates (vm : ejs) (msg : list byte) :
  ~ In NUL msg ->
  List.length (error_msg vm) = ERROR_MSG_SIZE ->
  exists vm',
    @die unit msg vm = Die vm' /\
    c_str (error_msg vm') = firstn 99 msg /\
    List.length (error_msg vm') = ERROR_MSG_SIZE /\
    nth_error (error_msg vm') 99 = Some NUL /\
    source_code vm' = source_code vm /\ cursor vm' = cursor vm /\
    line_no vm' = line_no vm /\ tok vm' = tok vm /\
    tok_len vm' = tok_len vm /\ symbol_table vm' = symbol_table vm.
Proof.
  intros Hno Hlen. unfold die. eexists. split; [reflexivity|]. fields.
  unfold vsnprintf, ERROR_MSG_SIZE in *. cbv zeta.
  change (100 - 1) with 99.
  pose proof (firstn_le_length 99 msg) as Hle.
  pose proof (firstn_no_NUL 99 msg Hno) as Hno'.
  set (t := firstn 99 msg) in *.
  set (r := skipn (S (List.length t)) (error_msg vm)).
  assert (Hbuf : List.length (t ++ NUL :: r) = 100).
  { rewrite length_app. change (List.length (NUL :: r)) with (S (List.length r)).
    unfold r. rewrite length_skipn. lia. }
  repeat apply conj; try reflexivity.
  - destruct (Nat.eq_dec (List.length t) 99) as [E|E].
    + rewrite <- E, store_at. apply c_str_terminated. exact Hno'.
    + rewrite store_beyond by lia. apply c_str_terminated. exact Hno'.
  - rewrite store_length. exact Hbuf.
  - apply nth_error_store. lia.
Qed.

(** An instance of the cut: 120 bytes come out as 99. *)
Lemma die_truncates_witness :
  exists vm',
    @die unit (repeat "a"%byte 120) ejs_create = Die vm' /\
    c_str (error_msg vm') = repeat "a"%byte 99 /\
    List.length (error_msg vm') = 100.
Proof.
  destruct (die_truncates ejs_create (repeat "a"%byte 120))
    as (vm' & Hd & Hs & Hl & _).
  - intros H. apply repeat_spec in H. discriminate H.
  - reflexivity.
  - exists vm'. repeat apply conj; [exact Hd|exact Hs|exact Hl].
Defined.

(** *** The terminals *)

Lemma scan_leading (p : byte -> bool) (l : list byte) (s : nat) :
  scan p l s = s + List.length (leading p l).
Proof.
  revert s; induction l as [|c rest IH]; intros s; simpl; [lia|].
  destruct (p c); simpl; [rewrite IH|]; lia.
Qed.

Lemma int_step (a d : Z) :
  int_add (int_mul (int_wrap a) 10) d = int_wrap (a * 10 + d).
Proof.
  unfold int_add, int_mul.
  destruct (int_wrap_congruent a) as [q Hq]. rewrite Hq.
  destruct (int_wrap_congruent ((a + q * 4294967296) * 10)) as [q' Hq'].
  rewrite Hq'.
  replace ((a + q * 4294967296) * 10 + q' * 4294967296 + d)%Z
    with (a * 10 + d + (q * 10 + q') * 4294967296)%Z by lia.
  apply int_wrap_shift.
Qed.

(** The accumulator of the digit loop is the value of the digits it went
    over, reduced to an [int]. *)
Lemma digits_loop_value (l : list byte) (s : nat) (acc : Z) :
  snd (digits_loop l s (int_wrap acc)) =
  int_wrap (decimal (leading is_digit l) acc).
Proof.
  revert s acc; induction l as [|c rest IH]; intros s acc; simpl;
    [reflexivity|].
  destruct (is_digit c); [|reflexivity].
  rewrite int_step. apply IH.
Qed.

Lemma decimal_bound (ds : list byte) (acc : Z) :
  Forall (fun c => is_digit c = true) ds ->
  (0 <= acc)%Z ->
  (0 <= decimal ds acc < (acc + 1) * 10 ^ Z.of_nat (List.length ds))%Z.
Proof.
  intros Hds. revert acc. induction Hds as [|c rest Hc Hrest IH]; intros acc Hacc.
  - simpl. lia.
  - assert (Hd : (0 <= Z.of_nat (Byte.to_nat c) - 48 <= 9)%Z).
    { destruct c; try discriminate Hc; vm_compute; split; discriminate. }
    cbn [decimal List.length].
    specialize (IH (acc * 10 + (Z.of_nat (Byte.to_nat c) - 48))%Z ltac:(lia)).
    rewrite Nat2Z.inj_succ, Z.pow_succ_r by lia.
    assert (0 < 10 ^ Z.of_nat (List.length rest))%Z by (apply Z.pow_pos_nonneg; lia).
    nia.
Qed.

Lemma leading_Forall (p : byte -> bool) (l : list byte) :
  Forall (fun c => p c = true) (leading p l).
Proof.
  induction l as [|c rest IH]; simpl; [constructor|].
  destruct (p c) eqn:E; constructor; assumption.
Qed.

(** The skipper always returns; it moves the cursor forward only and
    writes nothing but the cursor and the line counter. *)
Lemma skip_forward (e : ejs) :
  exists e',
    skip_whitespaces_and_comments e = Ret tt e' /\
    cursor e <= cursor e' /\
    source_code e' = source_code e /\ tok e' = tok e /\
    tok_len e' = tok_len e /\ symbol_table e' = symbol_table e /\
    error_msg e' = error_msg e.
Proof.
  unfold skip_whitespaces_and_comments.
  destruct (is_space (peek_at (source_code e) (cursor e))).
  2:{ eexists. split; [reflexivity|]. fields. repeat split; lia. }
  destruct (skip_space_run (skipn (cursor e) (source_code e)) (cursor e)
              (line_no e)) as [s1 line] eqn:Er.
  pose proof (skip_space_run_scan (skipn (cursor e) (source_code e))
                (cursor e) (line_no e)) as Hs1.
  rewrite Er in Hs1. cbn [fst] in Hs1.
  rewrite scan_leading in Hs1.
  eexists. split; [reflexivity|]. fields. repeat split.
  destruct (Byte.eqb (peek_at (source_code e) s1) "/" &&
            Byte.eqb (peek_at (source_code e) (S s1)) "/"); [|lia].
  rewrite skip_to_eol_scan, scan_leading. lia.
Qed.

(** X3: [parse_num] on a digit: it returns the value in base ten of the
    digits at the cursor, reduced to an [int] (the value itself for up to
    nine digits), with [tok] at the first digit and [tok_len] their
    number, and the cursor behind them.  On any other byte it dies and
    the cursor stays. *)
Theorem parse_num_value (e : ejs) :
  let ds := leading is_digit (skipn (cursor e) (source_code e)) in
  (is_digit (peek e) = true ->
   exists e',
     parse_num e = Ret (int_wrap (decimal ds 0)) e' /\
     1 <= List.length ds /\
     tok e' = cursor e /\
     tok_len e' = int_wrap (Z.of_nat (List.length ds)) /\
     cursor e + List.length ds <= cursor e' /\
     (List.length ds <= 9 -> int_wrap (decimal ds 0) = decimal ds 0)) /\
  (is_digit (peek e) = false ->
   exists e', parse_num e = Die e' /\ cursor e' = cursor e /\ tok e' = tok e).
Proof.
  cbv zeta. split; intros Hd.
  - unfold parse_num. rewrite EXPECT_pure_bind, Hd, modify_bind.
    unfold bind at 1. fields.
    pose proof (digits_loop_scan (skipn (cursor e) (source_code e))
                  (cursor e) 0%Z) as Hs.
    pose proof (digits_loop_value (skipn (cursor e) (source_code e))
                  (cursor e) 0%Z) as Hv.
    change (int_wrap 0) with 0%Z in Hv.
    destruct (digits_loop (skipn (cursor e) (source_code e)) (cursor e) 0%Z)
      as [s result] eqn:El.
    cbn [fst snd] in Hs, Hv. rewrite scan_leading in Hs.
    set (ds := leading is_digit (skipn (cursor e) (source_code e))) in *.
    rewrite modify_bind. fields. unfold bind at 1.
    match goal with |- context [skip_whitespaces_and_comments ?e3] =>
      destruct (skip_forward e3) as (e' & Hsk & Hc & _ & Ht & Htl & _)
    end.
    rewrite Hsk. unfold ret. fields.
    assert (Hlen : 1 <= List.length ds).
    { unfold ds, peek in *.
      destruct (skipn (cursor e) (source_code e)) as [|c rest] eqn:Es.
      - apply skipn_nil_peek in Es. rewrite Es in Hd. discriminate Hd.
      - apply skipn_cons_peek in Es as [Hc0 _]. rewrite Hc0 in Hd.
        simpl. rewrite Hd. simpl. lia. }
    exists e'. subst result.
    repeat apply conj; auto; try lia.
    + rewrite Htl, Hs. f_equal. lia.
    + intros H9. apply int_wrap_small.
      pose proof (decimal_bound ds 0 (leading_Forall _ _) ltac:(lia)) as Hb.
      assert ((10 ^ Z.of_nat (List.length ds) <= 10 ^ 9)%Z)
        by (apply Z.pow_le_mono_r; lia).
      unfold INT_MIN, INT_MAX. lia.
  - unfold parse_num. rewrite EXPECT_pure_bind, Hd.
    unfold die. eexists. split; [reflexivity|]. fields. auto.
Qed.

Lemma leading_stops (p : byte -> bool) (mem : list byte) (s : nat) :
  p NUL = false ->
  p (peek_at mem (s + List.length (leading p (skipn s mem)))) = false.
Proof.
  intros Hnul. rewrite <- scan_leading. apply scan_spec. exact Hnul.
Qed.

(** X4: [parse_identifier] on a letter or an underscore: it takes that byte
    and the longest run of letters, digits and underscores behind it,
    with [tok] at the first byte and [tok_len] the length of the
    identifier; the byte behind the identifier is none of these.  On any
    other byte it dies and the cursor stays. *)
Theorem parse_identifier_span (e : ejs) :
  let ident c := is_alnum c || Byte.eqb c "_" in
  let n := S (List.length (leading ident (skipn (S (cursor e)) (source_code e)))) in
  (is_alpha (peek e) || Byte.eqb (peek e) "_" = true ->
   exists e',
     parse_identifier e = Ret tt e' /\
     tok e' = cursor e /\
     tok_len e' = int_wrap (Z.of_nat n) /\
     cursor e + n <= cursor e' /\
     (forall j, cursor e <= j < cursor e + n ->
                ident (peek_at (source_code e) j) = true) /\
     ident (peek_at (source_code e) (cursor e + n)) = false) /\
  (is_alpha (peek e) || Byte.eqb (peek e) "_" = false ->
   exists e',
     parse_identifier e = Die e' /\ cursor e' = cursor e /\ tok e' = tok e).
Proof.
  cbv zeta. split; intros Hd.
  - unfold parse_identifier. rewrite EXPECT_pure_bind, Hd, !modify_bind.
    fields. rewrite ident_loop_scan, scan_leading.
    set (ident := fun c => is_alnum c || Byte.eqb c "_").
    set (k := List.length (leading ident (skipn (S (cursor e)) (source_code e)))).
    match goal with |- context [skip_whitespaces_and_comments ?e3] =>
      destruct (skip_forward e3) as (e' & Hsk & Hc & _ & Ht & Htl & _)
    end.
    rewrite Hsk. fields. exists e'.
    repeat apply conj; auto; try lia.
    + rewrite Htl. f_equal. lia.
    + intros j Hj. destruct (Nat.eq_dec j (cursor e)) as [->|Hne].
      * fold (peek e). unfold ident.
        destruct (is_alpha (peek e)) eqn:Ea.
        -- assert (Hn : is_alnum (peek e) = true);
             [|rewrite Hn; reflexivity].
           destruct (peek e); try discriminate Ea; reflexivity.
        -- cbn [orb] in Hd. rewrite Hd. apply orb_true_r.
      * destruct (scan_spec ident (source_code e) (S (cursor e)) eq_refl)
          as (_ & Hseg & _).
        apply Hseg. rewrite scan_leading. fold k. lia.
    + replace (cursor e + S k) with (S (cursor e) + k) by lia.
      apply (leading_stops ident (source_code e) (S (cursor e))). reflexivity.
  - unfold parse_identifier. rewrite EXPECT_pure_bind, Hd.
    unfold die. eexists. split; [reflexivity|]. fields. auto.
Qed.

(** *** The keyword test *)

Lemma memcmp_eq_bytes (mem kw : list byte) (s : nat) :
  memcmp_eq (skipn s mem) kw (List.length kw) = true <->
  bytes_at mem s (List.length kw) = kw.
Proof.
  revert s; induction kw as [|c kw IH]; intros s.
  - simpl. split; reflexivity.
  - cbn [List.length memcmp_eq bytes_at seq map hd tl].
    rewrite hd_skipn, tl_skipn, andb_true_iff, IH.
    unfold bytes_at. split.
    + intros [Hc Hrest]. apply Byte.byte_dec_bl in Hc. rewrite Hc, Hrest.
      reflexivity.
    + intros H. injection H as Hc Hrest. split; [|exact Hrest].
      rewrite Hc. apply Byte.byte_dec_lb. reflexivity.
Qed.

(** X5: [test_and_skip] never fails.  It returns 1 exactly when the bytes at
    the cursor are the keyword, whatever follows them (a longer word that
    starts with the keyword matches too), and then the cursor is behind
    the keyword; otherwise it returns 0 and the instance is as it was. *)
Theorem test_and_skip_prefix (kw : list byte) (e : ejs) :
  exists r e',
    test_and_skip kw (List.length kw) e = Ret r e' /\
    ((r = 1%Z /\
      bytes_at (source_code e) (cursor e) (List.length kw) = kw /\
      cursor e + List.length kw <= cursor e' /\
      source_code e' = source_code e /\ error_msg e' = error_msg e) \/
     (r = 0%Z /\
      bytes_at (source_code e) (cursor e) (List.length kw) <> kw /\
      e' = e)).
Proof.
  unfold test_and_skip.
  destruct (memcmp_eq (skipn (cursor e) (source_code e)) kw (List.length kw))
    eqn:E.
  - apply memcmp_eq_bytes in E.
    rewrite modify_bind. unfold bind at 1.
    match goal with |- context [skip_whitespaces_and_comments ?e3] =>
      destruct (skip_forward e3) as (e' & Hsk & Hc & Hs & _ & _ & _ & Hm)
    end.
    rewrite Hsk. unfold ret. fields.
    exists 1%Z, e'. split; [reflexivity|]. left. auto.
  - exists 0%Z, e. split; [reflexivity|]. right.
    repeat apply conj; auto.
    intros H. apply memcmp_eq_bytes in H. congruence.
Qed.

(** *** What an accepted text looks like *)

Lemma bind_ret_inv {A B} (m : M A) (k : A -> M B) (e e' : ejs) (b : B) :
  bind m k e = Ret b e' ->
  exists a e1, m e = Ret a e1 /\ k a e1 = Ret b e'.
Proof.
  unfold bind. destruct (m e) as [a e1|e1|]; try discriminate.
  intros H. exists a, e1. auto.
Qed.

Lemma strlen_before (mem : list byte) (j : nat) :
  j < strlen mem -> peek_at mem j <> NUL.
Proof.
  revert j; induction mem as [|c mem IH]; intros j Hj; simpl in Hj; [lia|].
  destruct (Byte.eqb c NUL) eqn:E; [lia|].
  destruct j as [|j]; unfold peek_at; simpl.
  - intros Hc. rewrite Hc in E. discriminate E.
  - apply IH. lia.
Qed.

Lemma strlen_unique (mem : list byte) (s : nat) :
  s <= strlen mem -> peek_at mem s = NUL -> s = strlen mem.
Proof.
  intros Hle Hp. destruct (Nat.eq_dec s (strlen mem)) as [|Hne]; [assumption|].
  elim (strlen_before mem s); [lia|assumption].
Qed.

Lemma c_str_peek (mem : list byte) (j : nat) :
  j < strlen mem -> In (peek_at mem j) (c_str mem).
Proof.
  revert j; induction mem as [|c mem IH]; intros j Hj; simpl in *; [lia|].
  destruct (Byte.eqb c NUL); [lia|].
  destruct j as [|j]; unfold peek_at; simpl; [left; reflexivity|].
  right. apply IH. lia.
Qed.

Lemma statements_end (fuel : nat) (e e' : ejs) :
  statements fuel e = Ret tt e' -> peek e' = NUL.
Proof.
  revert e; induction fuel as [|fuel IH]; intros e; simpl; [discriminate|].
  unfold when. destruct (IS e NUL) eqn:E; cbn [negb].
  - intros H. injection H as <-. apply IS_true. exact E.
  - intros H. apply bind_ret_inv in H as (u & e1 & _ & H). eapply IH. exact H.
Qed.

Lemma match_ret (ch : byte) (e e' : ejs) :
  match_ ch e = Ret tt e' -> peek e = ch /\ cursor e < cursor e'.
Proof.
  unfold match_. intros H. apply bind_ret_inv in H as (u & e1 & H1 & H2).
  unfold EXPECT, bind, read_and_advance, ret in H1.
  destruct (Byte.eqb (peek e) ch) eqn:E; [|discriminate H1].
  injection H1 as _ <-. apply Byte.byte_dec_bl in E. split; [exact E|].
  destruct (skip_forward (set_cursor e (S (cursor e))))
    as (e2 & Hsk & Hc & _).
  rewrite Hsk in H2. injection H2 as <-. fields. lia.
Qed.

(** X6: A call that returns 1 went through the whole text: the cursor is on
    the terminator. *)
Theorem accepted_text_consumed (vm : ejs) (src : list byte) (vm' : ejs) :
  ejs_exec vm src = Some (1%Z, vm') ->
  cursor vm' = strlen src /\ source_code vm' = src.
Proof.
  intros H. pose proof (ejs_exec_cases _ _ _ _ H) as [[_ Hr]|[Hr _]];
    [|discriminate Hr].
  destruct Hr as (Hs & _ & _ & _ & Hok & _). fields.
  unfold ejs_exec, ejs_exec_fuel in H.
  destruct ((skip_whitespaces_and_comments ;; statements (enough_fuel src))
              (set_source vm src)) as [u e'|e'|] eqn:E; try discriminate H.
  injection H as <-.
  apply bind_ret_inv in E as (u0 & e0 & _ & E). destruct u.
  apply statements_end in E. unfold ok in Hok. rewrite Hs in Hok.
  unfold peek in E. rewrite Hs in E.
  split; [|exact Hs]. apply strlen_unique; assumption.
Qed.

(** Two statements with blanks between and behind them. *)
Lemma accepted_text_consumed_witness :
  exists vm',
    ejs_exec ejs_create (text "var a = 1, b = a + 2; b = f(a) * 3 ;  ")
      = Some (1%Z, vm') /\
    cursor vm' = 38.
Proof.
  eexists. split; [vm_compute; reflexivity|].
  match goal with
  | |- cursor ?v = _ =>
      destruct (accepted_text_consumed ejs_create
                  (text "var a = 1, b = a + 2; b = f(a) * 3 ;  ") v)
        as [Hc _]
  end.
  - vm_compute. reflexivity.
  - rewrite Hc. reflexivity.
Defined.

Lemma parse_factor_first (fuel : nat) (e e' : ejs) :
  parse_factor fuel e = Ret tt e' -> expression_start (peek e).
Proof.
  destruct fuel as [|fuel]; [discriminate|]. intros H.
  destruct (IS e "(") eqn:Ep; [right; right; apply IS_true; exact Ep|].
  destruct (is_alpha (peek e)) eqn:Ea; [left; exact Ea|].
  destruct (is_digit (peek e)) eqn:Ed; [right; left; exact Ed|].
  rewrite parse_factor_rejects in H by assumption. discriminate H.
Qed.

Lemma parse_term_first (fuel : nat) (e e' : ejs) :
  parse_term fuel e = Ret tt e' -> expression_start (peek e).
Proof.
  destruct fuel as [|fuel]; [discriminate|]. simpl. intros H.
  apply bind_ret_inv in H as ([] & e1 & H & _).
  eapply parse_factor_first. exact H.
Qed.

Lemma parse_expression_first (fuel : nat) (e e' : ejs) :
  parse_expression fuel e = Ret tt e' -> expression_start (peek e).
Proof.
  destruct fuel as [|fuel]; [discriminate|]. simpl. intros H.
  apply bind_ret_inv in H as ([] & e1 & H & _).
  eapply parse_term_first. exact H.
Qed.

(** A statement that was parsed started on a byte an expression can start
    with (the ["v"] of ["var"] among them), and the statement ended with
    a [";"] inside the text. *)
Lemma parse_statement_shape (fuel : nat) (e e' : ejs) :
  ok e ->
  parse_statement fuel e = Ret tt e' ->
  expression_start (peek e) /\
  exists p, cursor e < p /\ p < cursor e' /\ p < strlen (source_code e) /\
            peek_at (source_code e) p = ";"%byte.
Proof.
  intros Hok H. unfold parse_statement in H.
  apply bind_ret_inv in H as ([] & e1 & Hd & Hm).
  pose proof (spec_dispatch fuel e Hok) as Hspec. rewrite Hd in Hspec.
  destruct Hspec as (Hs & _ & _ & Hc & Hok1 & _).
  apply match_ret in Hm as [Hp Hlt]. split.
  - apply bind_ret_inv in Hd as (r & e2 & Ht & Hrest).
    unfold test_and_skip in Ht.
    destruct (memcmp_eq (skipn (cursor e) (source_code e))
                (list_byte_of_string "var") 3) eqn:Em.
    + pose proof (memcmp_eq_peek _ _ _ _ Em 0 ltac:(lia)) as Hv.
      rewrite Nat.add_0_r in Hv. left. unfold peek. rewrite Hv. reflexivity.
    + injection Ht as <- <-. cbn [Z.eqb negb] in Hrest. unfold ifelse in Hrest.
      destruct (is_alpha (peek e)) eqn:Ea; [left; exact Ea|].
      eapply parse_expression_first. exact Hrest.
  - exists (cursor e1). unfold peek in Hp. rewrite Hs in Hp.
    repeat apply conj; try lia; [|exact Hp].
    unfold ok in Hok1. rewrite Hs in Hok1. apply strlen_lt; [exact Hok1|].
    rewrite Hp. discriminate.
Qed.

(** X7: Every factor, term, expression and statement that is parsed starts
    with a letter, a digit or ["("]: there is no signed literal, no
    string literal, and no identifier that starts with an underscore in
    these places. *)
Theorem productions_first_byte (fuel : nat) (e e' : ejs) :
  parse_factor fuel e = Ret tt e' \/
  parse_term fuel e = Ret tt e' \/
  parse_expression fuel e = Ret tt e' \/
  (ok e /\ parse_statement fuel e = Ret tt e') ->
  is_alpha (peek e) = true \/ is_digit (peek e) = true \/ peek e = "("%byte.
Proof.
  intros [H|[H|[H|[Hok H]]]].
  - eapply parse_factor_first. exact H.
  - eapply parse_term_first. exact H.
  - eapply parse_expression_first. exact H.
  - apply (parse_statement_shape fuel e e' Hok H).
Qed.

(** An expression in parentheses on a fresh instance. *)
Lemma productions_first_byte_witness :
  exists e',
    parse_expression 20 (set_source ejs_create (text "(1 + x) * 2;"))
      = Ret tt e' /\
    expression_start (peek (set_source ejs_create (text "(1 + x) * 2;"))).
Proof.
  assert (H : exists e',
             parse_expression 20 (set_source ejs_create (text "(1 + x) * 2;"))
               = Ret tt e') by (eexists; vm_compute; reflexivity).
  destruct H as [e' H]. exists e'. split; [exact H|].
  apply (productions_first_byte 20 _ e'). right. right. left. exact H.
Defined.

(** X8: A call that returns 1 either found nothing behind the leading
    whitespace, or the text has a [";"] and its first statement starts
    with a letter, a digit or ["("]. *)
Theorem accepted_program_shape (vm : ejs) (src : list byte) (vm' : ejs) :
  ejs_exec vm src = Some (1%Z, vm') ->
  skip_whitespaces_and_comments (set_source vm src) = Ret tt vm' \/
  (In ";"%byte (c_str src) /\
   exists e0,
     skip_whitespaces_and_comments (set_source vm src) = Ret tt e0 /\
     expression_start (peek e0)).
Proof.
  intros H. unfold ejs_exec, ejs_exec_fuel in H.
  destruct ((skip_whitespaces_and_comments ;; statements (enough_fuel src))
              (set_source vm src)) as [u e'|e'|] eqn:E; try discriminate H.
  injection H as <-.
  apply bind_ret_inv in E as ([] & e0 & Hsk & E).
  pose proof (spec_skip_whitespaces_and_comments _ (ok_set_source vm src))
    as Hspec.
  rewrite Hsk in Hspec. destruct Hspec as (Hs & _ & _ & _ & Hok0 & _).
  fields.
  destruct (enough_fuel src) as [|fuel]; [discriminate E|].
  simpl in E. unfold when in E.
  destruct (IS e0 NUL) eqn:En; cbn [negb] in E.
  - left. assert (e0 = e') as <- by congruence. exact Hsk.
  - right. apply bind_ret_inv in E as ([] & e1 & Hst & _).
    destruct (parse_statement_shape fuel e0 e1 Hok0 Hst)
      as (Hfirst & p & _ & _ & Hp & Hsemi).
    rewrite Hs in Hp, Hsemi. split.
    + rewrite <- Hsemi. apply c_str_peek. exact Hp.
    + exists e0. auto.
Qed.

(** On ["  x = 1;"] the second case holds. *)
Lemma accepted_program_shape_witness :
  In ";"%byte (c_str (text "  x = 1;")) /\
  exists e0,
    skip_whitespaces_and_comments (set_source ejs_create (text "  x = 1;"))
      = Ret tt e0 /\
    expression_start (peek e0).
Proof.
  destruct (accepted_program_shape ejs_create (text "  x = 1;")
              (mk_ejs (text "  x = 1;") 8 0%Z 6 1%Z [] (repeat NUL 100)))
    as [H|H].
  - vm_compute. reflexivity.
  - vm_compute in H. discriminate H.
  - exact H.
Defined.

(** *** The instance a call starts on *)

Lemma sim_peek : respects peek.
Proof. intros e1 e2 [Hs Hc]. unfold peek. rewrite Hs, Hc. reflexivity. Qed.

Lemma uniform_ret {A} (a : A) : uniform (ret a).
Proof. intros e1 e2 H. simpl. auto. Qed.

Lemma uniform_out_of_fuel {A} : uniform (@out_of_fuel A).
Proof. intros e1 e2 H. exact I. Qed.

Lemma uniform_bind {A B} (m : M A) (k : A -> M B) :
  uniform m -> (forall a, uniform (k a)) -> uniform (bind m k).
Proof.
  intros Hm Hk e1 e2 H. unfold bind. specialize (Hm e1 e2 H).
  destruct (m e1) as [a1 e1'|e1'|], (m e2) as [a2 e2'|e2'|];
    simpl in Hm; try contradiction; auto.
  destruct Hm as [<- Hm]. apply Hk. exact Hm.
Qed.

Lemma uniform_when (cond : ejs -> bool) (m : M unit) :
  respects cond -> uniform m -> uniform (when cond m).
Proof.
  intros Hc Hm e1 e2 H. unfold when. rewrite (Hc e1 e2 H).
  destruct (cond e2); [apply Hm; exact H|simpl; auto].
Qed.

Lemma uniform_ifelse {A} (cond : ejs -> bool) (a b : M A) :
  respects cond -> uniform a -> uniform b -> uniform (ifelse cond a b).
Proof.
  intros Hc Ha Hb e1 e2 H. unfold ifelse. rewrite (Hc e1 e2 H).
  destruct (cond e2); [apply Ha|apply Hb]; exact H.
Qed.

Lemma uniform_modify (f : ejs -> ejs) :
  (forall e1 e2, sim e1 e2 -> sim (f e1) (f e2)) -> uniform (modify f).
Proof. intros Hf e1 e2 H. simpl. auto. Qed.

Lemma uniform_dependent {A} (f : ejs -> byte) (m : byte -> M A) :
  respects f -> (forall c, uniform (m c)) ->
  uniform (fun ejs => m (f ejs) ejs).
Proof. intros Hf Hm e1 e2 H. rewrite (Hf e1 e2 H). apply Hm. exact H. Qed.

Lemma uniform_skip : uniform skip_whitespaces_and_comments.
Proof.
  intros e1 e2 [Hs Hc]. unfold skip_whitespaces_and_comments.
  rewrite Hs, Hc.
  destruct (is_space (peek_at (source_code e2) (cursor e2)));
    [|simpl; unfold sim; simpl; auto].
  pose proof (skip_space_run_scan (skipn (cursor e2) (source_code e2))
                (cursor e2) (line_no e1)) as H1.
  pose proof (skip_space_run_scan (skipn (cursor e2) (source_code e2))
                (cursor e2) (line_no e2)) as H2.
  destruct (skip_space_run _ _ (line_no e1)) as [s1 l1].
  destruct (skip_space_run _ _ (line_no e2)) as [s2 l2].
  simpl in H1, H2. rewrite H1, H2.
  simpl. unfold sim; simpl; auto.
Qed.

Lemma sim_die {A} (cond : string) (e1 e2 : ejs) :
  In cond expect_texts -> sim e1 e2 ->
  sim_res (@die A (expect_fmt (source_code e1) (cursor e1) cond) e1)
          (@die A (expect_fmt (source_code e2) (cursor e2) cond) e2).
Proof.
  intros Hin [Hs Hc]. unfold die. cbn [sim_res]. unfold sim. fields.
  rewrite !die_buffer
    by (first [apply expect_fmt_length|apply expect_fmt_no_NUL]; exact Hin).
  rewrite Hs, Hc. auto.
Qed.

Lemma uniform_EXPECT (cond : M bool) (cond_text : string) :
  uniform cond -> In cond_text expect_texts ->
  uniform (EXPECT cond cond_text).
Proof.
  intros Hc Hin. unfold EXPECT. apply uniform_bind; [exact Hc|].
  intros [|]; [apply uniform_ret|].
  intros e1 e2 H. apply sim_die; assumption.
Qed.

Lemma uniform_match (ch : byte) : uniform (match_ ch).
Proof.
  unfold match_. apply uniform_bind; [|intros _; apply uniform_skip].
  apply uniform_EXPECT; [|simpl; auto].
  apply uniform_bind; [|intros c; apply uniform_ret].
  intros e1 e2 H. unfold read_and_advance. simpl.
  split; [apply sim_peek; exact H|].
  destruct H as [Hs Hc]. unfold sim; simpl. rewrite Hc. auto.
Qed.

Lemma uniform_test_and_skip (kw : list byte) (kwlen : nat) :
  uniform (test_and_skip kw kwlen).
Proof.
  intros e1 e2 H. unfold test_and_skip.
  destruct H as [Hs Hc]. rewrite Hs, Hc.
  destruct (memcmp_eq _ kw kwlen); [|simpl; unfold sim; auto].
  rewrite !modify_bind.
  apply (uniform_bind skip_whitespaces_and_comments (fun _ => ret 1%Z));
    [apply uniform_skip|intros _; apply uniform_ret|].
  unfold sim; simpl. rewrite Hc. auto.
Qed.

Ltac sim_tac :=
  let e1 := fresh "e" in
  let e2 := fresh "e" in
  let Hs := fresh "Hs" in
  let Hc := fresh "Hc" in
  intros e1 e2 [Hs Hc]; unfold sim; fields; rewrite ?Hs, ?Hc; auto.

Lemma uniform_parse_num : uniform parse_num.
Proof.
  unfold parse_num.
  apply uniform_bind; [apply uniform_EXPECT; [|simpl; auto]|intros _].
  { intros e1 e2 H. cbn [sim_res]. rewrite (sim_peek e1 e2 H). auto. }
  apply uniform_bind; [apply uniform_modify; sim_tac|intros _].
  apply uniform_bind; [|intros result].
  { intros e1 e2 [Hs Hc]. rewrite Hs, Hc.
    destruct (digits_loop (skipn (cursor e2) (source_code e2)) (cursor e2) 0)
      as [s result].
    cbn [sim_res]. unfold sim. fields. auto. }
  apply uniform_bind; [apply uniform_modify; sim_tac|intros _].
  apply uniform_bind; [apply uniform_skip|intros _; apply uniform_ret].
Qed.

Lemma uniform_parse_identifier : uniform parse_identifier.
Proof.
  unfold parse_identifier.
  apply uniform_bind; [apply uniform_EXPECT; [|simpl; auto]|intros _].
  { intros e1 e2 H. cbn [sim_res]. rewrite (sim_peek e1 e2 H). auto. }
  repeat (apply uniform_bind; [apply uniform_modify; sim_tac|intros _]).
  apply uniform_skip.
Qed.

Lemma respects_IS (ch : byte) : respects (fun ejs => IS ejs ch).
Proof. intros e1 e2 H. unfold IS. rewrite (sim_peek e1 e2 H). reflexivity. Qed.

Ltac respects_tac :=
  let e1 := fresh "e" in
  let e2 := fresh "e" in
  let H := fresh "H" in
  intros e1 e2 H; unfold IS; rewrite (sim_peek e1 e2 H); reflexivity.

Ltac uniform_tac :=
  repeat first
    [ eassumption
    | apply uniform_skip
    | apply uniform_match
    | apply uniform_test_and_skip
    | apply uniform_parse_num
    | apply uniform_parse_identifier
    | apply uniform_ret
    | apply (uniform_dependent peek match_); [exact sim_peek|intros ?]
    | apply uniform_bind; [|intros ?]
    | apply uniform_when; [respects_tac|]
    | apply uniform_ifelse; [respects_tac| |]
    | match goal with
      | |- uniform (if ?c then _ else _) => destruct c
      end ].

Lemma uniform_productions (fuel : nat) :
  uniform (parse_function_call fuel) /\
  uniform (call_args fuel) /\
  uniform (parse_factor fuel) /\
  uniform (parse_term fuel) /\
  uniform (term_loop fuel) /\
  uniform (parse_expression fuel) /\
  uniform (expr_loop fuel).
Proof.
  induction fuel as [|fuel IH].
  - repeat apply conj; apply uniform_out_of_fuel.
  - destruct IH as (Hcall & Hargs & Hfactor & Hterm & Htl & Hexpr & Hel).
    repeat apply conj; simpl; uniform_tac.
Qed.

Lemma uniform_parse_declaration (fuel : nat) :
  uniform (parse_declaration fuel).
Proof.
  induction fuel as [|fuel IH]; [apply uniform_out_of_fuel|]. simpl.
  destruct (uniform_productions fuel) as (_ & _ & _ & _ & _ & Hexpr & _).
  uniform_tac.
Qed.

Lemma uniform_parse_statement (fuel : nat) : uniform (parse_statement fuel).
Proof.
  destruct (uniform_productions fuel) as (_ & _ & _ & _ & _ & Hexpr & _).
  pose proof (uniform_parse_declaration fuel) as Hdecl.
  unfold parse_statement, parse_assignment. uniform_tac.
Qed.

Lemma uniform_statements (fuel : nat) : uniform (statements fuel).
Proof.
  induction fuel as [|fuel IH]; [apply uniform_out_of_fuel|]. simpl.
  pose proof (uniform_parse_statement fuel) as Hstmt.
  uniform_tac.
Qed.

(** X9: What a call reports (the returned [int], where the cursor stopped
    and, after a failure, the diagnostic string) does not depend on the
    instance it is made on, so not on the calls made on that instance
    before: on any two instances, the same memory [src] (the text and
    the bytes behind its terminator) gives the same report.  In
    particular a reused instance reports what a fresh one does. *)
Theorem report_independent_of_instance (vm1 vm2 : ejs) (src : list byte) :
  report (ejs_exec vm1 src) = report (ejs_exec vm2 src) /\
  exists r vm1' vm2',
    ejs_exec vm1 src = Some (r, vm1') /\
    ejs_exec vm2 src = Some (r, vm2') /\
    cursor vm1' = cursor vm2' /\
    (r = 0%Z -> c_str (error_msg vm1') = c_str (error_msg vm2')).
Proof.
  assert (H : sim_res
            ((skip_whitespaces_and_comments ;; statements (enough_fuel src))
               (set_source vm1 src))
            ((skip_whitespaces_and_comments ;; statements (enough_fuel src))
               (set_source vm2 src))).
  { apply uniform_bind; [apply uniform_skip|intros _; apply uniform_statements|].
    unfold sim; simpl; auto. }
  destruct (ejs_exec_fuel_enough (enough_fuel src) vm1 src (Nat.le_refl _))
    as (r1 & vm1' & H1 & _).
  destruct (ejs_exec_fuel_enough (enough_fuel src) vm2 src (Nat.le_refl _))
    as (r2 & vm2' & H2 & _).
  unfold ejs_exec. rewrite H1, H2.
  unfold ejs_exec_fuel in H1, H2.
  destruct ((skip_whitespaces_and_comments ;; statements (enough_fuel src))
              (set_source vm1 src)) as [u1 e1|e1|];
    destruct ((skip_whitespaces_and_comments ;; statements (enough_fuel src))
                (set_source vm2 src)) as [u2 e2|e2|];
    simpl in H; try contradiction; try discriminate;
    injection H1 as <- <-; injection H2 as <- <-; simpl.
  - destruct H as (_ & _ & Hc). rewrite Hc. split; [reflexivity|].
    exists 1%Z, e1, e2. repeat split; auto. discriminate.
  - destruct H as ((_ & Hc) & Hm). rewrite Hc, Hm. split; [reflexivity|].
    exists 0%Z, e1, e2. repeat split; auto.
Qed.

(** *** Texts of whitespace and comments *)

(** The memory of a text: its bytes, then nothing or the terminator. *)
Lemma c_str_split (mem : list byte) :
  exists rest, mem = c_str mem ++ rest /\ hd NUL rest = NUL.
Proof.
  induction mem as [|c mem IH]; simpl.
  - exists []. auto.
  - destruct (Byte.eqb c NUL) eqn:E.
    + apply Byte.byte_dec_bl in E. exists (c :: mem). auto.
    + destruct IH as (rest & Hm & Hr). exists rest.
      simpl. rewrite <- Hm. auto.
Qed.

Lemma strlen_app (a rest : list byte) :
  ~ In NUL a -> strlen (a ++ rest) = List.length a + strlen rest.
Proof.
  induction a as [|c a IH]; simpl; intros H; [reflexivity|].
  destruct (Byte.eqb c NUL) eqn:E.
  - apply Byte.byte_dec_bl in E. elim H; auto.
  - rewrite IH; [reflexivity|]. intros Hin; apply H; auto.
Qed.

Lemma strlen_hd (rest : list byte) : hd NUL rest = NUL -> strlen rest = 0.
Proof. destruct rest as [|c rest]; simpl; [auto|intros ->; reflexivity]. Qed.

Lemma c_str_length (mem : list byte) : List.length (c_str mem) = strlen mem.
Proof.
  induction mem as [|c mem IH]; simpl; [reflexivity|].
  destruct (Byte.eqb c NUL); simpl; auto.
Qed.

Lemma peek_at_app (a rest : list byte) :
  peek_at (a ++ rest) (List.length a) = hd NUL rest.
Proof.
  unfold peek_at. rewrite app_nth2, Nat.sub_diag by lia.
  destruct rest; reflexivity.
Qed.

Lemma space_no_NUL (ws : list byte) :
  Forall (fun c => is_space c = true) ws -> ~ In NUL ws.
Proof.
  intros H Hin. rewrite Forall_forall in H. apply H in Hin. discriminate Hin.
Qed.

(** The whitespace loop over a run of whitespace. *)
Lemma skip_space_run_app (ws rest : list byte) (s : nat) (line : Z) :
  Forall (fun c => is_space c = true) ws ->
  is_space (hd NUL rest) = false ->
  skip_space_run (ws ++ rest) s line =
  (s + List.length ws,
   Nat.iter (count_occ Byte.byte_eq_dec ws LF) int_incr line).
Proof.
  intros Hws Hrest. revert s line.
  induction Hws as [|c ws Hc Hws IH]; intros s line.
  - simpl. rewrite Nat.add_0_r.
    destruct rest as [|c rest]; simpl in *; [reflexivity|].
    rewrite Hrest, andb_false_r. reflexivity.
  - cbn [app skip_space_run]. rewrite Hc.
    assert (Hn : Byte.eqb c NUL = false).
    { destruct (Byte.eqb c NUL) eqn:E; [|reflexivity].
      apply Byte.byte_dec_bl in E. subst c. discriminate Hc. }
    rewrite Hn. cbn [negb andb]. rewrite IH.
    cbn [List.length count_occ]. f_equal; [lia|].
    destruct (Byte.byte_eq_dec c LF) as [->|Hne].
    + change (Byte.eqb LF LF) with true. cbv iota.
      rewrite Nat.iter_succ_r. reflexivity.
    + destruct (Byte.eqb c LF) eqn:E; [|reflexivity].
      apply Byte.byte_dec_bl in E. contradiction.
Qed.

(** The comment loop over the bytes of a line. *)
Lemma skip_to_eol_app (body rest : list byte) (s : nat) :
  ~ In NUL body -> ~ In LF body ->
  hd NUL rest = NUL \/ hd NUL rest = LF ->
  skip_to_eol (body ++ rest) s = s + List.length body.
Proof.
  intros Hn Hl Hrest. revert s.
  induction body as [|c body IH]; intros s.
  - simpl. rewrite Nat.add_0_r.
    destruct rest as [|c rest]; simpl in *; [reflexivity|].
    destruct Hrest as [-> | ->]; reflexivity.
  - cbn [app skip_to_eol].
    assert (Byte.eqb c NUL = false) as ->.
    { destruct (Byte.eqb c NUL) eqn:E; [|reflexivity].
      apply Byte.byte_dec_bl in E. elim Hn. left. exact E. }
    assert (Byte.eqb c LF = false) as ->.
    { destruct (Byte.eqb c LF) eqn:E; [|reflexivity].
      apply Byte.byte_dec_bl in E. elim Hl. left. exact E. }
    cbn [negb andb]. rewrite IH.
    + simpl. lia.
    + intros H; apply Hn; right; exact H.
    + intros H; apply Hl; right; exact H.
Qed.

(** The skipper at the start of a run of whitespace that no comment
    follows. *)
Lemma skip_blank (vm : ejs) (ws rest : list byte) :
  Forall (fun c => is_space c = true) ws ->
  is_space (hd NUL rest) = false -> hd NUL rest <> "/"%byte ->
  skip_whitespaces_and_comments (set_source vm (ws ++ rest)) =
  Ret tt (skipped (set_source vm (ws ++ rest)) (List.length ws)
            (count_occ Byte.byte_eq_dec ws LF)).
Proof.
  intros Hws Hrest Hslash.
  destruct ws as [|c ws].
  - rewrite skip_nothing.
    + unfold skipped. simpl. destruct vm; reflexivity.
    + unfold peek. simpl. destruct rest; [reflexivity|exact Hrest].
  - unfold skip_whitespaces_and_comments. fields.
    change (peek_at ((c :: ws) ++ rest) 0) with c.
    rewrite (Forall_inv Hws). change (skipn 0 ((c :: ws) ++ rest))
      with ((c :: ws) ++ rest).
    rewrite skip_space_run_app by assumption.
    rewrite Nat.add_0_l, peek_at_app.
    destruct (Byte.eqb (hd NUL rest) "/") eqn:E.
    { apply Byte.byte_dec_bl in E. contradiction. }
    reflexivity.
Qed.

(** The skipper at the start of whitespace followed by a comment. *)
Lemma skip_comment (vm : ejs) (ws body rest : list byte) :
  Forall (fun c => is_space c = true) ws -> ws <> [] ->
  ~ In NUL body -> ~ In LF body ->
  hd NUL rest = NUL \/ hd NUL rest = LF ->
  let src := ws ++ "/"%byte :: "/"%byte :: body ++ rest in
  skip_whitespaces_and_comments (set_source vm src) =
  Ret tt (skipped (set_source vm src) (List.length ws + 2 + List.length body)
            (count_occ Byte.byte_eq_dec ws LF)).
Proof.
  intros Hws Hne Hn Hl Hrest src.
  destruct ws as [|c ws]; [contradiction|].
  unfold skip_whitespaces_and_comments. fields.
  change (peek_at src 0) with c.
  rewrite (Forall_inv Hws). change (skipn 0 src) with src.
  unfold src at 1. rewrite skip_space_run_app by (assumption || reflexivity).
  rewrite Nat.add_0_l.
  assert (H1 : peek_at src (List.length (c :: ws)) = "/"%byte).
  { unfold src. rewrite peek_at_app. reflexivity. }
  assert (H2 : peek_at src (S (List.length (c :: ws))) = "/"%byte).
  { unfold src.
    change (c :: ws) with ([c] ++ ws). rewrite <- app_assoc.
    change (([c] ++ ws) ++ "/"%byte :: "/"%byte :: body ++ rest)
      with ([c] ++ ws ++ "/"%byte :: "/"%byte :: body ++ rest).
    replace (ws ++ "/"%byte :: "/"%byte :: body ++ rest)
      with ((ws ++ ["/"%byte]) ++ "/"%byte :: body ++ rest)
      by (rewrite <- app_assoc; reflexivity).
    rewrite app_assoc.
    replace (S (List.length ([c] ++ ws)))
      with (List.length ([c] ++ ws ++ ["/"%byte]))
      by (rewrite !length_app; simpl; lia).
    rewrite peek_at_app. reflexivity. }
  rewrite H1, H2. cbn [Byte.eqb andb].
  change (Byte.eqb "/" "/") with true. cbv iota. cbn [andb].
  assert (Hsk : skipn (List.length (c :: ws) + 2) src = body ++ rest).
  { unfold src.
    replace ((c :: ws) ++ "/"%byte :: "/"%byte :: body ++ rest)
      with (((c :: ws) ++ ["/"%byte; "/"%byte]) ++ body ++ rest)
      by (rewrite <- app_assoc; reflexivity).
    replace (List.length (c :: ws) + 2)
      with (List.length ((c :: ws) ++ ["/"%byte; "/"%byte]))
      by (rewrite length_app; reflexivity).
    apply skipn_app_length || (rewrite skipn_app, Nat.sub_diag, skipn_all;
                               reflexivity). }
  rewrite Hsk, skip_to_eol_app by assumption.
  unfold skipped. fields. rewrite Nat.add_0_l. reflexivity.
Qed.

Lemma c_str_app_hd (a rest : list byte) :
  ~ In NUL a -> hd NUL rest = NUL -> c_str (a ++ rest) = a.
Proof.
  intros Ha Hr. destruct rest as [|c rest].
  - rewrite app_nil_r. induction a as [|c a IH]; simpl; [reflexivity|].
    destruct (Byte.eqb c NUL) eqn:E.
    + apply Byte.byte_dec_bl in E. elim Ha. left. exact E.
    + f_equal. apply IH. intros H. apply Ha. right. exact H.
  - simpl in Hr. subst c. apply c_str_terminated. exact Ha.
Qed.

Lemma peek_skipped (e : ejs) (n k : nat) :
  peek (skipped e n k) = peek_at (source_code e) (cursor e + n).
Proof. reflexivity. Qed.

Lemma enough_fuel_S (src : list byte) :
  enough_fuel src = S (S (S (S (3 * strlen src + 1)))).
Proof. unfold enough_fuel. lia. Qed.

(** The driver on an instance whose cursor is on the terminator. *)
Lemma statements_done (fuel : nat) (e : ejs) :
  peek e = NUL -> statements (S fuel) e = Ret tt e.
Proof.
  intros H. cbn [statements]. unfold when, IS. rewrite H. reflexivity.
Qed.

(** X10: A text of whitespace only, the empty text included, is accepted:
    the call returns 1 with the cursor on the terminator and the line
    counter incremented once for each newline of the text; the token
    fields and the message buffer are as they were. *)
Theorem blank_text_accepted (vm : ejs) (src : list byte) :
  Forall (fun c => is_space c = true) (c_str src) ->
  exists vm',
    ejs_exec vm src = Some (1%Z, vm') /\
    cursor vm' = strlen src /\
    line_no vm' =
      Nat.iter (count_occ Byte.byte_eq_dec (c_str src) LF) int_incr
        (line_no vm) /\
    tok vm' = tok vm /\ tok_len vm' = tok_len vm /\
    error_msg vm' = error_msg vm.
Proof.
  intros Hws. destruct (c_str_split src) as (rest & Hm & Hr).
  rewrite <- (c_str_length src).
  set (ws := c_str src) in *. clearbody ws. subst src.
  unfold ejs_exec, ejs_exec_fuel. rewrite enough_fuel_S.
  unfold bind.
  rewrite skip_blank
    by (rewrite ?Hr; first [assumption|reflexivity|discriminate]).
  rewrite statements_done
    by (rewrite peek_skipped; fields; rewrite Nat.add_0_l, peek_at_app;
        exact Hr).
  eexists. split; [reflexivity|]. unfold skipped. fields.
  repeat split.
Qed.

(** The text of a tab, a newline and two blanks: the cursor ends at
    offset 4 and the line counter of a fresh instance at 1. *)
Lemma blank_text_accepted_witness :
  Forall (fun c => is_space c = true) (c_str [TAB; LF; SPACE; SPACE]) /\
  exists vm',
    ejs_exec ejs_create [TAB; LF; SPACE; SPACE] = Some (1%Z, vm') /\
    cursor vm' = 4 /\ line_no vm' = 1%Z.
Proof.
  assert (H : Forall (fun c => is_space c = true)
                (c_str [TAB; LF; SPACE; SPACE]))
    by (repeat constructor).
  split; [exact H|].
  destruct (blank_text_accepted ejs_create [TAB; LF; SPACE; SPACE] H)
    as (vm' & Hr & Hc & Hl & _).
  exists vm'. split; [exact Hr|]. split; [exact Hc|]. exact Hl.
Defined.

(** X11: A text of whitespace followed by a comment that runs to the end of
    the text is accepted, the cursor on the terminator. *)
Theorem comment_to_end_accepted (vm : ejs) (src ws body : list byte) :
  c_str src = ws ++ "/"%byte :: "/"%byte :: body ->
  ws <> [] ->
  Forall (fun c => is_space c = true) ws ->
  ~ In LF body ->
  exists vm',
    ejs_exec vm src = Some (1%Z, vm') /\
    cursor vm' = strlen src /\
    line_no vm' =
      Nat.iter (count_occ Byte.byte_eq_dec ws LF) int_incr (line_no vm).
Proof.
  intros Hc Hne Hws Hl. destruct (c_str_split src) as (rest & Hm & Hr).
  assert (Hn : ~ In NUL body).
  { intros H. apply (c_str_no_NUL src). rewrite Hc.
    apply in_or_app. right. right. right. exact H. }
  rewrite <- (c_str_length src). rewrite Hc in Hm |- *.
  rewrite <- app_assoc in Hm. cbn [app] in Hm. subst src.
  unfold ejs_exec, ejs_exec_fuel. rewrite enough_fuel_S.
  unfold bind.
  rewrite skip_comment by auto.
  rewrite statements_done.
  - eexists. split; [reflexivity|]. unfold skipped. fields.
    rewrite length_app. cbn [List.length]. split; [lia|reflexivity].
  - rewrite peek_skipped. fields. rewrite Nat.add_0_l.
    replace (ws ++ "/"%byte :: "/"%byte :: body ++ rest)
      with ((ws ++ "/"%byte :: "/"%byte :: body) ++ rest)
      by (rewrite <- app_assoc; reflexivity).
    replace (List.length ws + 2 + List.length body)
      with (List.length (ws ++ "/"%byte :: "/"%byte :: body))
      by (rewrite length_app; cbn [List.length]; lia).
    rewrite peek_at_app. exact Hr.
Qed.

Lemma comment_to_end_accepted_witness :
  exists vm',
    ejs_exec ejs_create (text " // nothing here") = Some (1%Z, vm') /\
    cursor vm' = 16.
Proof.
  destruct (comment_to_end_accepted ejs_create (text " // nothing here")
              (text " ") (text " nothing here"))
    as (vm' & Hr & Hc & _).
  - reflexivity.
  - discriminate.
  - repeat constructor.
  - intros H. vm_compute in H. decompose [or] H; try discriminate; assumption.
  - exists vm'. split; [exact Hr|exact Hc].
Defined.

(** X12: A text of whitespace followed by a comment line is rejected: the
    skipper stops on the newline that ends the comment, and the driver
    takes that newline for the start of a statement.  The cursor stays
    on the newline and the diagnostic shows the text from there. *)
Theorem comment_line_rejected (vm : ejs) (src ws body more : list byte) :
  c_str src = ws ++ "/"%byte :: "/"%byte :: body ++ LF :: more ->
  ws <> [] ->
  Forall (fun c => is_space c = true) ws ->
  ~ In LF body ->
  exists vm',
    ejs_exec vm src = Some (0%Z, vm') /\
    cursor vm' = List.length ws + 2 + List.length body /\
    peek vm' = LF /\
    c_str (error_msg vm') =
      text "[" ++ firstn 10 (LF :: more) ++ text "]: is_digit(ejs->cursor)".
Proof.
  intros Hc Hne Hws Hl. destruct (c_str_split src) as (rest & Hm & Hr).
  assert (Hn : ~ In NUL body /\ ~ In NUL (LF :: more)).
  { split; intros H; apply (c_str_no_NUL src); rewrite Hc;
      apply in_or_app; right; right; right; apply in_or_app; auto. }
  destruct Hn as [Hn Hn'].
  rewrite Hc in Hm.
  rewrite <- app_assoc in Hm. cbn [app] in Hm.
  rewrite <- app_assoc in Hm. cbn [app] in Hm.
  clear Hc. subst src.
  unfold ejs_exec, ejs_exec_fuel. rewrite enough_fuel_S.
  unfold bind at 1.
  rewrite (skip_comment vm ws body (LF :: more ++ rest)) by auto.
  set (src := ws ++ "/"%byte :: "/"%byte :: body ++ LF :: more ++ rest).
  set (e1 := skipped (set_source vm src)
               (List.length ws + 2 + List.length body)
               (count_occ Byte.byte_eq_dec ws LF)).
  assert (Hsk : skipn (cursor e1) (source_code e1) = LF :: more ++ rest).
  { unfold e1, skipped. fields. rewrite Nat.add_0_l. unfold src.
    replace (ws ++ "/"%byte :: "/"%byte :: body ++ LF :: more ++ rest)
      with ((ws ++ "/"%byte :: "/"%byte :: body) ++ LF :: more ++ rest)
      by (rewrite <- app_assoc; reflexivity).
    replace (List.length ws + 2 + List.length body)
      with (List.length (ws ++ "/"%byte :: "/"%byte :: body))
      by (rewrite length_app; cbn [List.length]; lia).
    rewrite skipn_app, Nat.sub_diag, skipn_all. reflexivity. }
  assert (Hpeek : peek e1 = LF).
  { apply skipn_cons_peek in Hsk as [Hp _]. exact Hp. }
  change (statements (S (S (S (S (3 * strlen src + 1))))) e1)
    with (when (fun ejs => negb (IS ejs NUL))
            (parse_statement (S (S (S (3 * strlen src + 1)))) ;;
             statements (S (S (S (3 * strlen src + 1))))) e1).
  unfold when, IS. rewrite Hpeek. cbn [Byte.eqb negb].
  change (Byte.eqb LF NUL) with false. cbn [negb]. unfold bind at 1.
  rewrite parse_statement_rejects
    by (unfold IS; rewrite Hpeek; reflexivity).
  unfold rejected, die.
  eexists. split; [reflexivity|]. fields.
  split; [reflexivity|]. split; [exact Hpeek|].
  rewrite die_buffer.
  - unfold expect_fmt. rewrite Hsk.
    change (LF :: more ++ rest) with ((LF :: more) ++ rest).
    rewrite c_str_app_hd by assumption.
    reflexivity.
  - apply (expect_fmt_length _ _ "is_digit(ejs->cursor)"). simpl; auto.
  - apply expect_fmt_no_NUL. simpl; auto.
Qed.

Lemma comment_line_rejected_witness :
  exists vm',
    ejs_exec ejs_create (text "  // set x" ++ LF :: text "x = 1;")
      = Some (0%Z, vm') /\
    cursor vm' = 10 /\
    c_str (error_msg vm') =
      text "[" ++ LF :: text "x = 1;" ++ text "]: is_digit(ejs->cursor)".
Proof.
  destruct (comment_line_rejected ejs_create
              (text "  // set x" ++ LF :: text "x = 1;")
              (text "  ") (text " set x") (text "x = 1;"))
    as (vm' & Hr & Hc & _ & Hm).
  - reflexivity.
  - discriminate.
  - repeat constructor.
  - intros H. vm_compute in H. decompose [or] H; try discriminate; assumption.
  - exists vm'. split; [exact Hr|]. split; [exact Hc|exact Hm].
Defined.

(** *** Matching one byte *)

(** X13: [match] on the expected byte returns with the cursor behind it (and
    behind the whitespace that follows); on any other byte it dies with
    the cursor one byte further, so the diagnostic shows the text behind
    the byte that did not match, and names neither that byte nor the
    expected one. *)
Theorem match_cases (ch : byte) (e : ejs) :
  (peek e = ch ->
   exists e',
     match_ ch e = Ret tt e' /\ S (cursor e) <= cursor e' /\
     tok e' = tok e /\ tok_len e' = tok_len e /\
     error_msg e' = error_msg e) /\
  (peek e <> ch ->
   exists e',
     match_ ch e = Die e' /\ cursor e' = S (cursor e) /\
     line_no e' = line_no e /\
     c_str (error_msg e') =
       text "[" ++
       firstn 10 (c_str (skipn (S (cursor e)) (source_code e))) ++
       text "]: *ejs->cursor++ == ch").
Proof.
  unfold match_, EXPECT, read_and_advance, bind, ret. split; intros H.
  - rewrite H.
    assert (Byte.eqb ch ch = true) as ->
      by (destruct (Byte.eqb ch ch) eqn:E; [reflexivity|];
          apply Byte.eqb_false in E; congruence).
    destruct (skip_forward (set_cursor e (S (cursor e))))
      as (e' & Hsk & Hc & _ & Ht & Htl & _ & Hm).
    rewrite Hsk. exists e'. fields. auto.
  - destruct (Byte.eqb (peek e) ch) eqn:E.
    { apply Byte.byte_dec_bl in E. contradiction. }
    unfold die. eexists. split; [reflexivity|]. fields.
    repeat split.
    rewrite die_buffer.
    + reflexivity.
    + apply (expect_fmt_length _ _ "*ejs->cursor++ == ch"). simpl; auto.
    + apply expect_fmt_no_NUL. simpl; auto.
Qed.

(** *** The keyword *)

(** X14: The three bytes ["var"] at the start of a statement are taken for
    the keyword whatever follows them: when the next byte is not
    whitespace and cannot start an identifier (a digit, as in
    ["var1 = 2;"], an operator, the terminator), the call fails at
    offset 3 on the test of [parse_identifier]. *)
Theorem var_prefix_is_keyword (vm : ejs) (c : byte) (rest : list byte) :
  is_alpha c = false -> c <> "_"%byte -> is_space c = false ->
  exists vm',
    ejs_exec vm (text "var" ++ c :: rest) = Some (0%Z, vm') /\
    cursor vm' = 3 /\
    c_str (error_msg vm') =
      text "[" ++ firstn 10 (c_str (c :: rest)) ++
      text "]: is_alpha(ejs->cursor) || *ejs->cursor == '_'".
Proof.
  intros Ha Hu Hsp.
  unfold ejs_exec, ejs_exec_fuel. rewrite enough_fuel_S.
  set (src := text "var" ++ c :: rest).
  set (e := set_source vm src).
  unfold bind at 1. rewrite (skip_nothing e) by reflexivity.
  set (f := 3 * strlen src + 1).
  change (statements (S (S (S (S f)))) e)
    with (when (fun ejs => negb (IS ejs NUL))
            (parse_statement (S (S (S f))) ;; statements (S (S (S f)))) e).
  unfold when. change (IS e NUL) with false. cbn [negb].
  unfold bind at 1. unfold parse_statement.
  unfold bind at 1. unfold bind at 1.
  unfold test_and_skip.
  change (memcmp_eq (skipn (cursor e) (source_code e))
            (list_byte_of_string "var") 3) with true.
  cbv iota. rewrite modify_bind.
  unfold bind at 1.
  rewrite skip_nothing by exact Hsp.
  unfold ret at 1. cbn [Z.eqb negb].
  change (parse_declaration (S (S (S f))))
    with (parse_identifier ;;
          match_ "=" ;;
          parse_expression (S (S f)) ;;
          again <- test_and_skip (list_byte_of_string ",") 1 ;;
          if negb (Z.eqb again 0) then parse_declaration (S (S f))
          else ret tt).
  unfold bind at 1. unfold parse_identifier. rewrite EXPECT_pure_bind.
  change (peek (set_cursor e (cursor e + 3))) with c.
  rewrite Ha.
  assert (Byte.eqb c "_" = false) as ->.
  { destruct (Byte.eqb c "_") eqn:E; [|reflexivity].
    apply Byte.byte_dec_bl in E. contradiction. }
  cbn [orb]. unfold die.
  eexists. split; [reflexivity|]. fields.
  split; [reflexivity|].
  rewrite die_buffer.
  - reflexivity.
  - apply (expect_fmt_length _ _
             "is_alpha(ejs->cursor) || *ejs->cursor == '_'").
    simpl; auto.
  - apply expect_fmt_no_NUL. simpl; auto.
Qed.

(** ["var1 = 2;"] is rejected at offset 3. *)
Lemma var_prefix_is_keyword_witness :
  exists vm',
    ejs_exec ejs_create (text "var1 = 2;") = Some (0%Z, vm') /\
    cursor vm' = 3 /\
    c_str (error_msg vm') =
      text "[1 = 2;]: is_alpha(ejs->cursor) || *ejs->cursor == '_'".
Proof.
  apply (var_prefix_is_keyword ejs_create "1" (text " = 2;")).
  - reflexivity.
  - discriminate.
  - reflexivity.
Defined.

(** ** The linked list macros *)

(** *** Reading and writing a field *)

Lemma set_prev_fields (h : heap) (p v : nat) :
  allocated h p ->
  exists h',
    set_prev h p v = Some h' /\
    (forall q, get_prev h' q = if q =? p then Some v else get_prev h q) /\
    (forall q, get_next h' q = get_next h q) /\
    (forall q, allocated h' q <-> allocated h q).
Proof.
  unfold allocated, set_prev, get_prev, get_next, upd.
  destruct (h p) as [n|] eqn:E; [intros _|intros H; elim H; reflexivity].
  eexists. split; [reflexivity|]. cbv beta. repeat split.
  - intros q. destruct (Nat.eqb_spec q p); reflexivity.
  - intros q. destruct (Nat.eqb_spec q p) as [->|]; [rewrite E|]; reflexivity.
  - destruct (Nat.eqb_spec q p) as [->|]; [rewrite E; discriminate|auto].
  - destruct (Nat.eqb_spec q p) as [->|]; [discriminate|auto].
Qed.

Lemma set_next_fields (h : heap) (p v : nat) :
  allocated h p ->
  exists h',
    set_next h p v = Some h' /\
    (forall q, get_next h' q = if q =? p then Some v else get_next h q) /\
    (forall q, get_prev h' q = get_prev h q) /\
    (forall q, allocated h' q <-> allocated h q).
Proof.
  unfold allocated, set_next, get_prev, get_next, upd.
  destruct (h p) as [n|] eqn:E; [intros _|intros H; elim H; reflexivity].
  eexists. split; [reflexivity|]. cbv beta. repeat split.
  - intros q. destruct (Nat.eqb_spec q p); reflexivity.
  - intros q. destruct (Nat.eqb_spec q p) as [->|]; [rewrite E|]; reflexivity.
  - destruct (Nat.eqb_spec q p) as [->|]; [rewrite E; discriminate|auto].
  - destruct (Nat.eqb_spec q p) as [->|]; [discriminate|auto].
Qed.

Lemma get_next_allocated (h : heap) (p a : nat) :
  get_next h p = Some a -> allocated h p.
Proof. unfold get_next, allocated. destruct (h p); discriminate. Qed.

Lemma get_prev_allocated (h : heap) (p a : nat) :
  get_prev h p = Some a -> allocated h p.
Proof. unfold get_prev, allocated. destruct (h p); discriminate. Qed.

(** Two memories hold the same node where the fields agree. *)
Lemma node_ext (h h' : heap) (q : nat) :
  get_next h' q = get_next h q -> get_prev h' q = get_prev h q ->
  h' q = h q.
Proof.
  unfold get_next, get_prev.
  destruct (h' q) as [[a b]|], (h q) as [[c d]|]; simpl;
    intros H1 H2; congruence.
Qed.

Lemma eqb_other (q p : nat) : q <> p -> (q =? p) = false.
Proof. apply Nat.eqb_neq. Qed.

(** *** Rows of nodes *)

Lemma seg_frame (h h' : heap) (p : nat) (l : list nat) (q : nat) :
  (forall x, In x (p :: l) -> get_next h' x = get_next h x) ->
  (forall x, In x (l ++ [q]) -> get_prev h' x = get_prev h x) ->
  seg h p l q -> seg h' p l q.
Proof.
  revert p; induction l as [|x l IH]; intros p Hn Hp; simpl.
  - intros [H1 H2]. split.
    + rewrite Hn; [exact H1|left; reflexivity].
    + rewrite Hp; [exact H2|left; reflexivity].
  - intros [[H1 H2] Hs]. split; [split|].
    + rewrite Hn; [exact H1|left; reflexivity].
    + rewrite Hp; [exact H2|left; reflexivity].
    + apply IH; [| |exact Hs].
      * intros y Hy. apply Hn. right. exact Hy.
      * intros y Hy. apply Hp. right. exact Hy.
Qed.

Lemma seg_app (h : heap) (p : nat) (l1 : list nat) (x : nat)
      (l2 : list nat) (q : nat) :
  seg h p (l1 ++ x :: l2) q <-> seg h p l1 x /\ seg h x l2 q.
Proof.
  revert p; induction l1 as [|y l1 IH]; intros p; simpl.
  - tauto.
  - rewrite IH. tauto.
Qed.

(** The first node behind [p] in a row that ends at [q]. *)
Lemma seg_first (h : heap) (p : nat) (l : list nat) (q : nat) :
  seg h p l q -> links h p (hd q l).
Proof. destruct l as [|x l]; simpl; tauto. Qed.

Lemma last_cons (l : list nat) (x p : nat) : last (x :: l) p = last l x.
Proof.
  revert x p; induction l as [|y l IH]; intros x p; [reflexivity|].
  change (last (x :: y :: l) p) with (last (y :: l) p).
  rewrite !IH. reflexivity.
Qed.

(** The last node before [q] in a row that starts at [p]. *)
Lemma seg_last (h : heap) (p : nat) (l : list nat) (q : nat) :
  seg h p l q -> links h (last l p) q.
Proof.
  revert p; induction l as [|x l IH]; intros p; [simpl; tauto|].
  intros [_ Hs]. rewrite last_cons. apply IH. exact Hs.
Qed.

Lemma last_In (l : list nat) (p : nat) : In (last l p) (p :: l).
Proof.
  revert p; induction l as [|x l IH]; intros p; [left; reflexivity|].
  rewrite last_cons. right. apply IH.
Qed.

Lemma NoDup_app_inv (xs ys : list nat) :
  NoDup (xs ++ ys) ->
  NoDup xs /\ NoDup ys /\ (forall u, In u xs -> In u ys -> False).
Proof.
  induction xs as [|x xs IH]; simpl; intros H.
  - repeat split; [constructor|exact H|contradiction].
  - apply NoDup_cons_iff in H as [Hx H]. apply IH in H as (H1 & H2 & H3).
    repeat split; [|exact H2|].
    + constructor; [|exact H1]. intros Hin. apply Hx, in_or_app. auto.
    + intros u [<-|Hu] Hy; [apply Hx, in_or_app; auto|eauto].
Qed.

(** A row from [p] whose last node is relinked to a new tail [l2]. *)
Lemma seg_replace_end (h h' : heap) (p : nat) (l1 : list nat) (e : nat)
      (l2 : list nat) (q : nat) :
  NoDup (p :: l1) ->
  seg h p l1 e ->
  (forall x, In x (p :: l1) -> x <> last l1 p ->
             get_next h' x = get_next h x) ->
  (forall x, In x l1 -> get_prev h' x = get_prev h x) ->
  seg h' (last l1 p) l2 q ->
  seg h' p (l1 ++ l2) q.
Proof.
  revert p; induction l1 as [|x l1 IH]; intros p Hnd Hs Hn Hp Hend.
  - exact Hend.
  - destruct Hs as [[H1 H2] Hs]. rewrite last_cons in Hn, Hend.
    apply NoDup_cons_iff in Hnd as [Hnotin Hnd].
    cbn [app seg]. split; [split|].
    + rewrite Hn; [exact H1|left; reflexivity|].
      intros E. apply Hnotin. rewrite E. apply last_In.
    + rewrite Hp; [exact H2|left; reflexivity].
    + apply IH; auto.
      * intros y Hy. apply Hn. right. exact Hy.
      * intros y Hy. apply Hp. right. exact Hy.
Qed.

(** *** The macros on the fields *)

Lemma LINKED_LIST_INIT_fields (h : heap) (N : nat) :
  allocated h N ->
  exists h',
    LINKED_LIST_INIT h N = Some h' /\
    (forall q, get_next h' q = if q =? N then Some N else get_next h q) /\
    (forall q, get_prev h' q = if q =? N then Some N else get_prev h q) /\
    (forall q, allocated h' q <-> allocated h q).
Proof.
  intros HN. unfold LINKED_LIST_INIT.
  destruct (set_prev_fields h N N HN) as (h1 & E1 & Hp1 & Hn1 & Ha1).
  rewrite E1. cbn [and_then].
  destruct (set_next_fields h1 N N (proj2 (Ha1 N) HN))
    as (h2 & E2 & Hn2 & Hp2 & Ha2).
  exists h2. split; [exact E2|]. repeat apply conj.
  - intros q. rewrite Hn2, Hn1. reflexivity.
  - intros q. rewrite Hp2, Hp1. reflexivity.
  - intros q. rewrite Ha2. apply Ha1.
Qed.

Lemma LINKED_LIST_ADD_TO_FRONT_fields (h : heap) (H N a : nat) :
  get_next h H = Some a -> allocated h a -> allocated h N ->
  exists h',
    LINKED_LIST_ADD_TO_FRONT h H N = Some h' /\
    (forall q, get_next h' q =
       if q =? H then Some N else if q =? N then Some a else get_next h q) /\
    (forall q, get_prev h' q =
       if q =? N then Some H else if q =? a then Some N else get_prev h q) /\
    (forall q, allocated h' q <-> allocated h q).
Proof.
  intros HH Ha HN. unfold LINKED_LIST_ADD_TO_FRONT.
  rewrite HH. cbn [and_then].
  destruct (set_prev_fields h a N Ha) as (h1 & E1 & Hp1 & Hn1 & Ha1).
  rewrite E1. cbn [and_then]. rewrite Hn1, HH. cbn [and_then].
  destruct (set_next_fields h1 N a (proj2 (Ha1 N) HN))
    as (h2 & E2 & Hn2 & Hp2 & Ha2).
  rewrite E2. cbn [and_then].
  destruct (set_prev_fields h2 N H (proj2 (Ha2 N) (proj2 (Ha1 N) HN)))
    as (h3 & E3 & Hp3 & Hn3 & Ha3).
  rewrite E3. cbn [and_then].
  assert (HH3 : allocated h3 H).
  { apply Ha3, Ha2, Ha1. eapply get_next_allocated. exact HH. }
  destruct (set_next_fields h3 H N HH3) as (h4 & E4 & Hn4 & Hp4 & Ha4).
  exists h4. split; [exact E4|]. repeat apply conj.
  - intros q. rewrite Hn4, Hn3, Hn2, Hn1. reflexivity.
  - intros q. rewrite Hp4, Hp3, Hp2, Hp1. reflexivity.
  - intros q. rewrite Ha4, Ha3, Ha2. apply Ha1.
Qed.

Lemma LINKED_LIST_ADD_TO_TAIL_fields (h : heap) (H N a : nat) :
  get_prev h H = Some a -> allocated h a -> allocated h N ->
  exists h',
    LINKED_LIST_ADD_TO_TAIL h H N = Some h' /\
    (forall q, get_next h' q =
       if q =? N then Some H else if q =? a then Some N else get_next h q) /\
    (forall q, get_prev h' q =
       if q =? H then Some N else if q =? N then Some a else get_prev h q) /\
    (forall q, allocated h' q <-> allocated h q).
Proof.
  intros HH Ha HN. unfold LINKED_LIST_ADD_TO_TAIL.
  rewrite HH. cbn [and_then].
  destruct (set_next_fields h a N Ha) as (h1 & E1 & Hn1 & Hp1 & Ha1).
  rewrite E1. cbn [and_then]. rewrite Hp1, HH. cbn [and_then].
  destruct (set_prev_fields h1 N a (proj2 (Ha1 N) HN))
    as (h2 & E2 & Hp2 & Hn2 & Ha2).
  rewrite E2. cbn [and_then].
  destruct (set_next_fields h2 N H (proj2 (Ha2 N) (proj2 (Ha1 N) HN)))
    as (h3 & E3 & Hn3 & Hp3 & Ha3).
  rewrite E3. cbn [and_then].
  assert (HH3 : allocated h3 H).
  { apply Ha3, Ha2, Ha1. eapply get_prev_allocated. exact HH. }
  destruct (set_prev_fields h3 H N HH3) as (h4 & E4 & Hp4 & Hn4 & Ha4).
  exists h4. split; [exact E4|]. repeat apply conj.
  - intros q. rewrite Hn4, Hn3, Hn2, Hn1. reflexivity.
  - intros q. rewrite Hp4, Hp3, Hp2, Hp1. reflexivity.
  - intros q. rewrite Ha4, Ha3, Ha2. apply Ha1.
Qed.

Lemma LINKED_LIST_REMOVE_fields (h : heap) (N a b : nat) :
  get_next h N = Some a -> get_prev h N = Some b ->
  allocated h a -> allocated h b ->
  exists h',
    LINKED_LIST_REMOVE h N = Some h' /\
    (forall q, get_next h' q =
       if q =? N then Some N else if q =? b then Some a else get_next h q) /\
    (forall q, get_prev h' q =
       if q =? N then Some N else if q =? a then Some b else get_prev h q) /\
    (forall q, allocated h' q <-> allocated h q).
Proof.
  intros Hn Hp Ha Hb. unfold LINKED_LIST_REMOVE.
  rewrite Hn, Hp. cbn [and_then].
  destruct (set_prev_fields h a b Ha) as (h1 & E1 & Hp1 & Hn1 & Ha1).
  rewrite E1. cbn [and_then].
  assert (Hp' : get_prev h1 N = Some b).
  { rewrite Hp1. destruct (N =? a); [reflexivity|exact Hp]. }
  rewrite Hp', Hn1, Hn. cbn [and_then].
  destruct (set_next_fields h1 b a (proj2 (Ha1 b) Hb))
    as (h2 & E2 & Hn2 & Hp2 & Ha2).
  rewrite E2. cbn [and_then].
  assert (HN2 : allocated h2 N).
  { apply Ha2, Ha1. eapply get_next_allocated. exact Hn. }
  destruct (LINKED_LIST_INIT_fields h2 N HN2) as (h3 & E3 & Hn3 & Hp3 & Ha3).
  exists h3. split; [exact E3|]. repeat apply conj.
  - intros q. rewrite Hn3, Hn2, Hn1. reflexivity.
  - intros q. rewrite Hp3, Hp2, Hp1. reflexivity.
  - intros q. rewrite Ha3, Ha2. apply Ha1.
Qed.

(** *** The macros on lists *)

Ltac differ :=
  let E := fresh "E" in
  intros E; subst; simpl in *; intuition (eauto; congruence).

Lemma repr_nil (h : heap) (N : nat) :
  repr h N [] <-> get_next h N = Some N /\ get_prev h N = Some N.
Proof.
  unfold repr, seg, links. split; [tauto|]. intros H. split; [|exact H].
  constructor; [intros []|constructor].
Qed.

(** Removing the node [N] that sits between the rows [l1] and [l2]. *)
Lemma remove_between (h : heap) (H N : nat) (l1 l2 : list nat) :
  repr h H (l1 ++ N :: l2) ->
  exists h',
    LINKED_LIST_REMOVE h N = Some h' /\
    repr h' H (l1 ++ l2) /\ repr h' N [] /\
    (forall q, ~ In q (H :: l1 ++ N :: l2) -> h' q = h q).
Proof.
  intros [Hnd Hseg]. apply seg_app in Hseg as [Hs1 Hs2].
  pose proof (seg_last _ _ _ _ Hs1) as [Hb1 Hb2].
  pose proof (seg_first _ _ _ _ Hs2) as [Ha1 Ha2].
  set (a := hd H l2) in *. set (b := last l1 H) in *.
  destruct (LINKED_LIST_REMOVE_fields h N a b Ha1 Hb2
              (get_prev_allocated _ _ _ Ha2) (get_next_allocated _ _ _ Hb1))
    as (h' & E & Hn & Hp & _).
  exists h'. split; [exact E|].
  change (H :: l1 ++ N :: l2) with ((H :: l1) ++ N :: l2) in Hnd.
  pose proof (NoDup_remove_1 _ _ _ Hnd) as Hnd'.
  pose proof (NoDup_remove_2 _ _ _ Hnd) as HN.
  apply NoDup_app_inv in Hnd as (Hnd1 & Hnd2 & Hdisj).
  apply NoDup_cons_iff in Hnd2 as [HN2 Hnd2].
  assert (Hb : In b (H :: l1)) by apply last_In.
  assert (Ha : a = H \/ In a l2).
  { unfold a. destruct l2; simpl; auto. }
  assert (HNb : N <> b).
  { intros <-. apply (Hdisj N); [exact Hb|left; reflexivity]. }
  assert (HNa : N <> a).
  { intros <-. destruct Ha as [Ha|Ha]; [|contradiction].
    apply HN. rewrite Ha. left. reflexivity. }
  split; [split|split].
  - exact Hnd'.
  - apply (seg_replace_end h h' H l1 N l2 H); auto.
    + intros x Hx Hxb. rewrite Hn.
      rewrite (eqb_other x N), (eqb_other x b); auto.
      intros ->. apply HN, in_or_app. left. exact Hx.
    + intros x Hx. rewrite Hp.
      rewrite (eqb_other x N), (eqb_other x a); auto.
      * intros ->. destruct Ha as [Ha|Ha].
        -- apply NoDup_cons_iff in Hnd1 as [Hnot _]. rewrite Ha in Hx.
           contradiction.
        -- apply (Hdisj a); [right; exact Hx|right; exact Ha].
      * intros ->. apply HN, in_or_app. left. right. exact Hx.
    + fold b. destruct l2 as [|y l2].
      * cbn [hd] in *. subst a. split.
        -- rewrite Hn, (eqb_other b N), Nat.eqb_refl; auto.
        -- rewrite Hp, (eqb_other H N), Nat.eqb_refl; auto.
      * cbn [hd] in *. subst a. destruct Hs2 as [_ Hs2].
        apply NoDup_cons_iff in Hnd2 as [Hy Hnd2].
        split; [split|].
        -- rewrite Hn, (eqb_other b N), Nat.eqb_refl; auto.
        -- rewrite Hp, (eqb_other y N), Nat.eqb_refl; auto.
        -- apply (seg_frame h); [| |exact Hs2].
           ++ intros x Hx. rewrite Hn.
              rewrite (eqb_other x N), (eqb_other x b); auto.
              ** intros ->. apply (Hdisj b); [exact Hb|right; exact Hx].
              ** intros ->. apply HN2. exact Hx.
           ++ intros x Hx. rewrite Hp.
              rewrite (eqb_other x N), (eqb_other x y); auto.
              ** intros ->. apply in_app_or in Hx as [Hx|[Hx|[]]];
                   [contradiction|].
                 apply (Hdisj y); [left; exact Hx|right; left; reflexivity].
              ** intros ->. apply in_app_or in Hx as [Hx|[Hx|[]]].
                 --- apply HN2. right. exact Hx.
                 --- apply HN. left. exact Hx.
  - apply repr_nil. rewrite Hn, Hp, Nat.eqb_refl. auto.
  - intros q Hq. apply node_ext.
    + rewrite Hn, (eqb_other q N), (eqb_other q b); auto.
      * intros ->. apply Hq. destruct Hb as [Hb|Hb]; [left; exact Hb|].
        right. apply in_or_app. left. exact Hb.
      * intros ->. apply Hq. right. apply in_or_app. right. left. reflexivity.
    + rewrite Hp, (eqb_other q N), (eqb_other q a); auto.
      * intros ->. apply Hq. destruct Ha as [Ha|Ha]; [left; auto|].
        right. apply in_or_app. right. right. exact Ha.
      * intros ->. apply Hq. right. apply in_or_app. right. left. reflexivity.
Qed.

(** X15: [LINKED_LIST_INIT] makes a node the head of an empty list, and
    [LINKED_LIST_IS_EMPTY] says so; no other node is written. *)
Theorem LINKED_LIST_INIT_empty (h : heap) (N : nat) :
  allocated h N ->
  exists h',
    LINKED_LIST_INIT h N = Some h' /\
    repr h' N [] /\
    LINKED_LIST_IS_EMPTY h' N = Some true /\
    (forall q, q <> N -> h' q = h q).
Proof.
  intros HN.
  destruct (LINKED_LIST_INIT_fields h N HN) as (h' & E & Hn & Hp & _).
  exists h'. split; [exact E|].
  assert (Hnext : get_next h' N = Some N)
    by (rewrite Hn, Nat.eqb_refl; reflexivity).
  split; [|split].
  - apply repr_nil. rewrite Hp, Nat.eqb_refl. auto.
  - unfold LINKED_LIST_IS_EMPTY. rewrite Hnext. cbn [and_then].
    rewrite Nat.eqb_refl. reflexivity.
  - intros q Hq. apply node_ext.
    + rewrite Hn, (eqb_other q N); auto.
    + rewrite Hp, (eqb_other q N); auto.
Qed.

(** A node fresh from [calloc], both pointers null. *)
Lemma LINKED_LIST_INIT_empty_witness :
  allocated (heap_of [(8, mk_ll 0 0)]) 8 /\
  exists h',
    LINKED_LIST_INIT (heap_of [(8, mk_ll 0 0)]) 8 = Some h' /\
    repr h' 8 [].
Proof.
  assert (H : allocated (heap_of [(8, mk_ll 0 0)]) 8) by discriminate.
  split; [exact H|].
  destruct (LINKED_LIST_INIT_empty _ 8 H) as (h' & E & Hr & _).
  exists h'. split; [exact E|exact Hr].
Defined.

(** X16: [LINKED_LIST_IS_EMPTY] on the head of a list tells whether the list
    has no node. *)
Theorem LINKED_LIST_IS_EMPTY_repr (h : heap) (H : nat) (l : list nat) :
  repr h H l ->
  LINKED_LIST_IS_EMPTY h H =
  Some (match l with [] => true | _ :: _ => false end).
Proof.
  intros [Hnd Hseg]. apply seg_first in Hseg as [Hnext _].
  unfold LINKED_LIST_IS_EMPTY. rewrite Hnext. cbn [and_then].
  destruct l as [|x l]; cbn [hd].
  - rewrite Nat.eqb_refl. reflexivity.
  - rewrite (eqb_other x H); [reflexivity|].
    intros ->. apply NoDup_cons_iff in Hnd as [Hnd _]. apply Hnd.
    left. reflexivity.
Qed.

(** A head with one node. *)
Lemma LINKED_LIST_IS_EMPTY_repr_witness :
  repr (heap_of [(1, mk_ll 2 2); (2, mk_ll 1 1)]) 1 [2] /\
  LINKED_LIST_IS_EMPTY (heap_of [(1, mk_ll 2 2); (2, mk_ll 1 1)]) 1
    = Some false.
Proof.
  assert (H : repr (heap_of [(1, mk_ll 2 2); (2, mk_ll 1 1)]) 1 [2]).
  { split.
    - repeat constructor; simpl; intuition discriminate.
    - repeat split. }
  split; [exact H|].
  exact (LINKED_LIST_IS_EMPTY_repr _ 1 [2] H).
Defined.

(** X17: [LINKED_LIST_ADD_TO_FRONT] with a node that is not in the list puts
    it before the first node; nothing outside the list and the new node
    is written. *)
Theorem LINKED_LIST_ADD_TO_FRONT_repr (h : heap) (H N : nat) (l : list nat) :
  repr h H l -> allocated h N -> ~ In N (H :: l) ->
  exists h',
    LINKED_LIST_ADD_TO_FRONT h H N = Some h' /\
    repr h' H (N :: l) /\
    (forall q, ~ In q (N :: H :: l) -> h' q = h q).
Proof.
  intros [Hnd Hseg] HN Hfresh.
  pose proof (seg_first _ _ _ _ Hseg) as [Ha1 Ha2].
  set (a := hd H l) in *.
  destruct (LINKED_LIST_ADD_TO_FRONT_fields h H N a Ha1
              (get_prev_allocated _ _ _ Ha2) HN)
    as (h' & E & Hn & Hp & _).
  exists h'. split; [exact E|].
  assert (HNH : N <> H) by (intros ->; apply Hfresh; left; reflexivity).
  assert (HNl : ~ In N l) by (intros Hin; apply Hfresh; right; exact Hin).
  pose proof Hnd as Hnd0.
  apply NoDup_cons_iff in Hnd as [HHl Hndl].
  assert (Ha : a = H \/ In a l).
  { unfold a. destruct l; simpl; auto. }
  split; [split|].
  - constructor; [|constructor; assumption].
    intros [Hin|Hin]; [auto|contradiction].
  - cbn [seg]. split; [split|].
    + rewrite Hn, Nat.eqb_refl. reflexivity.
    + rewrite Hp, Nat.eqb_refl. reflexivity.
    + destruct l as [|x l]; cbn [hd] in *; subst a.
      * split.
        -- rewrite Hn, (eqb_other N H), Nat.eqb_refl; auto.
        -- rewrite Hp, (eqb_other H N), Nat.eqb_refl; auto.
      * destruct Hseg as [_ Hseg].
        apply NoDup_cons_iff in Hndl as [Hxl Hndl].
        cbn [seg]. split; [split|].
        -- rewrite Hn, (eqb_other N H), Nat.eqb_refl; auto.
        -- rewrite Hp, (eqb_other x N), Nat.eqb_refl; auto.
           intros ->. apply HNl. left. reflexivity.
        -- apply (seg_frame h); [| |exact Hseg].
           ++ intros y Hy. rewrite Hn.
              rewrite (eqb_other y H), (eqb_other y N); auto.
              ** intros ->. contradiction.
              ** intros ->. contradiction.
           ++ intros y Hy. rewrite Hp.
              rewrite (eqb_other y N), (eqb_other y x); auto.
              ** intros ->. apply in_app_or in Hy as [Hy|[Hy|[]]];
                   [contradiction|].
                 apply HHl. left. symmetry. exact Hy.
              ** intros ->. apply in_app_or in Hy as [Hy|[Hy|[]]].
                 --- apply HNl. right. exact Hy.
                 --- apply HNH. symmetry. exact Hy.
  - intros q Hq. apply node_ext.
    + rewrite Hn, (eqb_other q H), (eqb_other q N); auto.
      * intros ->. apply Hq. left. reflexivity.
      * intros ->. apply Hq. right. left. reflexivity.
    + rewrite Hp, (eqb_other q N), (eqb_other q a); auto.
      * intros ->. apply Hq. right. destruct Ha as [Ha|Ha];
          [left; auto|right; exact Ha].
      * intros ->. apply Hq. left. reflexivity.
Qed.

Lemma LINKED_LIST_ADD_TO_FRONT_repr_witness :
  exists h',
    LINKED_LIST_ADD_TO_FRONT
      (heap_of [(1, mk_ll 2 2); (2, mk_ll 1 1); (3, mk_ll 0 0)]) 1 3
      = Some h' /\
    repr h' 1 [3; 2].
Proof.
  destruct (LINKED_LIST_ADD_TO_FRONT_repr
              (heap_of [(1, mk_ll 2 2); (2, mk_ll 1 1); (3, mk_ll 0 0)])
              1 3 [2])
    as (h' & E & Hr & _).
  - split.
    + repeat constructor; simpl; intuition discriminate.
    + repeat split.
  - discriminate.
  - simpl. intuition discriminate.
  - exists h'. split; [exact E|exact Hr].
Defined.

(** X18: [LINKED_LIST_ADD_TO_TAIL] with a node that is not in the list puts
    it behind the last node. *)
Theorem LINKED_LIST_ADD_TO_TAIL_repr (h : heap) (H N : nat) (l : list nat) :
  repr h H l -> allocated h N -> ~ In N (H :: l) ->
  exists h',
    LINKED_LIST_ADD_TO_TAIL h H N = Some h' /\
    repr h' H (l ++ [N]) /\
    (forall q, ~ In q (N :: H :: l) -> h' q = h q).
Proof.
  intros [Hnd Hseg] HN Hfresh.
  pose proof (seg_last _ _ _ _ Hseg) as [Ha1 Ha2].
  set (a := last l H) in *.
  destruct (LINKED_LIST_ADD_TO_TAIL_fields h H N a Ha2
              (get_next_allocated _ _ _ Ha1) HN)
    as (h' & E & Hn & Hp & _).
  exists h'. split; [exact E|].
  assert (HNH : N <> H) by (intros ->; apply Hfresh; left; reflexivity).
  assert (HNl : ~ In N l) by (intros Hin; apply Hfresh; right; exact Hin).
  assert (Ha : In a (H :: l)) by apply last_In.
  assert (HaN : a <> N) by (intros ->; contradiction).
  pose proof Hnd as Hnd0.
  apply NoDup_cons_iff in Hnd as [HHl Hndl].
  split; [split|].
  - constructor.
    + intros Hin. apply in_app_or in Hin as [Hin|[Hin|[]]]; auto.
    + clear - Hndl HNl. induction l as [|x l IH]; simpl.
      * constructor; [intros []|constructor].
      * apply NoDup_cons_iff in Hndl as [Hx Hndl]. constructor.
        -- intros Hin. apply in_app_or in Hin as [Hin|[Hin|[]]]; auto.
           apply HNl. left. symmetry. exact Hin.
        -- apply IH; auto. intros Hin. apply HNl. right. exact Hin.
  - apply (seg_replace_end h h' H l H [N] H); auto.
    + intros x Hx Hxa. rewrite Hn.
      rewrite (eqb_other x N), (eqb_other x a); auto.
      intros ->. contradiction.
    + intros x Hx. rewrite Hp.
      rewrite (eqb_other x H), (eqb_other x N); auto.
      * intros ->. contradiction.
      * intros ->. contradiction.
    + fold a. cbn [seg]. split; split.
      * rewrite Hn, (eqb_other a N), Nat.eqb_refl; auto.
      * rewrite Hp, (eqb_other N H), Nat.eqb_refl; auto.
      * rewrite Hn, Nat.eqb_refl. reflexivity.
      * rewrite Hp, Nat.eqb_refl. reflexivity.
  - intros q Hq. apply node_ext.
    + rewrite Hn, (eqb_other q N), (eqb_other q a); auto.
      * intros ->. apply Hq. right. exact Ha.
      * intros ->. apply Hq. left. reflexivity.
    + rewrite Hp, (eqb_other q H), (eqb_other q N); auto.
      * intros ->. apply Hq. left. reflexivity.
      * intros ->. apply Hq. right. left. reflexivity.
Qed.

Lemma LINKED_LIST_ADD_TO_TAIL_repr_witness :
  exists h',
    LINKED_LIST_ADD_TO_TAIL
      (heap_of [(1, mk_ll 2 2); (2, mk_ll 1 1); (3, mk_ll 0 0)]) 1 3
      = Some h' /\
    repr h' 1 [2; 3].
Proof.
  destruct (LINKED_LIST_ADD_TO_TAIL_repr
              (heap_of [(1, mk_ll 2 2); (2, mk_ll 1 1); (3, mk_ll 0 0)])
              1 3 [2])
    as (h' & E & Hr & _).
  - split.
    + repeat constructor; simpl; intuition discriminate.
    + repeat split.
  - discriminate.
  - simpl. intuition discriminate.
  - exists h'. split; [exact E|exact Hr].
Defined.

(** X19: [LINKED_LIST_REMOVE] of a node of the list takes it out, the other
    nodes staying in their order, and leaves it as the head of an empty
    list of its own (so removing it once more changes nothing). *)
Theorem LINKED_LIST_REMOVE_repr (h : heap) (H N : nat) (l : list nat) :
  repr h H l -> In N l ->
  exists h',
    LINKED_LIST_REMOVE h N = Some h' /\
    repr h' H (remove Nat.eq_dec N l) /\
    repr h' N [] /\
    (forall q, ~ In q (H :: l) -> h' q = h q).
Proof.
  intros Hr Hin. apply in_split in Hin as (l1 & l2 & ->).
  destruct (remove_between h H N l1 l2 Hr) as (h' & E & Hr' & HN & Hf).
  exists h'. split; [exact E|]. split; [|split; assumption].
  destruct Hr as [Hnd _].
  apply NoDup_cons_iff in Hnd as [_ Hnd].
  pose proof (NoDup_remove_2 _ _ _ Hnd) as HNl.
  rewrite remove_app. cbn [remove].
  destruct (Nat.eq_dec N N) as [_|Hne]; [|elim Hne; reflexivity].
  rewrite !notin_remove; [exact Hr'| |];
    intros Hin; apply HNl, in_or_app; auto.
Qed.

Lemma LINKED_LIST_REMOVE_repr_witness :
  exists h',
    LINKED_LIST_REMOVE
      (heap_of [(1, mk_ll 3 2); (2, mk_ll 1 3); (3, mk_ll 2 1)]) 2
      = Some h' /\
    repr h' 1 [3] /\ repr h' 2 [].
Proof.
  destruct (LINKED_LIST_REMOVE_repr
              (heap_of [(1, mk_ll 3 2); (2, mk_ll 1 3); (3, mk_ll 2 1)])
              1 2 [2; 3])
    as (h' & E & Hr & HN & _).
  - split.
    + repeat constructor; simpl; intuition discriminate.
    + repeat split.
  - left. reflexivity.
  - exists h'. split; [exact E|]. split; [exact Hr|exact HN].
Defined.

(** *** The loop over a list *)

Lemma next_of_hd (h : heap) (p : nat) (l : list nat) (H n0 : nat) :
  seg h p l H -> get_next h H = Some n0 ->
  exists T, get_next h (hd H l) = Some T.
Proof.
  intros Hs HH. destruct l as [|x l]; cbn [hd]; [eauto|].
  destruct Hs as [_ Hs]. apply seg_first in Hs as [Hx _]. eauto.
Qed.

Lemma foreach_loop_fold {St : Type}
      (body : nat -> St * heap -> option (St * heap)) (f : nat -> St -> St)
      (h : heap) (H n0 : nat) :
  (forall N s, body N (s, h) = Some (f N s, h)) ->
  get_next h H = Some n0 ->
  forall l p T s fuel,
    seg h p l H -> ~ In H l -> List.length l < fuel ->
    get_next h (hd H l) = Some T ->
    foreach_loop fuel body H (hd H l) T (s, h) =
    Finished (fold_left (fun s N => f N s) l s, h).
Proof.
  intros Hbody HH.
  induction l as [|x l IH]; intros p T s fuel Hs Hnot Hfuel HT;
    (destruct fuel as [|fuel]; [simpl in Hfuel; lia|]); cbn [foreach_loop hd].
  - rewrite Nat.eqb_refl. reflexivity.
  - rewrite (eqb_other x H) by (intros ->; apply Hnot; left; reflexivity).
    rewrite Hbody. cbn [snd].
    destruct Hs as [_ Hs].
    pose proof (seg_first _ _ _ _ Hs) as [Hx _].
    cbn [hd] in HT. rewrite Hx in HT. injection HT as <-.
    destruct (next_of_hd h x l H n0 Hs HH) as [T' HT'].
    rewrite HT'. cbn [fold_left].
    apply (IH x); auto.
    + intros Hin. apply Hnot. right. exact Hin.
    + simpl in Hfuel. lia.
Qed.

(** X20: [LINKED_LIST_FOREACH] with a body that leaves the memory alone runs
    the body on the nodes of the list, once each and in their order,
    and ends. *)
Theorem LINKED_LIST_FOREACH_fold {St : Type}
        (body : nat -> St * heap -> option (St * heap)) (f : nat -> St -> St)
        (h : heap) (H : nat) (l : list nat) (s : St) :
  repr h H l ->
  (forall N s, body N (s, h) = Some (f N s, h)) ->
  LINKED_LIST_FOREACH (S (List.length l)) body H (s, h) =
  Finished (fold_left (fun s N => f N s) l s, h).
Proof.
  intros [Hnd Hseg] Hbody.
  pose proof (seg_first _ _ _ _ Hseg) as [HH _].
  destruct (next_of_hd h H l H _ Hseg HH) as [T HT].
  unfold LINKED_LIST_FOREACH. cbn [snd]. rewrite HH, HT.
  apply NoDup_cons_iff in Hnd as [Hnot _].
  apply (foreach_loop_fold body f h H _ Hbody HH l H); auto.
Qed.

(** Collecting the nodes of a list of two. *)
Lemma LINKED_LIST_FOREACH_fold_witness :
  LINKED_LIST_FOREACH 3 (fun N st => Some (fst st ++ [N], snd st)) 1
    ([], heap_of [(1, mk_ll 3 2); (2, mk_ll 1 3); (3, mk_ll 2 1)])
  = Finished ([2; 3],
              heap_of [(1, mk_ll 3 2); (2, mk_ll 1 3); (3, mk_ll 2 1)]).
Proof.
  apply (LINKED_LIST_FOREACH_fold
           (fun N st => Some (fst st ++ [N], snd st))
           (fun N acc => acc ++ [N])
           (heap_of [(1, mk_ll 3 2); (2, mk_ll 1 3); (3, mk_ll 2 1)])
           1 [2; 3] []).
  - split.
    + repeat constructor; simpl; intuition discriminate.
    + repeat split.
  - reflexivity.
Defined.

(** X21: [LINKED_LIST_FOREACH] saves the next node before the body runs, so
    the body may remove the node it is given: a loop that removes every
    node ends with the list empty and each of its nodes the head of an
    empty list of its own. *)
Theorem LINKED_LIST_FOREACH_remove {St : Type}
        (h : heap) (H : nat) (l : list nat) (s : St) :
  repr h H l ->
  exists h',
    LINKED_LIST_FOREACH (S (List.length l)) remove_body H (s, h)
      = Finished (s, h') /\
    repr h' H [] /\
    (forall x, In x l -> repr h' x []) /\
    (forall q, ~ In q (H :: l) -> h' q = h q).
Proof.
  revert h; induction l as [|x l IH]; intros h Hr.
  - exists h. pose proof Hr as [_ [HH _]].
    unfold LINKED_LIST_FOREACH. cbn [snd]. rewrite HH, HH.
    cbn [List.length foreach_loop]. rewrite Nat.eqb_refl.
    split; [reflexivity|]. split; [exact Hr|]. split; [intros y []|auto].
  - destruct (remove_between h H x [] l Hr)
      as (h1 & E1 & Hr1 & Hx1 & Hf1).
    cbn [app] in Hr1, Hf1.
    destruct (IH h1 Hr1) as (h' & E & Hr' & Hl' & Hf').
    exists h'.
    pose proof Hr as [Hnd [[HH _] Hs]].
    pose proof (seg_first _ _ _ _ Hs) as [Hx _].
    pose proof Hr1 as [_ Hs1].
    pose proof (seg_first _ _ _ _ Hs1) as [HH1 _].
    destruct (next_of_hd h1 H l H _ Hs1 HH1) as [T' HT'].
    apply NoDup_cons_iff in Hnd as [HHx Hnd].
    apply NoDup_cons_iff in Hnd as [Hxl Hnd].
    split; [|split; [exact Hr'|split]].
    + rewrite <- E. unfold LINKED_LIST_FOREACH. cbn [snd].
      rewrite HH, Hx, HH1, HT'.
      cbn [List.length foreach_loop].
      rewrite (eqb_other x H)
        by (intros ->; apply HHx; left; reflexivity).
      unfold remove_body at 1. cbn [snd fst]. rewrite E1. cbn [and_then snd].
      rewrite HT'. reflexivity.
    + intros y [<-|Hy]; [|apply Hl'; exact Hy].
      apply repr_nil. apply repr_nil in Hx1.
      unfold get_next, get_prev in *. rewrite Hf'; [exact Hx1|].
      intros [Hq|Hq]; [apply HHx; left; symmetry; exact Hq|contradiction].
    + intros q Hq. rewrite Hf', Hf1; auto.
      intros [Hq'|Hq']; apply Hq; [left; exact Hq'|right; right; exact Hq'].
Qed.

Lemma LINKED_LIST_FOREACH_remove_witness :
  exists h',
    LINKED_LIST_FOREACH 3 remove_body 1
      (tt, heap_of [(1, mk_ll 3 2); (2, mk_ll 1 3); (3, mk_ll 2 1)])
      = Finished (tt, h') /\
    repr h' 1 [] /\ repr h' 2 [] /\ repr h' 3 [].
Proof.
  destruct (LINKED_LIST_FOREACH_remove
              (heap_of [(1, mk_ll 3 2); (2, mk_ll 1 3); (3, mk_ll 2 1)])
              1 [2; 3] tt)
    as (h' & E & Hr & Hl & _).
  - split.
    + repeat constructor; simpl; intuition discriminate.
    + repeat split.
  - exists h'. split; [exact E|]. split; [exact Hr|].
    split; apply Hl; simpl; auto.
Defined.

(** *** The memory behind the terminator *)

Lemma strlen_c_str (mem : list byte) : strlen (c_str mem) = strlen mem.
Proof.
  induction mem as [|c mem IH]; simpl; [reflexivity|].
  destruct (Byte.eqb c NUL) eqn:E; simpl; [reflexivity|].
  rewrite E, IH. reflexivity.
Qed.

Lemma peek_text (mem : list byte) (j : nat) :
  j <= strlen mem -> peek_at mem j = peek_at (c_str mem) j.
Proof.
  revert j; induction mem as [|c mem IH]; intros j Hj; simpl in *;
    [reflexivity|].
  destruct (Byte.eqb c NUL) eqn:E.
  - assert (j = 0) as -> by lia. apply Byte.byte_dec_bl in E. subst c.
    reflexivity.
  - destruct j as [|j]; [reflexivity|]. unfold peek_at in *. simpl.
    apply IH. lia.
Qed.

Lemma skipn_text (mem : list byte) (s : nat) :
  s <= strlen mem ->
  exists rest,
    skipn s mem = skipn s (c_str mem) ++ rest /\ hd NUL rest = NUL.
Proof.
  intros Hs. destruct (c_str_split mem) as (rest & Hm & Hr).
  exists rest. split; [|exact Hr].
  rewrite Hm at 1. rewrite skipn_app.
  replace (s - List.length (c_str mem)) with 0
    by (rewrite c_str_length; lia).
  reflexivity.
Qed.

Lemma skip_space_run_stop (a rest : list byte) (s : nat) (line : Z) :
  hd NUL rest = NUL ->
  skip_space_run (a ++ rest) s line = skip_space_run a s line.
Proof.
  intros Hr. revert s line; induction a as [|c a IH]; intros s line; simpl.
  - destruct rest as [|c rest]; [reflexivity|]. simpl in Hr. subst c.
    reflexivity.
  - destruct (negb (Byte.eqb c NUL) && is_space c); [apply IH|reflexivity].
Qed.

Lemma skip_to_eol_stop (a rest : list byte) (s : nat) :
  hd NUL rest = NUL -> skip_to_eol (a ++ rest) s = skip_to_eol a s.
Proof.
  intros Hr. revert s; induction a as [|c a IH]; intros s; simpl.
  - destruct rest as [|c rest]; [reflexivity|]. simpl in Hr. subst c.
    reflexivity.
  - destruct (negb (Byte.eqb c NUL) && negb (Byte.eqb c LF));
      [apply IH|reflexivity].
Qed.

Lemma digits_loop_stop (a rest : list byte) (s : nat) (acc : Z) :
  hd NUL rest = NUL -> digits_loop (a ++ rest) s acc = digits_loop a s acc.
Proof.
  intros Hr. revert s acc; induction a as [|c a IH]; intros s acc; simpl.
  - destruct rest as [|c rest]; [reflexivity|]. simpl in Hr. subst c.
    reflexivity.
  - destruct (is_digit c); [apply IH|reflexivity].
Qed.

Lemma ident_loop_stop (a rest : list byte) (s : nat) :
  hd NUL rest = NUL -> ident_loop (a ++ rest) s = ident_loop a s.
Proof.
  intros Hr. revert s; induction a as [|c a IH]; intros s; simpl.
  - destruct rest as [|c rest]; [reflexivity|]. simpl in Hr. subst c.
    reflexivity.
  - destruct (is_alnum c || Byte.eqb c "_"); [apply IH|reflexivity].
Qed.

Lemma c_str_stop (a rest : list byte) :
  hd NUL rest = NUL -> c_str (a ++ rest) = c_str a.
Proof.
  intros Hr. induction a as [|c a IH]; simpl.
  - destruct rest as [|c rest]; [reflexivity|]. simpl in Hr. subst c.
    reflexivity.
  - destruct (Byte.eqb c NUL); [reflexivity|]. rewrite IH. reflexivity.
Qed.

(** Comparing with a keyword that holds no NUL. *)
Lemma memcmp_eq_stop (a rest kw : list byte) (n : nat) :
  hd NUL rest = NUL ->
  n <= List.length kw -> ~ In NUL (firstn n kw) ->
  memcmp_eq (a ++ rest) kw n = memcmp_eq a kw n.
Proof.
  intros Hr. revert a kw; induction n as [|n IH]; intros a kw Hlen Hkw;
    [reflexivity|].
  destruct kw as [|k kw]; [simpl in Hlen; lia|].
  cbn [memcmp_eq hd tl]. simpl in Hkw.
  destruct a as [|c a].
  - cbn [app hd]. rewrite Hr. cbn [hd].
    assert (Byte.eqb NUL k = false) as ->; [|reflexivity].
    destruct (Byte.eqb NUL k) eqn:E; [|reflexivity].
    apply Byte.byte_dec_bl in E. elim Hkw. left. symmetry. exact E.
  - cbn [app hd tl]. rewrite IH; [reflexivity|simpl in Hlen; lia|].
    intros H. apply Hkw. right. exact H.
Qed.

Lemma skip_space_run_text (mem : list byte) (s : nat) (line : Z) :
  s <= strlen mem ->
  skip_space_run (skipn s mem) s line =
  skip_space_run (skipn s (c_str mem)) s line.
Proof.
  intros Hs. destruct (skipn_text mem s Hs) as (rest & -> & Hr).
  apply skip_space_run_stop. exact Hr.
Qed.

Lemma skip_to_eol_text (mem : list byte) (s : nat) :
  s <= strlen mem ->
  skip_to_eol (skipn s mem) s = skip_to_eol (skipn s (c_str mem)) s.
Proof.
  intros Hs. destruct (skipn_text mem s Hs) as (rest & -> & Hr).
  apply skip_to_eol_stop. exact Hr.
Qed.

Lemma digits_loop_text (mem : list byte) (s : nat) (acc : Z) :
  s <= strlen mem ->
  digits_loop (skipn s mem) s acc = digits_loop (skipn s (c_str mem)) s acc.
Proof.
  intros Hs. destruct (skipn_text mem s Hs) as (rest & -> & Hr).
  apply digits_loop_stop. exact Hr.
Qed.

Lemma ident_loop_text (mem : list byte) (s : nat) :
  s <= strlen mem ->
  ident_loop (skipn s mem) s = ident_loop (skipn s (c_str mem)) s.
Proof.
  intros Hs. destruct (skipn_text mem s Hs) as (rest & -> & Hr).
  apply ident_loop_stop. exact Hr.
Qed.

Lemma c_str_skipn_text (mem : list byte) (s : nat) :
  s <= strlen mem -> c_str (skipn s mem) = c_str (skipn s (c_str mem)).
Proof.
  intros Hs. destruct (skipn_text mem s Hs) as (rest & -> & Hr).
  apply c_str_stop. exact Hr.
Qed.

Lemma memcmp_eq_text (mem kw : list byte) (s n : nat) :
  s <= strlen mem ->
  n <= List.length kw -> ~ In NUL (firstn n kw) ->
  memcmp_eq (skipn s mem) kw n = memcmp_eq (skipn s (c_str mem)) kw n.
Proof.
  intros Hs Hlen Hkw. destruct (skipn_text mem s Hs) as (rest & -> & Hr).
  apply memcmp_eq_stop; assumption.
Qed.

Lemma expect_fmt_text (mem : list byte) (s : nat) (cond : string) :
  s <= strlen mem -> expect_fmt mem s cond = expect_fmt (c_str mem) s cond.
Proof.
  intros Hs. unfold expect_fmt. rewrite (c_str_skipn_text mem s Hs).
  reflexivity.
Qed.

Lemma scan_within (p : byte -> bool) (mem : list byte) (s : nat) :
  p NUL = false -> s <= strlen mem -> scan p (skipn s mem) s <= strlen mem.
Proof.
  intros Hp Hs. destruct (scan_spec p mem s Hp) as (Hle & Hseg & _).
  eapply strlen_segment; [exact Hle|exact Hs|].
  intros j Hj E. specialize (Hseg j Hj). rewrite E in Hseg. congruence.
Qed.

Lemma same_text_strlen (e1 e2 : ejs) :
  same_text e1 e2 -> strlen (source_code e2) = strlen (source_code e1).
Proof. intros [Ht _]. rewrite <- !c_str_length, Ht. reflexivity. Qed.

Lemma same_text_peek (e1 e2 : ejs) :
  ok e1 -> same_text e1 e2 -> peek e1 = peek e2.
Proof.
  intros Hok H. pose proof (same_text_strlen e1 e2 H) as Hlen.
  destruct H as [Ht Hc]. unfold peek, ok in *.
  rewrite (peek_text (source_code e1)), (peek_text (source_code e2)) by lia.
  rewrite Ht, Hc. reflexivity.
Qed.

Lemma text_only_ret {A} (a : A) : text_only (ret a).
Proof. intros e1 e2 Hok H. simpl. auto. Qed.

Lemma text_only_out_of_fuel {A} : text_only (@out_of_fuel A).
Proof. intros e1 e2 Hok H. exact I. Qed.

Lemma text_only_bind {A B} (m : M A) (k : A -> M B) :
  text_only m -> (forall a, text_only (k a)) -> text_only (bind m k).
Proof.
  intros Hm Hk e1 e2 Hok H. unfold bind. specialize (Hm e1 e2 Hok H).
  destruct (m e1) as [a1 e1'|e1'|], (m e2) as [a2 e2'|e2'|];
    simpl in Hm; try contradiction; auto.
  destruct Hm as (<- & Hm & Hok'). apply Hk; assumption.
Qed.

Lemma text_only_when (cond : ejs -> bool) (m : M unit) :
  (forall e1 e2, ok e1 -> same_text e1 e2 -> cond e1 = cond e2) ->
  text_only m -> text_only (when cond m).
Proof.
  intros Hc Hm e1 e2 Hok H. unfold when. rewrite (Hc e1 e2 Hok H).
  destruct (cond e2); [apply Hm; assumption|simpl; auto].
Qed.

Lemma text_only_ifelse {A} (cond : ejs -> bool) (a b : M A) :
  (forall e1 e2, ok e1 -> same_text e1 e2 -> cond e1 = cond e2) ->
  text_only a -> text_only b -> text_only (ifelse cond a b).
Proof.
  intros Hc Ha Hb e1 e2 Hok H. unfold ifelse. rewrite (Hc e1 e2 Hok H).
  destruct (cond e2); [apply Ha|apply Hb]; assumption.
Qed.

Lemma same_die {A} (cond : string) (e1 e2 : ejs) :
  In cond expect_texts -> same_text e1 e2 ->
  same_res (@die A (expect_fmt (source_code e1) (cursor e1) cond) e1)
           (@die A (expect_fmt (source_code e2) (cursor e2) cond) e2).
Proof.
  intros Hin H. pose proof (same_text_strlen e1 e2 H) as Hlen.
  destruct H as [Ht Hc]. unfold die. cbn [same_res].
  unfold same_text, ok. fields. split; [auto|]. intros Hok.
  rewrite !die_buffer
    by (first [apply expect_fmt_length|apply expect_fmt_no_NUL]; exact Hin).
  rewrite (expect_fmt_text (source_code e1)),
          (expect_fmt_text (source_code e2)) by lia.
  rewrite Ht, Hc. reflexivity.
Qed.

Lemma text_only_skip : text_only skip_whitespaces_and_comments.
Proof.
  intros e1 e2 Hok H. pose proof (same_text_strlen e1 e2 H) as Hlen.
  destruct H as [Ht Hc]. unfold ok in Hok.
  unfold skip_whitespaces_and_comments.
  set (T := c_str (source_code e2)) in *.
  assert (HT : strlen T = strlen (source_code e1))
    by (unfold T; rewrite strlen_c_str; exact Hlen).
  rewrite (peek_text (source_code e1)), (peek_text (source_code e2)) by lia.
  fold T. rewrite Ht, Hc.
  destruct (is_space (peek_at T (cursor e2))).
  2:{ cbn [same_res]. unfold same_text, ok. fields. repeat split; auto; lia. }
  rewrite (skip_space_run_text (source_code e1)),
          (skip_space_run_text (source_code e2)) by lia.
  fold T. rewrite Ht.
  pose proof (skip_space_run_scan (skipn (cursor e2) T) (cursor e2)
                (line_no e1)) as H1.
  pose proof (skip_space_run_scan (skipn (cursor e2) T) (cursor e2)
                (line_no e2)) as H2.
  destruct (skip_space_run _ _ (line_no e1)) as [s1 l1].
  destruct (skip_space_run _ _ (line_no e2)) as [s2 l2].
  cbn [fst] in H1, H2. rewrite <- H1 in H2. subst s2.
  assert (Hs1 : s1 <= strlen T).
  { rewrite H1. apply scan_within; [reflexivity|lia]. }
  rewrite (peek_text (source_code e1) s1), (peek_text (source_code e2) s1)
    by lia.
  fold T. rewrite Ht.
  destruct (Byte.eqb (peek_at T s1) "/") eqn:E1; cbn [andb].
  2:{ cbn [same_res]. unfold same_text, ok. fields. repeat split; auto; lia. }
  assert (Hs1' : S s1 <= strlen T).
  { apply strlen_lt; [exact Hs1|]. apply eqb_slash. exact E1. }
  rewrite (peek_text (source_code e1) (S s1)),
          (peek_text (source_code e2) (S s1)) by lia.
  fold T. rewrite Ht.
  destruct (Byte.eqb (peek_at T (S s1)) "/") eqn:E2.
  2:{ cbn [same_res]. unfold same_text, ok. fields. repeat split; auto; lia. }
  assert (Hs2 : s1 + 2 <= strlen T).
  { replace (s1 + 2) with (S (S s1)) by lia.
    apply strlen_lt; [exact Hs1'|]. apply eqb_slash. exact E2. }
  rewrite (skip_to_eol_text (source_code e1)),
          (skip_to_eol_text (source_code e2)) by lia.
  fold T. rewrite Ht.
  cbn [same_res]. unfold same_text, ok. fields. repeat split; auto.
  rewrite skip_to_eol_scan. rewrite <- HT.
  apply scan_within; [reflexivity|exact Hs2].
Qed.

Lemma text_only_match (ch : byte) : ch <> NUL -> text_only (match_ ch).
Proof.
  intros Hch e1 e2 Hok H.
  unfold match_, EXPECT, read_and_advance, bind, ret.
  rewrite (same_text_peek e1 e2 Hok H).
  destruct (Byte.eqb (peek e2) ch) eqn:E.
  - apply text_only_skip.
    + unfold ok in *. fields. apply strlen_lt; [exact Hok|].
      fold (peek e1). rewrite (same_text_peek e1 e2 Hok H).
      apply Byte.byte_dec_bl in E. rewrite E. exact Hch.
    + destruct H as [Ht Hc]. unfold same_text. fields. auto.
  - apply (same_die "*ejs->cursor++ == ch"
             (set_cursor e1 (S (cursor e1))) (set_cursor e2 (S (cursor e2)))).
    + simpl; auto.
    + destruct H as [Ht Hc]. unfold same_text. fields. auto.
Qed.

Lemma text_only_test_and_skip (kw : list byte) (kwlen : nat) :
  kwlen <= List.length kw -> ~ In NUL (firstn kwlen kw) ->
  text_only (test_and_skip kw kwlen).
Proof.
  intros Hlen Hkw e1 e2 Hok H.
  pose proof (same_text_strlen e1 e2 H) as Hstr.
  destruct H as [Ht Hc]. unfold ok in Hok. unfold test_and_skip.
  rewrite (memcmp_eq_text (source_code e2)) by (auto; lia).
  destruct (memcmp_eq (skipn (cursor e1) (source_code e1)) kw kwlen) eqn:E.
  - rewrite (memcmp_eq_text (source_code e1)) in E by (auto; lia).
    rewrite <- Ht, <- Hc, E. rewrite !modify_bind.
    apply (text_only_bind skip_whitespaces_and_comments (fun _ => ret 1%Z));
      [apply text_only_skip|intros _; apply text_only_ret| |].
    + unfold ok. fields.
      rewrite <- (memcmp_eq_text (source_code e1)) in E by (auto; lia).
      eapply strlen_segment with (s := cursor e1); [lia|exact Hok|].
      intros j Hj. replace j with (cursor e1 + (j - cursor e1)) by lia.
      rewrite (memcmp_eq_peek _ _ _ _ E) by lia.
      intros Hn. apply Hkw. rewrite <- Hn.
      rewrite <- (firstn_skipn kwlen kw) at 1.
      rewrite app_nth1 by (rewrite length_firstn; lia).
      apply nth_In. rewrite length_firstn. lia.
    + unfold same_text. fields. auto.
  - rewrite (memcmp_eq_text (source_code e1)) in E by (auto; lia).
    rewrite <- Ht, <- Hc, E. cbn [same_res]. unfold same_text, ok. auto.
Qed.

Lemma text_only_EXPECT_pure (f : ejs -> bool) (cond : string) :
  (forall e1 e2, ok e1 -> same_text e1 e2 -> f e1 = f e2) ->
  In cond expect_texts ->
  text_only (EXPECT (fun ejs => Ret (f ejs) ejs) cond).
Proof.
  intros Hf Hin e1 e2 Hok H. unfold EXPECT, bind, ret.
  rewrite (Hf e1 e2 Hok H).
  destruct (f e2); [cbn [same_res]; auto|].
  apply same_die; assumption.
Qed.

(** A statement that writes neither the source pointer nor the cursor. *)
Lemma text_only_modify (f : ejs -> ejs) :
  (forall e, source_code (f e) = source_code e /\ cursor (f e) = cursor e) ->
  text_only (modify f).
Proof.
  intros Hf e1 e2 Hok [Ht Hc]. unfold modify. cbn [same_res].
  destruct (Hf e1) as [Hs1 Hc1]. destruct (Hf e2) as [Hs2 Hc2].
  unfold same_text, ok in *. rewrite Hs1, Hs2, Hc1, Hc2. auto.
Qed.

Lemma text_only_digits :
  text_only (fun ejs =>
     let '(s, result) :=
       digits_loop (skipn (cursor ejs) (source_code ejs)) (cursor ejs) 0%Z in
     Ret result (set_cursor ejs s)).
Proof.
  intros e1 e2 Hok H. pose proof (same_text_strlen e1 e2 H) as Hstr.
  destruct H as [Ht Hc]. unfold ok in Hok.
  rewrite (digits_loop_text (source_code e1)),
          (digits_loop_text (source_code e2)) by lia.
  rewrite Ht, Hc.
  set (T := c_str (source_code e2)) in *.
  pose proof (digits_loop_scan (skipn (cursor e2) T) (cursor e2) 0) as Hs.
  destruct (digits_loop (skipn (cursor e2) T) (cursor e2) 0) as [s result].
  cbn [fst] in Hs. cbn [same_res]. unfold same_text, ok. fields.
  repeat split; auto. rewrite Hs.
  replace (strlen (source_code e1)) with (strlen T)
    by (unfold T; rewrite strlen_c_str; exact Hstr).
  apply scan_within; [reflexivity|].
  unfold T. rewrite strlen_c_str. lia.
Qed.

Lemma text_only_parse_num : text_only parse_num.
Proof.
  unfold parse_num.
  apply text_only_bind; [apply text_only_EXPECT_pure; [|simpl; auto]|intros _].
  { intros e1 e2 Hok H. rewrite (same_text_peek e1 e2 Hok H). reflexivity. }
  apply text_only_bind; [apply text_only_modify; intros e; auto|intros _].
  apply text_only_bind; [apply text_only_digits|intros result].
  apply text_only_bind; [apply text_only_modify; intros e; auto|intros _].
  apply text_only_bind; [apply text_only_skip|intros _; apply text_only_ret].
Qed.

Lemma text_only_parse_identifier : text_only parse_identifier.
Proof.
  intros e1 e2 Hok H. pose proof (same_text_strlen e1 e2 H) as Hstr.
  unfold parse_identifier. rewrite !EXPECT_pure_bind.
  pose proof (same_text_peek e1 e2 Hok H) as Hpeek. rewrite Hpeek.
  destruct (is_alpha (peek e2) || Byte.eqb (peek e2) "_") eqn:E.
  2:{ apply same_die; [simpl; auto|exact H]. }
  destruct H as [Ht Hc]. unfold ok in Hok.
  assert (Hlt : S (cursor e1) <= strlen (source_code e1)).
  { apply strlen_lt; [exact Hok|]. fold (peek e1). rewrite Hpeek.
    apply ident_start_plain. exact E. }
  rewrite !modify_bind. fields.
  rewrite (ident_loop_text (source_code e1)),
          (ident_loop_text (source_code e2)) by lia.
  rewrite Ht, Hc.
  set (T := c_str (source_code e2)) in *.
  apply text_only_skip.
  - unfold ok. fields. rewrite ident_loop_scan.
    replace (strlen (source_code e1)) with (strlen T)
      by (unfold T; rewrite strlen_c_str; exact Hstr).
    apply scan_within; [reflexivity|].
    unfold T. rewrite strlen_c_str. lia.
  - unfold same_text. fields. auto.
Qed.

(** The body of the operator loops. *)
Lemma text_only_op_loop (a b : byte) (rest : M unit) :
  a <> NUL -> b <> NUL -> text_only rest ->
  text_only (when (fun ejs => IS ejs a || IS ejs b)
               ((fun ejs => match_ (peek ejs) ejs) ;; rest)).
Proof.
  intros Ha Hb Hrest e1 e2 Hok H. unfold when, IS.
  pose proof (same_text_peek e1 e2 Hok H) as Hpeek. rewrite Hpeek.
  destruct (Byte.eqb (peek e2) a || Byte.eqb (peek e2) b) eqn:E.
  2:{ cbn [same_res]. auto. }
  assert (Hch : peek e2 <> NUL).
  { apply orb_true_iff in E as [E|E]; apply Byte.byte_dec_bl in E;
      rewrite E; assumption. }
  change (((fun ejs => match_ (peek ejs) ejs) ;; rest) e1)
    with ((match_ (peek e1) ;; rest) e1).
  change (((fun ejs => match_ (peek ejs) ejs) ;; rest) e2)
    with ((match_ (peek e2) ;; rest) e2).
  rewrite Hpeek.
  apply (text_only_bind (match_ (peek e2)) (fun _ => rest));
    [apply text_only_match; exact Hch|intros _; exact Hrest| |]; assumption.
Qed.

Ltac peek_tac :=
  let e1 := fresh "e" in
  let e2 := fresh "e" in
  let Hok := fresh "Hok" in
  let H := fresh "H" in
  intros e1 e2 Hok H; unfold IS; rewrite (same_text_peek e1 e2 Hok H);
  reflexivity.

Ltac text_tac :=
  repeat first
    [ eassumption
    | apply text_only_skip
    | apply text_only_match; discriminate
    | apply text_only_test_and_skip;
        [simpl; lia | simpl; intuition discriminate]
    | apply text_only_parse_num
    | apply text_only_parse_identifier
    | apply text_only_ret
    | apply text_only_op_loop; [discriminate|discriminate|]
    | apply text_only_bind; [|intros ?]
    | apply text_only_when; [peek_tac|]
    | apply text_only_ifelse; [peek_tac| |]
    | match goal with
      | |- text_only (if ?c then _ else _) => destruct c
      end ].

Lemma text_only_productions (fuel : nat) :
  text_only (parse_function_call fuel) /\
  text_only (call_args fuel) /\
  text_only (parse_factor fuel) /\
  text_only (parse_term fuel) /\
  text_only (term_loop fuel) /\
  text_only (parse_expression fuel) /\
  text_only (expr_loop fuel).
Proof.
  induction fuel as [|fuel IH].
  - repeat apply conj; apply text_only_out_of_fuel.
  - destruct IH as (Hcall & Hargs & Hfactor & Hterm & Htl & Hexpr & Hel).
    repeat apply conj; simpl; text_tac.
Qed.

Lemma text_only_parse_declaration (fuel : nat) :
  text_only (parse_declaration fuel).
Proof.
  induction fuel as [|fuel IH]; [apply text_only_out_of_fuel|]. simpl.
  destruct (text_only_productions fuel) as (_ & _ & _ & _ & _ & Hexpr & _).
  text_tac.
Qed.

Lemma text_only_parse_statement (fuel : nat) :
  text_only (parse_statement fuel).
Proof.
  destruct (text_only_productions fuel) as (_ & _ & _ & _ & _ & Hexpr & _).
  pose proof (text_only_parse_declaration fuel) as Hdecl.
  unfold parse_statement, parse_assignment. text_tac.
Qed.

Lemma text_only_statements (fuel : nat) : text_only (statements fuel).
Proof.
  induction fuel as [|fuel IH]; [apply text_only_out_of_fuel|]. simpl.
  pose proof (text_only_parse_statement fuel) as Hstmt.
  text_tac.
Qed.

(** X22: The bytes behind the terminator do not count: two calls on memories
    that hold the same text, on any two instances, return the same
    [int] with the cursor at the same offset, and leave the same
    diagnostic unless the cursor went past the terminator (which it
    does when [match] fails on the terminator itself). *)
Theorem verdict_reads_text_only (vm1 vm2 : ejs) (src1 src2 : list byte) :
  c_str src1 = c_str src2 ->
  exists r vm1' vm2',
    ejs_exec vm1 src1 = Some (r, vm1') /\
    ejs_exec vm2 src2 = Some (r, vm2') /\
    cursor vm1' = cursor vm2' /\
    (r = 0%Z -> cursor vm1' <= strlen src1 ->
     c_str (error_msg vm1') = c_str (error_msg vm2')).
Proof.
  intros Ht.
  assert (Hlen : strlen src2 = strlen src1)
    by (rewrite <- !c_str_length, Ht; reflexivity).
  assert (H : same_res
            ((skip_whitespaces_and_comments ;; statements (enough_fuel src1))
               (set_source vm1 src1))
            ((skip_whitespaces_and_comments ;; statements (enough_fuel src1))
               (set_source vm2 src2))).
  { apply text_only_bind;
      [apply text_only_skip|intros _; apply text_only_statements| |].
    - apply ok_set_source.
    - unfold same_text; simpl; auto. }
  destruct (ejs_exec_fuel_enough (enough_fuel src1) vm1 src1 (Nat.le_refl _))
    as (r1 & vm1' & H1 & _).
  destruct (ejs_exec_fuel_enough (enough_fuel src2) vm2 src2 (Nat.le_refl _))
    as (r2 & vm2' & H2 & _).
  pose proof (ejs_exec_fuel_cases _ _ _ _ _ H1) as Hcase.
  unfold ejs_exec. rewrite H1, H2.
  assert (Hfuel : enough_fuel src2 = enough_fuel src1)
    by (unfold enough_fuel; rewrite Hlen; reflexivity).
  rewrite Hfuel in H2.
  unfold ejs_exec_fuel in H1, H2.
  destruct ((skip_whitespaces_and_comments ;; statements (enough_fuel src1))
              (set_source vm1 src1)) as [u1 e1|e1|];
    destruct ((skip_whitespaces_and_comments ;; statements (enough_fuel src1))
                (set_source vm2 src2)) as [u2 e2|e2|];
    simpl in H; try contradiction; try discriminate;
    injection H1 as <- <-; injection H2 as <- <-.
  - destruct H as (_ & (_ & Hc) & _).
    exists 1%Z, e1, e2. repeat split; auto. discriminate.
  - destruct H as ((_ & Hc) & Hm).
    exists 0%Z, e1, e2. repeat split; auto.
    intros _ Hin. apply Hm. unfold ok.
    destruct Hcase as [[Hr _]|[_ Hd]]; [discriminate Hr|].
    destruct Hd as (Hs & _). rewrite Hs. exact Hin.
Qed.

(** The same statement with and without bytes behind its terminator. *)
Lemma verdict_reads_text_only_witness :
  exists r vm1' vm2',
    ejs_exec ejs_create (text "x = 1;" ++ NUL :: text "y") = Some (r, vm1') /\
    ejs_exec ejs_create (text "x = 1;") = Some (r, vm2') /\
    cursor vm1' = cursor vm2' /\
    (r = 0%Z ->
     cursor vm1' <= strlen (text "x = 1;" ++ NUL :: text "y") ->
     c_str (error_msg vm1') = c_str (error_msg vm2')).
Proof.
  apply (verdict_reads_text_only ejs_create ejs_create
           (text "x = 1;" ++ NUL :: text "y") (text "x = 1;")).
  reflexivity.
Defined.
